(** * vispy/fonts/_freetype.py: font cache, glyph rasterisation, kerning sweep

    A shallow embedding of [_load_font] and [_load_glyph].  The Python
    object store is explicit: [Face] objects and glyph records live in
    heaps and are named by references, so that the aliasing between the
    local variable [glyph] and the entry [glyphs_dict[char]] is the one
    the interpreter has.  The FreeType binding and the platform font
    resolver ([..ext.freetype], [find_font]) are not part of the module;
    they are the fields of the class [FreeType] below. *)

From stdpp Require Import base numbers option list gmap strings pretty.
From Stdlib Require Import QArith_base.

Local Open Scope Z_scope.

(** A character is a Python [str] of length one; it is the key type of the
    glyph and kerning dicts. *)
Abbreviation character := string.

(** ** Exceptions and results *)

(** The exceptions that can leave the two functions.  [FontNotFoundError]
    and [GlyphLoadError] are raised by the external resolver and by
    [Face.load_char]; [FT_Exception] by the [Face] constructor;
    [ZeroDivisionError] by [//]; [ValueError] by numpy's shape setter.
    [DuplicateGlyphError] is listed because the specification names it: no
    statement of the module raises it.  [SystemError] stands for following
    a reference that names no object, which the interpreter never does. *)
Inductive exn :=
  | FontNotFoundError
  | GlyphLoadError
  | DuplicateGlyphError
  | FT_Exception
  | ZeroDivisionError
  | ValueError
  | SystemError.

Global Instance exn_eq_dec : EqDecision exn.
Proof. solve_decision. Defined.

Inductive Result (A : Type) :=
  | Ok (a : A)
  | Raise (e : exn).
Global Arguments Ok {A} a.
Global Arguments Raise {A} e.

Global Instance Result_ret : MRet Result := @Ok.
Global Instance Result_bind : MBind Result := λ A B f r,
  match r with
  | Ok a => f a
  | Raise e => Raise e
  end.

(** An external call that returns nothing on failure raises [e]. *)
Definition or_raise {A} (e : exn) (o : option A) : Result A :=
  match o with
  | Some a => Ok a
  | None => Raise e
  end.

(** ** numpy: the part of [ndarray] the module uses *)

Module np.

(** A two-dimensional array: its shape and its row-major data. *)
Record ndarray := mk_ndarray { nrows : Z; ncols : Z; data : list Z }.

(** [a // b] on Python integers: floor division, [ZeroDivisionError] on a
    zero divisor. *)
Definition floordiv (a b : Z) : Result Z :=
  if decide (b = 0) then Raise ZeroDivisionError else Ok (a `div` b).

(** [flat.shape = (h, w)] on the one-dimensional [np.array(buffer)]:
    [ValueError] unless the dimensions are non-negative and their
    product is the size. *)
Definition set_shape (flat : list Z) (h w : Z) : Result ndarray :=
  if decide (0 ≤ h ∧ 0 ≤ w ∧ h * w = Z.of_nat (length flat))
  then Ok (mk_ndarray h w flat)
  else Raise ValueError.

(** The rows of an array, read off its data. *)
Fixpoint chunks (n w : nat) (l : list Z) : list (list Z) :=
  match n with
  | O => []
  | S n' => take w l :: chunks n' w (drop w l)
  end.

Definition rows_of (a : ndarray) : list (list Z) :=
  chunks (Z.to_nat (nrows a)) (Z.to_nat (ncols a)) (data a).

(** The stop index of the slice [:stop] along an axis of length [n]. *)
Definition slice_stop (n stop : Z) : Z :=
  if decide (stop < 0) then Z.max 0 (n + stop) else Z.min stop n.

(** [a[:, :stop]]. *)
Definition slice_cols (a : ndarray) (stop : Z) : ndarray :=
  let w' := slice_stop (ncols a) stop in
  mk_ndarray (nrows a) w' (concat (take (Z.to_nat w') <$> rows_of a)).

(** [a.astype(np.ubyte)]: every sample reduced modulo 256. *)
Definition astype_ubyte (a : ndarray) : ndarray :=
  mk_ndarray (nrows a) (ncols a) ((λ v, v `mod` 256) <$> data a).

End np.

(** Lines 47-50 of [_load_glyph]:
<<
    bitmap = np.array(bitmap.buffer)
    w0 = bitmap.size // height if bitmap.size > 0 else 0
    bitmap.shape = (height, w0)
    bitmap = bitmap[:, :width].astype(np.ubyte)
>> *)
Definition make_bitmap (buffer : list Z) (width height : Z) : Result np.ndarray :=
  let size := Z.of_nat (length buffer) in
  w0 ← (if decide (0 < size) then np.floordiv size height else Ok 0);
  a ← np.set_shape buffer height w0;
  Ok (np.astype_ubyte (np.slice_cols a width)).


(** ** The FreeType binding and the font resolver *)

(** What [face.glyph] exposes after [load_char]: the native bitmap
    ([rows], [width], the sample [buffer]) and the metrics, in 26.6
    fixed point where FreeType uses it. *)
Record FT_Bitmap := mk_FT_Bitmap {
  bm_rows : Z;
  bm_width : Z;
  bm_buffer : list Z
}.

Record FT_GlyphSlot := mk_FT_GlyphSlot {
  slot_bitmap : FT_Bitmap;
  bitmap_left : Z;
  bitmap_top : Z;
  advance_x : Z
}.

(** The imported names.  A font file is known by its path; what FreeType
    answers depends on the file and on the character size last set on the
    face.  [find_font] and [FT_Load_Char] answer [None] where the Python
    call raises; [FT_New_Face] says whether [Face(fname)] can open the
    file.  On an open face [set_char_size] and [get_kerning] are taken to
    succeed; [FT_Get_Kerning] is the [x] of the vector, in 26.6 fixed
    point.  Font sizes are integers. *)
Class FreeType := {
  FT_LOAD_RENDER : Z;
  FT_LOAD_NO_HINTING : Z;
  FT_LOAD_NO_AUTOHINT : Z;
  find_font : string → Z → bool → bool → option string;
  FT_New_Face : string → bool;
  FT_Load_Char : string → Z → character → Z → option FT_GlyphSlot;
  FT_Get_Kerning : string → Z → character → character → Z
}.

(** ** The object store *)

(** A [Face] object: the file it was opened on, the character size last
    set and its glyph slot, which is blank until a glyph is loaded. *)
Record Face := mk_Face {
  fname : string;
  char_size : Z;
  face_glyph : FT_GlyphSlot
}.

Definition blank_slot : FT_GlyphSlot :=
  mk_FT_GlyphSlot (mk_FT_Bitmap 0 0 []) 0 0 0.

(** The dict built by [dict(char=..., offset=..., bitmap=..., advance=...,
    kerning={})].  [x / 64.] is exact on binary floating point for a 26.6
    value, and is kept as the rational [x # 64]. *)
Record Glyph := mk_Glyph {
  g_char : character;
  g_offset : Z * Z;
  g_bitmap : np.ndarray;
  g_advance : Q;
  g_kerning : gmap character Q
}.

(** References are indices into the heaps. *)
Abbreviation ref := nat.

(** What the functions do to the world outside the store, in order. *)
Inductive Event :=
  | EvFindFont (face : string) (size : Z) (bold italic : bool)
  | EvNewFace (fname : string)
  | EvKernStore (g : ref) (key : character) (v : Q).

(** [_font_dict] is the module global; [faces] and [glyph_objs] are the
    heaps; [glyphs_dict] is the dict object the caller passes to
    [_load_glyph], in insertion order, each key bound to a reference to a
    glyph record; [trace] records the events. *)
Record Store := mk_Store {
  _font_dict : gmap string ref;
  faces : list Face;
  glyph_objs : list Glyph;
  glyphs_dict : list (character * ref);
  trace : list Event
}.

Definition set_font_dict (f : gmap string ref → gmap string ref) (s : Store) : Store :=
  mk_Store (f (_font_dict s)) (faces s) (glyph_objs s) (glyphs_dict s) (trace s).
Definition set_faces (f : list Face → list Face) (s : Store) : Store :=
  mk_Store (_font_dict s) (f (faces s)) (glyph_objs s) (glyphs_dict s) (trace s).
Definition set_glyph_objs (f : list Glyph → list Glyph) (s : Store) : Store :=
  mk_Store (_font_dict s) (faces s) (f (glyph_objs s)) (glyphs_dict s) (trace s).
Definition set_glyphs_dict (f : list (character * ref) → list (character * ref)) (s : Store) : Store :=
  mk_Store (_font_dict s) (faces s) (glyph_objs s) (f (glyphs_dict s)) (trace s).
Definition emit (e : Event) (s : Store) : Store :=
  mk_Store (_font_dict s) (faces s) (glyph_objs s) (glyphs_dict s) (trace s ++ [e]).

(** ** Statements: state and exceptions *)

Definition Py (A : Type) : Type := Store → Result A * Store.

Global Instance Py_ret : MRet Py := λ A a s, (Ok a, s).
Global Instance Py_bind : MBind Py := λ A B f m s,
  match m s with
  | (Ok a, s') => f a s'
  | (Raise e, s') => (Raise e, s')
  end.

Definition raise {A} (e : exn) : Py A := λ s, (Raise e, s).
Definition gets {A} (f : Store → A) : Py A := λ s, (Ok (f s), s).
Definition modify (f : Store → Store) : Py unit := λ s, (Ok (), f s).
Definition lift {A} (r : Result A) : Py A := λ s, (r, s).

(** [for x in xs: body(x)]. *)
Fixpoint for_each {A} (body : A → Py unit) (xs : list A) : Py unit :=
  match xs with
  | [] => mret ()
  | x :: xs' => body x ;; for_each body xs'
  end.

(** ** Python dicts kept in insertion order *)

Fixpoint dict_get {V} (k : character) (d : list (character * V)) : option V :=
  match d with
  | [] => None
  | (k', v) :: d' => if decide (k' = k) then Some v else dict_get k d'
  end.

(** [d[k] = v]: rebinds [k] where it stands, or appends it. *)
Fixpoint dict_set {V} (k : character) (v : V) (d : list (character * V)) : list (character * V) :=
  match d with
  | [] => [(k, v)]
  | (k', v') :: d' =>
      if decide (k' = k) then (k, v) :: d' else (k', v') :: dict_set k v d'
  end.


(** ** The module *)

(** The dict [f] that describes the requested font. *)
Record FontDesc := mk_FontDesc {
  f_face : string;
  f_size : Z;
  f_bold : bool;
  f_italic : bool
}.

(** [str(b)] for a Python bool. *)
Definition str_bool (b : bool) : string := if b then "True" else "False".

(** ['%s-%s-%s-%s' % (face, size, bold, italic)], for an integer size. *)
Definition font_key (face : string) (size : Z) (bold italic : bool) : string :=
  face +:+ "-" +:+ pretty size +:+ "-" +:+ str_bool bold +:+ "-" +:+ str_bool italic.

(** [x / 64.]: 26.6 fixed point to pixels. *)
Definition div64 (x : Z) : Q := Qmake x 64.

(** The glyph record [o] after [o['kerning'][k] = v]. *)
Definition put_kerning (k : character) (v : Q) (o : Glyph) : Glyph :=
  mk_Glyph (g_char o) (g_offset o) (g_bitmap o) (g_advance o)
           (<[k := v]> (g_kerning o)).

Section Module_freetype.
Context `{FreeType}.

(** *** Objects *)

Definition deref_face (r : ref) : Py Face :=
  λ s, (or_raise SystemError (faces s !! r), s).

Definition deref_glyph (r : ref) : Py Glyph :=
  λ s, (or_raise SystemError (glyph_objs s !! r), s).

(** [Face(fname)]: a new object on the heap, or [FT_Exception]. *)
Definition Face_new (fname : string) : Py ref :=
  modify (emit (EvNewFace fname));;
  if FT_New_Face fname then
    r ← gets (λ s, length (faces s));
    modify (set_faces (λ h, h ++ [mk_Face fname 0 blank_slot]));;
    mret r
  else raise FT_Exception.

(** [face.set_char_size(w)]. *)
Definition set_char_size (face : ref) (w : Z) : Py unit :=
  o ← deref_face face;
  modify (set_faces <[face := mk_Face (fname o) w (face_glyph o)]>).

(** [face.load_char(char, flags)]: fills the glyph slot, or raises. *)
Definition load_char (face : ref) (c : character) (flags : Z) : Py unit :=
  o ← deref_face face;
  slot ← lift (or_raise GlyphLoadError
                 (FT_Load_Char (fname o) (char_size o) c flags));
  modify (set_faces <[face := mk_Face (fname o) (char_size o) slot]>).

(** [face.glyph]. *)
Definition get_glyph (face : ref) : Py FT_GlyphSlot :=
  o ← deref_face face;
  mret (face_glyph o).

(** [face.get_kerning(left, right).x]. *)
Definition get_kerning_x (face : ref) (left right : character) : Py Z :=
  o ← deref_face face;
  mret (FT_Get_Kerning (fname o) (char_size o) left right).

(** [dict(char=..., ...)]: a new glyph record on the heap. *)
Definition new_glyph (g : Glyph) : Py ref :=
  r ← gets (λ s, length (glyph_objs s));
  modify (set_glyph_objs (λ h, h ++ [g]));;
  mret r.

(** [g['kerning'][k] = v]. *)
Definition kerning_setitem (g : ref) (k : character) (v : Q) : Py unit :=
  o ← deref_glyph g;
  modify (emit (EvKernStore g k v));;
  modify (set_glyph_objs <[g := put_kerning k v o]>).

(** *** [_load_font] *)

Definition _load_font (face : string) (size : Z) (bold italic : bool) : Py ref :=
  let key := font_key face size bold italic in
  fd ← gets _font_dict;
  match fd !! key with
  | Some font => mret font
  | None =>
      modify (emit (EvFindFont face size bold italic));;
      fname ← lift (or_raise FontNotFoundError (find_font face size bold italic));
      font ← Face_new fname;
      modify (set_font_dict <[key := font]>);;
      mret font
  end.

(** *** [_load_glyph] *)

(** The body of the loop [for other_char, other_glyph in
    glyphs_dict.items()]. *)
Definition kern_pair (face : ref) (char : character) (glyph : ref)
    (item : character * ref) : Py unit :=
  let '(other_char, other_glyph) := item in
  kerning ← get_kerning_x face other_char char;
  kerning_setitem glyph other_char (div64 kerning);;
  kerning ← get_kerning_x face char other_char;
  kerning_setitem other_glyph char (div64 kerning).

Definition freetype_flags : Z :=
  Z.lor (Z.lor FT_LOAD_RENDER FT_LOAD_NO_HINTING) FT_LOAD_NO_AUTOHINT.

Definition _load_glyph (f : FontDesc) (char : character) : Py unit :=
  face ← _load_font (f_face f) (f_size f) (f_bold f) (f_italic f);
  set_char_size face (f_size f * 64);;
  load_char face char freetype_flags;;
  slot ← get_glyph face;
  let bitmap := slot_bitmap slot in
  let width := bm_width bitmap in
  let height := bm_rows bitmap in
  bitmap ← lift (make_bitmap (bm_buffer bitmap) width height);
  let left := bitmap_left slot in
  let top := bitmap_top slot in
  let advance := div64 (advance_x slot) in
  glyph ← new_glyph (mk_Glyph char (left, top) bitmap advance ∅);
  modify (set_glyphs_dict (dict_set char glyph));;
  set_char_size face (f_size f * 64);;
  items ← gets glyphs_dict;
  for_each (kern_pair face char glyph) items.

(** Loading several characters in turn, as a caller does. *)
Definition load_glyphs (f : FontDesc) (chars : list character) : Py unit :=
  for_each (_load_glyph f) chars.

End Module_freetype.

(** ** Vocabulary of the properties *)

Section Vocabulary.
Context `{FreeType}.

(** What a miss does: the resolver is asked, then the face is opened, and
    only then is the cache written. *)
Definition _load_font_on_miss (face : string) (size : Z) (bold italic : bool)
    (s : Store) : Result ref * Store :=
  let s1 := emit (EvFindFont face size bold italic) s in
  match find_font face size bold italic with
  | None => (Raise FontNotFoundError, s1)
  | Some fname =>
      let s2 := emit (EvNewFace fname) s1 in
      if FT_New_Face fname then
        (Ok (length (faces s)),
         set_font_dict <[font_key face size bold italic := length (faces s)]>
           (set_faces (λ h, h ++ [mk_Face fname 0 blank_slot]) s2))
      else (Raise FT_Exception, s2)
  end.

(** One store into a kerning dict: the glyph record, the key, the value. *)
Definition apply_store (h : list Glyph) (w : ref * character * Q) : list Glyph :=
  let '(g, k, v) := w in alter (put_kerning k v) g h.

Definition ev_store (w : ref * character * Q) : Event :=
  let '(g, k, v) := w in EvKernStore g k v.

(** The stores of the sweep, in the order the loop makes them: for each
    item of the dict, one into the new glyph and one into the item's. *)
Definition sweep_stores (K : character → character → Z) (char : character)
    (glyph : ref) (items : list (character * ref)) : list (ref * character * Q) :=
  items ≫= λ '(other_char, other_glyph),
    [(glyph, other_char, div64 (K other_char char));
     (other_glyph, char, div64 (K char other_char))].

(** The store after a list of kerning stores. *)
Definition swept (ws : list (ref * character * Q)) (s : Store) : Store :=
  mk_Store (_font_dict s) (faces s) (foldl apply_store (glyph_objs s) ws)
           (glyphs_dict s) (trace s ++ (ev_store <$> ws)).

(** What the value under key [k] of glyph [g] becomes through a list of
    stores, from what it was. *)
Definition entry_after (g : ref) (k : character) (init : option Q)
    (ws : list (ref * character * Q)) : option Q :=
  foldl (λ acc w, if decide (w.1.1 = g ∧ w.1.2 = k) then Some w.2 else acc) init ws.

(** The store when the loop of [_load_glyph] starts ([inserted]) and when
    it has completed ([loaded]), from the store [s1] that [_load_font]
    left, the face [o] it returned, the slot FreeType filled and the bitmap
    made of it. *)
Definition inserted (f : FontDesc) (char : character) (face : ref) (o : Face)
    (slot : FT_GlyphSlot) (bitmap : np.ndarray) (s1 : Store) : Store :=
  mk_Store (_font_dict s1)
           (<[face := mk_Face (fname o) (f_size f * 64) slot]> (faces s1))
           (glyph_objs s1 ++
              [mk_Glyph char (bitmap_left slot, bitmap_top slot) bitmap
                        (div64 (advance_x slot)) ∅])
           (dict_set char (length (glyph_objs s1)) (glyphs_dict s1))
           (trace s1).

Definition loaded (f : FontDesc) (char : character) (face : ref) (o : Face)
    (slot : FT_GlyphSlot) (bitmap : np.ndarray) (s1 : Store) : Store :=
  let s3 := inserted f char face o slot bitmap s1 in
  swept (sweep_stores (FT_Get_Kerning (fname o) (f_size f * 64)) char
                      (length (glyph_objs s1)) (glyphs_dict s3)) s3.

(** [_load_glyph] statement by statement: where it can stop, and the store
    it stops in. *)
Definition _load_glyph_steps (f : FontDesc) (char : character) (s : Store)
    : Result unit * Store :=
  match _load_font (f_face f) (f_size f) (f_bold f) (f_italic f) s with
  | (Raise e, s1) => (Raise e, s1)
  | (Ok face, s1) =>
      match faces s1 !! face with
      | None => (Raise SystemError, s1)
      | Some o =>
          match FT_Load_Char (fname o) (f_size f * 64) char freetype_flags with
          | None =>
              (Raise GlyphLoadError,
               set_faces <[face := mk_Face (fname o) (f_size f * 64) (face_glyph o)]> s1)
          | Some slot =>
              match make_bitmap (bm_buffer (slot_bitmap slot))
                                (bm_width (slot_bitmap slot))
                                (bm_rows (slot_bitmap slot)) with
              | Raise e =>
                  (Raise e,
                   set_faces <[face := mk_Face (fname o) (f_size f * 64) slot]> s1)
              | Ok bitmap =>
                  for_each (kern_pair face char (length (glyph_objs s1)))
                           (glyphs_dict (inserted f char face o slot bitmap s1))
                           (inserted f char face o slot bitmap s1)
              end
          end
      end
  end.

(** How many times the trace stores under key [k] of glyph [g]. *)
Definition is_store (g : ref) (k : character) (ev : Event) : bool :=
  match ev with
  | EvKernStore g' k' _ => bool_decide (g' = g ∧ k' = k)
  | _ => false
  end.

Definition count_stores (g : ref) (k : character) (tr : list Event) : nat :=
  length (filter (λ ev, is_store g k ev = true) tr).

(** The glyphs dict is a Python dict of distinct glyph records: keys are
    unique, no two keys share a record, every reference names a record. *)
Definition wf_glyphs (s : Store) : Prop :=
  NoDup (glyphs_dict s).*1
  ∧ NoDup (glyphs_dict s).*2
  ∧ Forall (λ r, (r < length (glyph_objs s))%nat) (glyphs_dict s).*2.

(** Every key of the dict is bound to the glyph of that character, which
    has a kerning entry under each key of the dict, its own included, and
    under nothing else. *)
Definition kerning_closed (s : Store) : Prop :=
  ∀ c r, (c, r) ∈ glyphs_dict s →
    ∃ g, glyph_objs s !! r = Some g
       ∧ g_char g = c
       ∧ ∀ k, is_Some (g_kerning g !! k) ↔ k ∈ (glyphs_dict s).*1.

Global Instance wf_glyphs_dec (s : Store) : Decision (wf_glyphs s).
Proof. unfold wf_glyphs. apply _. Defined.

End Vocabulary.

(** ** A small font, for the examples *)

Module demo.

(** Three letters with a padded two-row bitmap, a blank, and nothing
    else. *)
Definition slot_of (c : character) : option FT_GlyphSlot :=
  if decide (c = "A") then
    Some (mk_FT_GlyphSlot (mk_FT_Bitmap 2 3 [0; 255; 0; 9; 255; 0; 255; 9]) 1 7 640)
  else if decide (c = "V") then
    Some (mk_FT_GlyphSlot (mk_FT_Bitmap 2 3 [255; 0; 255; 9; 0; 255; 0; 9]) 0 7 600)
  else if decide (c = "T") then
    Some (mk_FT_GlyphSlot (mk_FT_Bitmap 1 2 [255; 255]) 0 7 560)
  else if decide (c = " ") then
    Some (mk_FT_GlyphSlot (mk_FT_Bitmap 0 0 []) 0 0 256)
  else None.

(** Only "Arial" resolves; only the pairs AV and VA are kerned. *)
Definition freetype : FreeType := {|
  FT_LOAD_RENDER := 4;
  FT_LOAD_NO_HINTING := 2;
  FT_LOAD_NO_AUTOHINT := 32768;
  find_font face size bold italic :=
    if decide (face = "Arial") then Some "/usr/share/fonts/arial.ttf" else None;
  FT_New_Face fname := true;
  FT_Load_Char fname size c flags := slot_of c;
  FT_Get_Kerning fname size left right :=
    if decide (left = "A" ∧ right = "V") then -96
    else if decide (left = "V" ∧ right = "A") then -80
    else 0
|}.

Definition arial12 : FontDesc := mk_FontDesc "Arial" 12 false false.

(** The store of a fresh interpreter, and what loading leaves. *)
Definition store0 : Store := mk_Store ∅ [] [] [] [].

Definition after (chars : list character) (s : Store) : Store :=
  (@load_glyphs freetype arial12 chars s).2.

(** The number of kerning entries over the glyphs of the dict. *)
Definition kerning_entries (s : Store) : nat :=
  sum_list ((λ item : character * ref,
               from_option (λ g, size (g_kerning g)) 0%nat (glyph_objs s !! item.2))
            <$> glyphs_dict s).

End demo.


(** ** Vocabulary of the further properties *)

(** The calls to the resolver and the [Face] constructions of a trace. *)
Definition is_find_font (ev : Event) : bool :=
  match ev with
  | EvFindFont _ _ _ _ => true
  | _ => false
  end.

Definition is_new_face (ev : Event) : bool :=
  match ev with
  | EvNewFace _ => true
  | _ => false
  end.

Definition count_events (p : Event → bool) (tr : list Event) : nat :=
  length (filter (λ ev, p ev = true) tr).

(** The font cache names only faces that are on the heap, and no two keys
    name the same face. *)
Definition wf_fonts (s : Store) : Prop :=
  (∀ k r, _font_dict s !! k = Some r → (r < length (faces s))%nat)
  ∧ (∀ k1 k2 r, _font_dict s !! k1 = Some r → _font_dict s !! k2 = Some r → k1 = k2).

(** The file of the face the cache holds for the descriptor [f]. *)
Definition font_file (f : FontDesc) (s : Store) : option string :=
  r ← _font_dict s !! font_key (f_face f) (f_size f) (f_bold f) (f_italic f);
  o ← faces s !! r;
  Some (fname o).

(** Every kerning entry of every glyph of the dict is the converted
    kerning [K] gives for the entry's key followed by the glyph's
    character. *)
Definition kerning_correct (K : character → character → Z) (s : Store) : Prop :=
  ∀ c r g a v,
    (c, r) ∈ glyphs_dict s → glyph_objs s !! r = Some g →
    g_kerning g !! a = Some v → v = div64 (K a c).

(** The number of dashes of a string. *)
Fixpoint count_dash (s : string) : nat :=
  match s with
  | EmptyString => 0%nat
  | String c s' => ((if decide (String c "" = "-") then 1 else 0) + count_dash s')%nat
  end.

(** A rasterizer for the failing reshape: every slot reports two rows
    for a buffer of three samples. *)
Module ragged.

Definition freetype : FreeType := {|
  FT_LOAD_RENDER := 4;
  FT_LOAD_NO_HINTING := 2;
  FT_LOAD_NO_AUTOHINT := 32768;
  find_font face size bold italic := Some "/usr/share/fonts/ragged.ttf";
  FT_New_Face fname := true;
  FT_Load_Char fname size c flags :=
    Some (mk_FT_GlyphSlot (mk_FT_Bitmap 2 1 [255; 255; 255]) 0 0 64);
  FT_Get_Kerning fname size left right := 0
|}.

End ragged.

(** * Properties *)

(** ** The bitmap *)

Section Bitmap.

Lemma chunks_length n w l : length (np.chunks n w l) = n.
Proof. revert l; induction n as [|n IH]; intros l; simpl; [done|]. by rewrite IH. Qed.

Lemma chunks_lookup n w l (i : nat) :
  (i < n)%nat → np.chunks n w l !! i = Some (take w (drop (i * w) l)).
Proof.
  revert l i; induction n as [|n IH]; intros l i Hi; [lia|].
  destruct i as [|i]; simpl; [done|].
  rewrite IH by lia. by rewrite drop_drop.
Qed.

Lemma chunks_fmap (f : Z → Z) n w (l : list Z) :
  np.chunks n w (f <$> l) = fmap (M:=list) f <$> np.chunks n w l.
Proof.
  revert l; induction n as [|n IH]; intros l; simpl; [done|].
  by rewrite fmap_take, <- fmap_drop, IH.
Qed.

Lemma chunks_concat n w (rs : list (list Z)) :
  length rs = n → Forall (λ r, length r = w) rs →
  np.chunks n w (concat rs) = rs.
Proof.
  revert rs; induction n as [|n IH]; intros [|r rs] Hn Hrs; simpl in *; try done.
  inversion Hrs as [|?? Hr Hrs']; subst.
  rewrite take_app_length, drop_app_length. f_equal. apply IH; [lia|done].
Qed.

Lemma chunks_Forall_length n w (l : list Z) :
  (n * w ≤ length l)%nat → Forall (λ r, length r = w) (np.chunks n w l).
Proof.
  revert l; induction n as [|n IH]; intros l Hl; simpl; constructor.
  - rewrite length_take. lia.
  - apply IH. rewrite length_drop. lia.
Qed.

Lemma make_bitmap_unfold (buffer : list Z) (width height stride : Z) :
  0 < height → 0 ≤ width → width ≤ stride →
  Z.of_nat (length buffer) = height * stride →
  make_bitmap buffer width height
  = Ok (np.mk_ndarray height width
          ((λ v, v `mod` 256) <$>
             concat (take (Z.to_nat width) <$>
                       np.chunks (Z.to_nat height) (Z.to_nat stride) buffer))).
Proof.
  intros Hh Hw Hws Hlen. unfold make_bitmap.
  assert (0 ≤ stride) by lia.
  assert ((if decide (0 < Z.of_nat (length buffer))
           then np.floordiv (Z.of_nat (length buffer)) height else Ok 0)
          = Ok stride) as ->.
  { case_decide.
    - unfold np.floordiv. rewrite decide_False by lia.
      f_equal. rewrite Hlen. rewrite Z.mul_comm. apply Z.div_mul. lia.
    - f_equal. nia. }
  simpl. unfold np.set_shape. rewrite decide_True by lia. simpl.
  unfold np.astype_ubyte, np.slice_cols, np.rows_of, np.slice_stop; simpl.
  rewrite decide_False by lia. by rewrite Z.min_l by lia.
Qed.

(** A native buffer of [height] rows of [stride] samples, with [stride]
    at least the logical [width], becomes [height] rows of exactly [width]
    samples: row [i] is the first [width] samples of native row [i], the
    padding beyond them is gone, and every sample is an unsigned byte. *)
Lemma make_bitmap_shape (buffer : list Z) (width height stride : Z) :
  0 ≤ height → 0 ≤ width → width ≤ stride →
  Z.of_nat (length buffer) = height * stride →
  ∃ a, make_bitmap buffer width height = Ok a
     ∧ np.nrows a = height
     ∧ length (np.rows_of a) = Z.to_nat height
     ∧ Forall (λ r, length r = Z.to_nat width) (np.rows_of a)
     ∧ (∀ (i : nat) r, np.rows_of a !! i = Some r →
          r = (λ v, v `mod` 256) <$>
                take (Z.to_nat width) (drop (i * Z.to_nat stride) buffer))
     ∧ np.data a = concat (np.rows_of a)
     ∧ Forall (λ v, 0 ≤ v < 256) (np.data a).
Proof.
  intros Hh Hw Hws Hlen.
  destruct (decide (height = 0)) as [->|Hh0].
  { destruct buffer; [|simpl in Hlen; lia].
    exists (np.mk_ndarray 0 0 []). unfold make_bitmap; simpl.
    unfold np.astype_ubyte, np.slice_cols, np.rows_of, np.slice_stop; simpl.
    rewrite decide_False by lia. rewrite Z.min_r by lia. simpl.
    repeat split; try done. }
  rewrite (make_bitmap_unfold buffer width height stride) by (done || lia).
  eexists; split; [done|]. unfold np.rows_of; simpl.
  set (hn := Z.to_nat height). set (wn := Z.to_nat width).
  set (sn := Z.to_nat stride).
  assert (hn * sn ≤ length buffer)%nat as Hfit.
  { subst hn sn. rewrite <- Z2Nat.inj_mul by lia. rewrite <- Hlen. lia. }
  assert (wn ≤ sn)%nat as Hwn by (subst wn sn; lia).
  assert (Forall (λ r, length r = wn) (take wn <$> np.chunks hn sn buffer)) as Hrows.
  { apply Forall_fmap. eapply Forall_impl; [by apply chunks_Forall_length|].
    intros r Hr; simpl in *. rewrite length_take. lia. }
  assert (np.chunks hn wn
            ((λ v, v `mod` 256) <$> concat (take wn <$> np.chunks hn sn buffer))
          = fmap (M:=list) (λ v, v `mod` 256) <$> (take wn <$> np.chunks hn sn buffer))
    as Heq.
  { rewrite chunks_fmap. f_equal. apply chunks_concat; [|done].
    by rewrite length_fmap, chunks_length. }
  rewrite Heq. repeat split.
  - by rewrite !length_fmap, chunks_length.
  - apply Forall_fmap. eapply Forall_impl; [exact Hrows|].
    intros r Hr; simpl. by rewrite length_fmap.
  - intros i r Hi. rewrite !list_lookup_fmap in Hi.
    destruct (decide (i < hn)%nat) as [Hlt|Hge].
    + rewrite chunks_lookup in Hi by done. simpl in Hi.
      injection Hi as <-. f_equal.
      rewrite take_take. f_equal. lia.
    + rewrite lookup_ge_None_2 in Hi; [done|]. rewrite chunks_length. lia.
  - clear. generalize (take wn <$> np.chunks hn sn buffer) as rs.
    induction rs as [|r rs IH]; simpl; [done|]. by rewrite fmap_app, IH.
  - apply Forall_fmap, Forall_true. intros v; simpl.
    apply Z.mod_pos_bound. lia.
Qed.

(** No rows and an empty buffer give an array with no rows, whatever the
    width. *)
Lemma make_bitmap_no_rows (width : Z) :
  ∃ a, make_bitmap [] width 0 = Ok a
     ∧ np.nrows a = 0 ∧ np.rows_of a = [] ∧ np.data a = [].
Proof. unfold make_bitmap; simpl. eexists; split; [done|]. done. Qed.

(** [//] is reached only on a non-empty buffer. *)
Lemma make_bitmap_div_guard (buffer : list Z) (w h : Z) :
  make_bitmap buffer w h = Raise ZeroDivisionError → buffer ≠ [] ∧ h = 0.
Proof.
  unfold make_bitmap. case_decide as Hsz.
  - unfold np.floordiv. case_decide as Hh0.
    + intros _. split; [|done]. by destruct buffer.
    + simpl. unfold np.set_shape. case_decide; simpl; discriminate.
  - simpl. unfold np.set_shape. case_decide; simpl; discriminate.
Qed.

(** A bitmap was made only of a non-negative number of rows. *)
Lemma make_bitmap_Ok_rows (buffer : list Z) (w h : Z) a :
  make_bitmap buffer w h = Ok a → 0 ≤ h.
Proof.
  unfold make_bitmap, np.floordiv, np.set_shape.
  repeat (case_decide; simpl); try discriminate; intros _; lia.
Qed.

End Bitmap.

(** ** Statements *)

Lemma bind_Ok_inv {A B} (m : Py A) (k : A → Py B) s b s' :
  (m ≫= k) s = (Ok b, s') →
  ∃ a s1, m s = (Ok a, s1) ∧ k a s1 = (Ok b, s').
Proof.
  unfold mbind, Py_bind. destruct (m s) as [[a|e] s1]; [eauto|discriminate].
Qed.

Lemma bind_Raise_inv {A B} (m : Py A) (k : A → Py B) s e s' :
  (m ≫= k) s = (Raise e, s') →
  m s = (Raise e, s') ∨ ∃ a s1, m s = (Ok a, s1) ∧ k a s1 = (Raise e, s').
Proof.
  unfold mbind, Py_bind. destruct (m s) as [[a|e1] s1]; [eauto|].
  intros [= -> ->]. by left.
Qed.

Lemma bind_Ok {A B} (m : Py A) (k : A → Py B) s a s1 :
  m s = (Ok a, s1) → (m ≫= k) s = k a s1.
Proof. unfold mbind, Py_bind. by intros ->. Qed.

Lemma bind_Raise {A B} (m : Py A) (k : A → Py B) s e s1 :
  m s = (Raise e, s1) → (m ≫= k) s = (Raise e, s1).
Proof. unfold mbind, Py_bind. by intros ->. Qed.

(** ** The font cache *)

Section Cache.
Context `{FreeType}.

Lemma _load_font_hit face size bold italic s font :
  _font_dict s !! font_key face size bold italic = Some font →
  _load_font face size bold italic s = (Ok font, s).
Proof. intros Hhit. unfold _load_font, mbind, Py_bind, gets; simpl. by rewrite Hhit. Qed.

Lemma _load_font_miss face size bold italic s :
  _font_dict s !! font_key face size bold italic = None →
  _load_font face size bold italic s = _load_font_on_miss face size bold italic s.
Proof.
  intros Hmiss.
  unfold _load_font, _load_font_on_miss, Face_new, mbind, Py_bind, gets, modify, lift, raise.
  simpl. rewrite Hmiss.
  destruct (find_font face size bold italic) as [fname|]; simpl; [|done].
  destruct (FT_New_Face fname); simpl; done.
Qed.

Lemma _load_font_cases face size bold italic s :
  (∃ font, _font_dict s !! font_key face size bold italic = Some font
         ∧ _load_font face size bold italic s = (Ok font, s))
  ∨ (_font_dict s !! font_key face size bold italic = None
     ∧ _load_font face size bold italic s
       = _load_font_on_miss face size bold italic s).
Proof.
  destruct (_font_dict s !! font_key face size bold italic) as [font|] eqn:Hk.
  - left. exists font. split; [done|]. by apply _load_font_hit.
  - right. split; [done|]. by apply _load_font_miss.
Qed.

(** [_load_font] never touches the glyph records or the glyphs dict. *)
Lemma _load_font_frame face size bold italic s r s' :
  _load_font face size bold italic s = (r, s') →
  glyph_objs s' = glyph_objs s ∧ glyphs_dict s' = glyphs_dict s.
Proof.
  destruct (_load_font_cases face size bold italic s) as [(font & _ & ->)|[_ ->]].
  - by intros [= _ <-].
  - unfold _load_font_on_miss.
    destruct (find_font face size bold italic) as [fname|];
      [destruct (FT_New_Face fname)|]; by intros [= _ <-].
Qed.

(** A call that raises leaves the cache and the heap of faces as they
    were. *)
Lemma _load_font_Raise face size bold italic s e s' :
  _load_font face size bold italic s = (Raise e, s') →
  _font_dict s' = _font_dict s ∧ faces s' = faces s.
Proof.
  destruct (_load_font_cases face size bold italic s) as [(font & _ & ->)|[_ ->]];
    [discriminate|].
  unfold _load_font_on_miss.
  destruct (find_font face size bold italic) as [fname|];
    [destruct (FT_New_Face fname)|]; [discriminate| |]; by intros [= _ <-].
Qed.

Lemma _load_font_Ok_cached face size bold italic s font s1 :
  _load_font face size bold italic s = (Ok font, s1) →
  _font_dict s1 !! font_key face size bold italic = Some font.
Proof.
  intros Hrun.
  destruct (_load_font_cases face size bold italic s) as [(r & Hk & Heq)|[Hk Heq]];
    rewrite Heq in Hrun.
  - by injection Hrun as <- <-.
  - unfold _load_font_on_miss in Hrun.
    destruct (find_font face size bold italic) as [fname|]; [|discriminate].
    destruct (FT_New_Face fname); [|discriminate].
    injection Hrun as <- <-. simpl. apply lookup_insert_eq.
Qed.

(** C4.  A second lookup of the same key returns the same [Face] object
    and leaves the whole store as it was: the resolver is not asked again
    and no second face is constructed, so the trace and the heap of faces
    are the ones the first call left. *)
Theorem cache_identity face size bold italic s font s1 :
  _load_font face size bold italic s = (Ok font, s1) →
  ∃ s2, _load_font face size bold italic s1 = (Ok font, s2)
      ∧ s2 = s1
      ∧ trace s2 = trace s1
      ∧ faces s2 = faces s1
      ∧ _font_dict s2 = _font_dict s1.
Proof.
  intros Hfirst. exists s1. split; [|done].
  apply _load_font_hit. by eapply _load_font_Ok_cached.
Qed.

(** C7.  When the key is not cached and the resolver finds no file, the
    call raises what the resolver raised, and the cache is the one the call
    found: it has no entry for the key, and no face was constructed. *)
Theorem failed_resolution_commits_nothing face size bold italic s :
  _font_dict s !! font_key face size bold italic = None →
  find_font face size bold italic = None →
  ∃ s', _load_font face size bold italic s = (Raise FontNotFoundError, s')
      ∧ _font_dict s' = _font_dict s
      ∧ _font_dict s' !! font_key face size bold italic = None
      ∧ faces s' = faces s
      ∧ Forall (λ ev, ∀ fname, ev ≠ EvNewFace fname) (drop (length (trace s)) (trace s')).
Proof.
  intros Hmiss Hnone. rewrite _load_font_miss by done.
  unfold _load_font_on_miss. rewrite Hnone.
  eexists; split; [done|]. simpl. repeat split; try done.
  rewrite drop_app_length. by repeat constructor.
Qed.

End Cache.

(** ** Dicts in insertion order *)

Section Dict.
Context {V : Type}.
Implicit Types (d : list (character * V)) (k c : character) (v : V).

Lemma dict_get_set_eq c v d : dict_get c (dict_set c v d) = Some v.
Proof.
  induction d as [|[k' v'] d IH]; simpl.
  - by rewrite decide_True.
  - case_decide; simpl; [by rewrite decide_True|by rewrite decide_False].
Qed.

Lemma dict_get_set_ne c k v d : c ≠ k → dict_get k (dict_set c v d) = dict_get k d.
Proof.
  intros Hne. induction d as [|[k' v'] d IH]; simpl.
  - by rewrite decide_False.
  - case_decide as Hk'; simpl.
    + subst k'. by rewrite !decide_False.
    + by rewrite IH.
Qed.

Lemma dict_get_elem_of k v d : dict_get k d = Some v → (k, v) ∈ d.
Proof.
  induction d as [|[k' v'] d IH]; simpl; [done|].
  case_decide as Hk'.
  - intros [= ->]. subst. left.
  - intros Hd. right. auto.
Qed.

Lemma dict_get_is_Some k d : k ∈ d.*1 → is_Some (dict_get k d).
Proof.
  induction d as [|[k' v'] d IH]; simpl.
  - by intros ?%elem_of_nil.
  - intros [->|Hin]%elem_of_cons.
    + rewrite decide_True by done. eauto.
    + case_decide; eauto.
Qed.

Lemma elem_of_dict_get k v d : NoDup d.*1 → (k, v) ∈ d → dict_get k d = Some v.
Proof.
  induction d as [|[k' v'] d IH]; simpl.
  - by intros _ ?%elem_of_nil.
  - intros [Hk' Hnd]%NoDup_cons [[= -> ->]|Hin]%elem_of_cons.
    + by rewrite decide_True.
    + rewrite decide_False; [auto|].
      intros ->. apply Hk'. apply list_elem_of_fmap. by exists (k, v).
Qed.

Lemma dict_set_elem_of c v d : (c, v) ∈ dict_set c v d.
Proof.
  induction d as [|[k' v'] d IH]; simpl.
  - left.
  - case_decide; [left|by right].
Qed.

Lemma elem_of_dict_set c v d k v' :
  (k, v') ∈ dict_set c v d → (k = c ∧ v' = v) ∨ (k, v') ∈ d.
Proof.
  induction d as [|[k1 v1] d IH]; simpl.
  - intros [[= -> ->]|[]%elem_of_nil]%elem_of_cons. by left.
  - case_decide.
    + intros [[= -> ->]|Hin]%elem_of_cons; [by left|]. right. by right.
    + intros [[= -> ->]|Hin]%elem_of_cons; [right; left|].
      destruct (IH Hin) as [?|?]; [by left|]. right. by right.
Qed.

Lemma dict_set_elem_of_ne c v d k v' :
  k ≠ c → (k, v') ∈ d → (k, v') ∈ dict_set c v d.
Proof.
  intros Hne. induction d as [|[k1 v1] d IH]; simpl.
  - by intros ?%elem_of_nil.
  - intros [[= <- <-]|Hin]%elem_of_cons.
    + rewrite decide_False by done. left.
    + case_decide; right; auto.
Qed.

Lemma NoDup_snd_inj d k1 k2 v : NoDup d.*2 → (k1, v) ∈ d → (k2, v) ∈ d → k1 = k2.
Proof.
  induction d as [|[k' v'] d IH]; csimpl.
  - by intros _ ?%elem_of_nil.
  - intros [Hv' Hnd]%NoDup_cons Hin1 Hin2.
    assert (∀ k, (k, v') ∈ d → False) as Hfresh.
    { intros k Hin. apply Hv'. apply list_elem_of_fmap. by exists (k, v'). }
    apply elem_of_cons in Hin1 as [[= -> ->]|Hin1];
      apply elem_of_cons in Hin2 as [[= ?]|Hin2]; subst.
    + done.
    + by destruct (Hfresh k2).
    + by destruct (Hfresh k1).
    + by apply IH.
Qed.

Lemma dict_set_keys_new c v d : c ∉ d.*1 → (dict_set c v d).*1 = d.*1 ++ [c].
Proof.
  induction d as [|[k1 v1] d IH]; csimpl; [done|].
  intros [Hne Hnin]%not_elem_of_cons.
  rewrite decide_False by done. csimpl. by rewrite IH.
Qed.

Lemma dict_set_keys_old c v d : c ∈ d.*1 → (dict_set c v d).*1 = d.*1.
Proof.
  induction d as [|[k1 v1] d IH]; csimpl.
  - by intros ?%elem_of_nil.
  - intros Hin. case_decide as Hk; csimpl; [by subst|].
    f_equal. apply IH. apply elem_of_cons in Hin as [->|Hin]; done.
Qed.

Lemma dict_set_keys_elem_of c v d k :
  k ∈ (dict_set c v d).*1 ↔ k = c ∨ k ∈ d.*1.
Proof.
  destruct (decide (c ∈ d.*1)) as [Hin|Hnin].
  - rewrite dict_set_keys_old by done. split; [auto|]. by intros [->|?].
  - rewrite dict_set_keys_new by done. rewrite elem_of_app, list_elem_of_singleton.
    tauto.
Qed.

Lemma dict_set_keys_NoDup c v d : NoDup d.*1 → NoDup (dict_set c v d).*1.
Proof.
  intros Hnd. destruct (decide (c ∈ d.*1)) as [Hin|Hnin].
  - by rewrite dict_set_keys_old.
  - rewrite dict_set_keys_new by done. apply NoDup_app. split; [done|].
    split; [|apply NoDup_singleton].
    intros k Hk ->%list_elem_of_singleton. done.
Qed.

Lemma dict_set_vals_elem_of c v d v' :
  v' ∈ (dict_set c v d).*2 → v' = v ∨ v' ∈ d.*2.
Proof.
  intros ([k v''] & -> & Hin)%list_elem_of_fmap. csimpl.
  apply elem_of_dict_set in Hin as [[_ ->]|Hin]; [by left|].
  right. apply list_elem_of_fmap. by exists (k, v'').
Qed.

Lemma dict_set_vals_NoDup c v d : v ∉ d.*2 → NoDup d.*2 → NoDup (dict_set c v d).*2.
Proof.
  induction d as [|[k1 v1] d IH]; csimpl.
  - intros _ _. apply NoDup_singleton.
  - intros [Hne Hnin]%not_elem_of_cons [Hv1 Hnd]%NoDup_cons.
    case_decide; csimpl; apply NoDup_cons.
    + done.
    + split; [|by apply IH].
      intros [->|?]%dict_set_vals_elem_of; done.
Qed.

End Dict.

(** ** Kerning stores *)

Section Stores.
Implicit Types (h : list Glyph) (ws : list (ref * character * Q)).
Implicit Types (r g : ref) (k : character) (init : option Q).

Lemma entry_after_cons r k init w ws :
  entry_after r k init (w :: ws)
  = entry_after r k (if decide (w.1.1 = r ∧ w.1.2 = k) then Some w.2 else init) ws.
Proof. done. Qed.

Lemma entry_after_untouched r k init ws :
  (∀ v, (r, k, v) ∉ ws) → entry_after r k init ws = init.
Proof.
  revert init; induction ws as [|[[g k1] v] ws IH]; intros init Hnone; [done|].
  rewrite entry_after_cons; simpl. rewrite decide_False.
  - apply IH. intros v' Hin. apply (Hnone v'). by right.
  - intros [-> ->]. apply (Hnone v). left.
Qed.

Lemma entry_after_agree r k init ws v :
  (∀ v', (r, k, v') ∈ ws → v' = v) →
  init = Some v ∨ (r, k, v) ∈ ws →
  entry_after r k init ws = Some v.
Proof.
  revert init; induction ws as [|[[g k1] v1] ws IH]; intros init Hall Hsome.
  - destruct Hsome as [->|[]%elem_of_nil]. done.
  - rewrite entry_after_cons; simpl. apply IH.
    + intros v' Hin. apply Hall. by right.
    + case_decide as Hhit.
      * destruct Hhit as [-> ->]. left. f_equal. apply Hall. left.
      * destruct Hsome as [->|[[= -> -> ->]|Hin]%elem_of_cons]; [by left| |by right].
        by destruct Hhit.
Qed.

Lemma entry_after_is_Some r k init ws :
  is_Some (entry_after r k init ws) ↔ is_Some init ∨ ∃ v, (r, k, v) ∈ ws.
Proof.
  revert init; induction ws as [|[[g k1] v1] ws IH]; intros init.
  - simpl. split; [by left|]. intros [?|[v []%elem_of_nil]]. done.
  - rewrite entry_after_cons, IH; simpl. split.
    + intros [Hinit|[v Hin]].
      * case_decide as Hhit; [|by left].
        destruct Hhit as [-> ->]. right. exists v1. left.
      * right. exists v. by right.
    + intros [Hinit|[v [[= -> -> ->]|Hin]%elem_of_cons]].
      * left. case_decide; [eauto|done].
      * left. rewrite decide_True by done. eauto.
      * right. eauto.
Qed.

Lemma apply_stores_length h ws : length (foldl apply_store h ws) = length h.
Proof.
  revert h; induction ws as [|[[g k] v] ws IH]; intros h; simpl; [done|].
  rewrite IH. apply length_alter.
Qed.

(** A glyph record keeps everything but its kerning dict through a list
    of stores, and each kerning entry is what [entry_after] says. *)
Lemma apply_stores_lookup ws h r o :
  h !! r = Some o →
  ∃ o', foldl apply_store h ws !! r = Some o'
      ∧ g_char o' = g_char o ∧ g_offset o' = g_offset o
      ∧ g_bitmap o' = g_bitmap o ∧ g_advance o' = g_advance o
      ∧ ∀ k, g_kerning o' !! k = entry_after r k (g_kerning o !! k) ws.
Proof.
  revert h o; induction ws as [|[[g k1] v] ws IH]; intros h o Hr.
  - exists o. done.
  - destruct (decide (g = r)) as [->|Hne].
    + destruct (IH (apply_store h (r, k1, v)) (put_kerning k1 v o))
        as (o' & Ho' & ? & ? & ? & ? & Hk).
      { unfold apply_store. by rewrite list_lookup_alter_eq, Hr. }
      exists o'. repeat split; try done.
      intros k. rewrite Hk, (entry_after_cons r k (g_kerning o !! k)).
      f_equal. simpl.
      rewrite lookup_insert. destruct (decide (k1 = k)) as [->|Hk1].
      * by rewrite decide_True.
      * rewrite decide_False; [done|]. by intros [_ ?].
    + destruct (IH (apply_store h (g, k1, v)) o)
        as (o' & Ho' & ? & ? & ? & ? & Hk).
      { unfold apply_store. by rewrite list_lookup_alter_ne. }
      exists o'. repeat split; try done.
      intros k. rewrite Hk, (entry_after_cons r k (g_kerning o !! k)).
      f_equal. simpl.
      rewrite decide_False; [done|]. by intros [? _].
Qed.

Lemma count_stores_app r k (t1 t2 : list Event) :
  count_stores r k (t1 ++ t2) = (count_stores r k t1 + count_stores r k t2)%nat.
Proof. unfold count_stores. by rewrite filter_app, length_app. Qed.

Lemma count_stores_other r k (ev : Event) :
  (∀ g k' v, ev ≠ EvKernStore g k' v) → count_stores r k [ev] = 0%nat.
Proof. intros Hev. destruct ev; try done. by destruct (Hev g key v). Qed.

Lemma count_stores_cons_store r k g k' v (tr : list Event) :
  count_stores r k (EvKernStore g k' v :: tr)
  = ((if decide (g = r ∧ k' = k) then 1 else 0) + count_stores r k tr)%nat.
Proof.
  unfold count_stores. rewrite filter_cons.
  destruct (decide (g = r ∧ k' = k)) as [Hhit|Hhit].
  - rewrite decide_True; [done|]. simpl. by apply bool_decide_eq_true.
  - rewrite decide_False; [done|]. simpl. by rewrite bool_decide_eq_true.
Qed.

(** The stores of one sweep under key [k] of glyph [r]: one for each item
    with key [k] when [r] is the new glyph, and one for each item bound to
    [r] when [k] is the new character. *)
Lemma count_stores_sweep K c glyph (items : list (character * ref)) r k :
  count_stores r k (ev_store <$> sweep_stores K c glyph items)
  = ((if decide (glyph = r) then length (filter (λ o, o = k) items.*1) else 0)
     + (if decide (c = k) then length (filter (λ o, o = r) items.*2) else 0))%nat.
Proof.
  induction items as [|[o og] items IH]; csimpl.
  - by repeat case_decide.
  - rewrite !count_stores_cons_store. fold (sweep_stores K c glyph items).
    rewrite IH. rewrite !filter_cons.
    repeat case_decide; simpl; try lia; exfalso; intuition congruence.
Qed.

Lemma NoDup_count_eq {A} `{EqDecision A} (l : list A) (x : A) :
  NoDup l → length (filter (λ y, y = x) l) = if decide (x ∈ l) then 1%nat else 0%nat.
Proof.
  induction l as [|y l IH]; intros Hnd.
  - by rewrite decide_False by apply not_elem_of_nil.
  - apply NoDup_cons in Hnd as [Hy Hnd]. rewrite filter_cons.
    destruct (decide (y = x)) as [->|Hne]; simpl; rewrite (IH Hnd).
    + rewrite (decide_False (P := x ∈ l)) by done.
      rewrite decide_True by left. done.
    + destruct (decide (x ∈ l)) as [Hin|Hnin].
      * rewrite decide_True by (by right). done.
      * rewrite decide_False; [done|].
        intros [->|?]%elem_of_cons; done.
Qed.

End Stores.

(** ** The kerning sweep *)

Section Sweep.
Context `{FreeType}.

(** [_load_font] stores nothing into a kerning dict. *)
Lemma _load_font_count face size bold italic s r s' g k :
  _load_font face size bold italic s = (r, s') →
  count_stores g k (trace s') = count_stores g k (trace s).
Proof.
  destruct (_load_font_cases face size bold italic s) as [(font & _ & ->)|[_ ->]].
  - by intros [= _ <-].
  - unfold _load_font_on_miss.
    destruct (find_font face size bold italic) as [fname|];
      [destruct (FT_New_Face fname)|]; intros [= _ <-]; simpl;
      rewrite !count_stores_app, !count_stores_other by done; lia.
Qed.

Lemma swept_app ws1 ws2 s : swept (ws1 ++ ws2) s = swept ws2 (swept ws1 s).
Proof. unfold swept; simpl. by rewrite foldl_app, fmap_app, app_assoc. Qed.

Lemma swept_nil s : swept [] s = s.
Proof. destruct s. unfold swept; simpl. by rewrite app_nil_r. Qed.

Lemma kerning_setitem_valid g k v s :
  (g < length (glyph_objs s))%nat →
  kerning_setitem g k v s = (Ok (), swept [(g, k, v)] s).
Proof.
  intros [o Ho]%lookup_lt_is_Some_2.
  unfold kerning_setitem, deref_glyph, mbind, Py_bind, modify.
  rewrite Ho; simpl. unfold swept, set_glyph_objs, emit; simpl.
  do 2 f_equal. rewrite list_insert_alter. apply list_alter_ext; [|done].
  intros x Hx. congruence.
Qed.

Lemma kerning_setitem_Ok_inv g k v s s' :
  kerning_setitem g k v s = (Ok (), s') → (g < length (glyph_objs s))%nat.
Proof.
  unfold kerning_setitem, deref_glyph, mbind, Py_bind.
  destruct (glyph_objs s !! g) as [o|] eqn:Ho; simpl; [|discriminate].
  intros _. by eapply lookup_lt_Some.
Qed.

Lemma get_kerning_x_valid face left right s o :
  faces s !! face = Some o →
  get_kerning_x face left right s
  = (Ok (FT_Get_Kerning (fname o) (char_size o) left right), s).
Proof. intros Ho. unfold get_kerning_x, deref_face, mbind, Py_bind. by rewrite Ho. Qed.

Lemma get_kerning_x_state face left right s r s' :
  get_kerning_x face left right s = (r, s') → s' = s.
Proof.
  unfold get_kerning_x, deref_face, mbind, Py_bind.
  destruct (faces s !! face); simpl; by intros [= _ <-].
Qed.

Lemma kern_pair_valid face char glyph item s o :
  faces s !! face = Some o →
  (glyph < length (glyph_objs s))%nat →
  (item.2 < length (glyph_objs s))%nat →
  kern_pair face char glyph item s
  = (Ok (), swept (sweep_stores (FT_Get_Kerning (fname o) (char_size o))
                                char glyph [item]) s).
Proof.
  intros Ho Hg Hitem. destruct item as [other_char other_glyph]. unfold kern_pair.
  rewrite (bind_Ok _ _ _ _ _ (get_kerning_x_valid _ _ _ _ _ Ho)).
  rewrite (bind_Ok _ _ _ _ _ (kerning_setitem_valid _ _ _ _ Hg)).
  erewrite bind_Ok; [|by apply get_kerning_x_valid].
  rewrite kerning_setitem_valid by (simpl; by rewrite length_alter).
  by rewrite <- swept_app.
Qed.

Lemma kern_pair_Ok_inv face char glyph item s s' :
  kern_pair face char glyph item s = (Ok (), s') →
  (glyph < length (glyph_objs s))%nat ∧ (item.2 < length (glyph_objs s))%nat.
Proof.
  destruct item as [other_char other_glyph]. unfold kern_pair.
  intros (k1 & s1 & Hk1 & Hrest)%bind_Ok_inv.
  apply bind_Ok_inv in Hrest as ([] & s2 & Hset1 & Hrest).
  apply bind_Ok_inv in Hrest as (k2 & s3 & Hk2 & Hset2).
  apply get_kerning_x_state in Hk1 as ->.
  apply get_kerning_x_state in Hk2 as ->.
  pose proof (kerning_setitem_Ok_inv _ _ _ _ _ Hset1) as Hg.
  pose proof (kerning_setitem_Ok_inv _ _ _ _ _ Hset2) as Hog.
  rewrite kerning_setitem_valid in Hset1 by done. injection Hset1 as <-.
  simpl in Hog. by rewrite length_alter in Hog.
Qed.

Lemma sweep_stores_cons K char glyph item items :
  sweep_stores K char glyph (item :: items)
  = sweep_stores K char glyph [item] ++ sweep_stores K char glyph items.
Proof. unfold sweep_stores. csimpl. by rewrite app_nil_r. Qed.

(** The loop, when every reference it follows names an object. *)
Lemma sweep_valid face char glyph items s o :
  faces s !! face = Some o →
  (glyph < length (glyph_objs s))%nat →
  Forall (λ r, (r < length (glyph_objs s))%nat) items.*2 →
  for_each (kern_pair face char glyph) items s
  = (Ok (), swept (sweep_stores (FT_Get_Kerning (fname o) (char_size o))
                                char glyph items) s).
Proof.
  revert s; induction items as [|item items IH]; intros s Ho Hg Hitems.
  - by rewrite swept_nil.
  - rewrite fmap_cons in Hitems. apply Forall_cons in Hitems as [Hitem Hitems].
    rewrite sweep_stores_cons, swept_app. cbn [for_each].
    rewrite (bind_Ok _ _ _ _ _ (kern_pair_valid _ _ _ _ _ _ Ho Hg Hitem)).
    apply IH; unfold swept; cbn [glyph_objs faces];
      rewrite ?apply_stores_length; done.
Qed.

(** A loop that completes followed only references that name objects. *)
Lemma sweep_Ok_inv face char glyph items s s' :
  for_each (kern_pair face char glyph) items s = (Ok (), s') →
  Forall (λ r, (r < length (glyph_objs s))%nat) items.*2.
Proof.
  revert s; induction items as [|item items IH]; intros s Hrun; [constructor|].
  simpl in Hrun. apply bind_Ok_inv in Hrun as ([] & s1 & Hpair & Hrest).
  pose proof (kern_pair_Ok_inv _ _ _ _ _ _ Hpair) as [Hg Hitem].
  rewrite fmap_cons. constructor; [done|].
  assert (length (glyph_objs s1) = length (glyph_objs s)) as <-; [|by apply IH].
  destruct (faces s !! face) as [o|] eqn:Ho.
  - rewrite (kern_pair_valid _ _ _ _ _ _ Ho Hg Hitem) in Hpair.
    injection Hpair as <-. unfold swept; cbn [glyph_objs].
    apply apply_stores_length.
  - revert Hpair. destruct item. unfold kern_pair, get_kerning_x, deref_face, mbind, Py_bind.
    rewrite Ho. discriminate.
Qed.

Lemma elem_of_sweep_stores K char glyph items r k v :
  (r, k, v) ∈ sweep_stores K char glyph items ↔
  ∃ other_char other_glyph, (other_char, other_glyph) ∈ items
    ∧ ((r = glyph ∧ k = other_char ∧ v = div64 (K other_char char))
       ∨ (r = other_glyph ∧ k = char ∧ v = div64 (K char other_char))).
Proof.
  unfold sweep_stores. rewrite list_elem_of_bind. split.
  - intros ([o og] & Hin & Hitem). exists o, og. split; [done|].
    apply elem_of_cons in Hin as [[= -> -> ->]|Hin]; [by left|].
    apply list_elem_of_singleton in Hin as [= -> -> ->]. by right.
  - intros (o & og & Hitem & [(-> & -> & ->)|(-> & -> & ->)]);
      exists (o, og); (split; [|done]).
    + left.
    + right. left.
Qed.

(** After the sweep the new glyph record has, under every key of the dict,
    the kerning of that key followed by the new character. *)
Lemma sweep_new_entry K char d (h : list Glyph) g0 other_char :
  Forall (λ r, (r < length h)%nat) d.*2 →
  other_char ∈ (dict_set char (length h) d).*1 →
  ∃ g, foldl apply_store (h ++ [g0])
         (sweep_stores K char (length h) (dict_set char (length h) d)) !! length h
       = Some g
     ∧ g_char g = g_char g0
     ∧ g_kerning g !! other_char = Some (div64 (K other_char char)).
Proof.
  intros Hvalid Hkey.
  assert ((h ++ [g0]) !! length h = Some g0) as Hg0 by apply list_lookup_middle, eq_refl.
  destruct (apply_stores_lookup
              (sweep_stores K char (length h) (dict_set char (length h) d)) _ _ _ Hg0)
    as (g & Hg & Hchar & _ & _ & _ & Hk).
  exists g. split; [done|]. split; [done|].
  rewrite Hk. apply entry_after_agree.
  - intros v' (o & og & Hitem & [(_ & -> & ->)|(Hog & -> & ->)])%elem_of_sweep_stores;
      [done|].
    subst og. apply elem_of_dict_set in Hitem as [[-> _]|Hitem]; [done|].
    rewrite Forall_forall in Hvalid. exfalso.
    assert (length h < length h)%nat; [|lia].
    apply Hvalid. apply list_elem_of_fmap. by exists (o, length h).
  - right. apply list_elem_of_fmap in Hkey as ([o og] & -> & Hitem).
    apply elem_of_sweep_stores. exists o, og. split; [done|]. by left.
Qed.

(** After the sweep every other glyph record has, under the new character,
    the kerning of the new character followed by its own. *)
Lemma sweep_old_entry K char d (h : list Glyph) g0 other_char other_glyph :
  NoDup d.*2 →
  Forall (λ r, (r < length h)%nat) d.*2 →
  (other_char, other_glyph) ∈ d →
  other_char ≠ char →
  ∃ og, foldl apply_store (h ++ [g0])
          (sweep_stores K char (length h) (dict_set char (length h) d)) !! other_glyph
        = Some og
      ∧ g_kerning og !! char = Some (div64 (K char other_char)).
Proof.
  intros Hnd Hvalid Hitem Hne.
  assert (other_glyph < length h)%nat as Hlt.
  { rewrite Forall_forall in Hvalid. apply Hvalid.
    apply list_elem_of_fmap. by exists (other_char, other_glyph). }
  destruct (lookup_lt_is_Some_2 h other_glyph Hlt) as [o0 Ho0].
  destruct (apply_stores_lookup
              (sweep_stores K char (length h) (dict_set char (length h) d))
              (h ++ [g0]) other_glyph o0) as (og & Hog & _ & _ & _ & _ & Hk).
  { by apply lookup_app_l_Some. }
  exists og. split; [done|]. rewrite Hk. apply entry_after_agree.
  - intros v' (o & r & Hin & [(Hr & _ & _)|(-> & _ & ->)])%elem_of_sweep_stores;
      [lia|].
    apply elem_of_dict_set in Hin as [[_ ->]|Hin]; [lia|].
    by rewrite (NoDup_snd_inj d o other_char r).
  - right. apply elem_of_sweep_stores. exists other_char, other_glyph.
    split; [by apply dict_set_elem_of_ne|by right].
Qed.

End Sweep.

(** ** [_load_glyph] *)

Section LoadGlyph.
Context `{FreeType}.

Lemma set_char_size_valid face w s o :
  faces s !! face = Some o →
  set_char_size face w s
  = (Ok (), set_faces <[face := mk_Face (fname o) w (face_glyph o)]> s).
Proof. intros Ho. unfold set_char_size, deref_face, mbind, Py_bind. by rewrite Ho. Qed.

Lemma load_char_run face c flags s o :
  faces s !! face = Some o →
  load_char face c flags s
  = match FT_Load_Char (fname o) (char_size o) c flags with
    | Some slot =>
        (Ok (), set_faces <[face := mk_Face (fname o) (char_size o) slot]> s)
    | None => (Raise GlyphLoadError, s)
    end.
Proof.
  intros Ho. unfold load_char, deref_face, mbind, Py_bind, lift. rewrite Ho; simpl.
  by destruct (FT_Load_Char (fname o) (char_size o) c flags).
Qed.

Lemma get_glyph_valid face s o :
  faces s !! face = Some o → get_glyph face s = (Ok (face_glyph o), s).
Proof. intros Ho. unfold get_glyph, deref_face, mbind, Py_bind. by rewrite Ho. Qed.

Lemma _load_glyph_prefix f char s face s1 o slot bm :
  _load_font (f_face f) (f_size f) (f_bold f) (f_italic f) s = (Ok face, s1) →
  faces s1 !! face = Some o →
  FT_Load_Char (fname o) (f_size f * 64) char freetype_flags = Some slot →
  make_bitmap (bm_buffer (slot_bitmap slot)) (bm_width (slot_bitmap slot))
              (bm_rows (slot_bitmap slot)) = Ok bm →
  _load_glyph f char s
  = for_each (kern_pair face char (length (glyph_objs s1)))
             (glyphs_dict (inserted f char face o slot bm s1))
             (inserted f char face o slot bm s1).
Proof.
  intros Hfont Ho Hload Hbm. unfold _load_glyph.
  pose proof (lookup_lt_Some _ _ _ Ho) as Hlt.
  rewrite (bind_Ok _ _ _ _ _ Hfont).
  rewrite (bind_Ok _ _ _ _ _ (set_char_size_valid _ _ _ _ Ho)).
  erewrite bind_Ok; cycle 1.
  { erewrite load_char_run; [|simpl; by apply list_lookup_insert_eq].
    simpl. by rewrite Hload. }
  erewrite bind_Ok; cycle 1.
  { apply get_glyph_valid. simpl. rewrite list_insert_insert_eq.
    by apply list_lookup_insert_eq. }
  simpl. unfold lift at 1. unfold mbind at 1, Py_bind at 1. rewrite Hbm.
  unfold new_glyph, gets, modify, mbind, Py_bind, mret, Py_ret.
  erewrite set_char_size_valid; cycle 1.
  { simpl. rewrite list_insert_insert_eq. by apply list_lookup_insert_eq. }
  simpl. unfold inserted, set_faces; simpl. by rewrite !list_insert_insert_eq.
Qed.

(** When the rasterizer cannot load the character, [_load_glyph] stops
    after the character size was set on the face. *)
Lemma _load_glyph_no_glyph f char s face s1 o :
  _load_font (f_face f) (f_size f) (f_bold f) (f_italic f) s = (Ok face, s1) →
  faces s1 !! face = Some o →
  FT_Load_Char (fname o) (f_size f * 64) char freetype_flags = None →
  _load_glyph f char s
  = (Raise GlyphLoadError,
     set_faces <[face := mk_Face (fname o) (f_size f * 64) (face_glyph o)]> s1).
Proof.
  intros Hfont Ho Hload. unfold _load_glyph.
  pose proof (lookup_lt_Some _ _ _ Ho) as Hlt.
  rewrite (bind_Ok _ _ _ _ _ Hfont).
  rewrite (bind_Ok _ _ _ _ _ (set_char_size_valid _ _ _ _ Ho)).
  erewrite bind_Raise; [done|].
  erewrite load_char_run; [|simpl; by apply list_lookup_insert_eq].
  simpl. by rewrite Hload.
Qed.

Lemma _load_glyph_bad_bitmap f char s face s1 o slot e :
  _load_font (f_face f) (f_size f) (f_bold f) (f_italic f) s = (Ok face, s1) →
  faces s1 !! face = Some o →
  FT_Load_Char (fname o) (f_size f * 64) char freetype_flags = Some slot →
  make_bitmap (bm_buffer (slot_bitmap slot)) (bm_width (slot_bitmap slot))
              (bm_rows (slot_bitmap slot)) = Raise e →
  _load_glyph f char s
  = (Raise e, set_faces <[face := mk_Face (fname o) (f_size f * 64) slot]> s1).
Proof.
  intros Hfont Ho Hload Hbm. unfold _load_glyph.
  pose proof (lookup_lt_Some _ _ _ Ho) as Hlt.
  rewrite (bind_Ok _ _ _ _ _ Hfont).
  rewrite (bind_Ok _ _ _ _ _ (set_char_size_valid _ _ _ _ Ho)).
  erewrite bind_Ok; cycle 1.
  { erewrite load_char_run; [|simpl; by apply list_lookup_insert_eq].
    simpl. by rewrite Hload. }
  erewrite bind_Ok; cycle 1.
  { apply get_glyph_valid. simpl. rewrite list_insert_insert_eq.
    by apply list_lookup_insert_eq. }
  simpl. unfold lift at 1. unfold mbind at 1, Py_bind at 1. rewrite Hbm.
  unfold set_faces; simpl. by rewrite list_insert_insert_eq.
Qed.

Lemma _load_glyph_run f char s : _load_glyph f char s = _load_glyph_steps f char s.
Proof.
  unfold _load_glyph_steps.
  destruct (_load_font (f_face f) (f_size f) (f_bold f) (f_italic f) s)
    as [[face|e] s1] eqn:Hfont.
  - destruct (faces s1 !! face) as [o|] eqn:Ho.
    + destruct (FT_Load_Char (fname o) (f_size f * 64) char freetype_flags)
        as [slot|] eqn:Hload.
      * destruct (make_bitmap _ _ _) as [bm|e] eqn:Hbm.
        -- by eapply _load_glyph_prefix.
        -- by eapply _load_glyph_bad_bitmap.
      * by eapply _load_glyph_no_glyph.
    + unfold _load_glyph. rewrite (bind_Ok _ _ _ _ _ Hfont).
      apply bind_Raise. unfold set_char_size, deref_face, mbind, Py_bind.
      by rewrite Ho.
  - unfold _load_glyph. by apply bind_Raise.
Qed.

(** A call that returns went through all the statements: the font was
    found, the glyph loaded, the bitmap made, and the loop met only
    references that name glyph records. *)
Lemma _load_glyph_Ok_inv f char s s' :
  _load_glyph f char s = (Ok (), s') →
  ∃ face s1 o slot bm,
    _load_font (f_face f) (f_size f) (f_bold f) (f_italic f) s = (Ok face, s1)
    ∧ faces s1 !! face = Some o
    ∧ FT_Load_Char (fname o) (f_size f * 64) char freetype_flags = Some slot
    ∧ make_bitmap (bm_buffer (slot_bitmap slot)) (bm_width (slot_bitmap slot))
                  (bm_rows (slot_bitmap slot)) = Ok bm
    ∧ s' = loaded f char face o slot bm s1
    ∧ Forall (λ r, (r < length (glyph_objs s'))%nat) (glyphs_dict s').*2.
Proof.
  rewrite _load_glyph_run. unfold _load_glyph_steps.
  destruct (_load_font (f_face f) (f_size f) (f_bold f) (f_italic f) s)
    as [[face|e] s1] eqn:Hfont; [|discriminate].
  destruct (faces s1 !! face) as [o|] eqn:Ho; [|discriminate].
  destruct (FT_Load_Char (fname o) (f_size f * 64) char freetype_flags)
    as [slot|] eqn:Hload; [|discriminate].
  destruct (make_bitmap _ _ _) as [bm|e] eqn:Hbm; [|discriminate].
  intros Hloop. exists face, s1, o, slot, bm.
  pose proof (sweep_Ok_inv _ _ _ _ _ _ Hloop) as Hvalid.
  erewrite sweep_valid in Hloop; [| |simpl; rewrite length_app; simpl; lia|done];
    cycle 1.
  { simpl. apply list_lookup_insert_eq. by eapply lookup_lt_Some. }
  injection Hloop as <-. repeat split; try done.
  unfold swept; cbn [glyph_objs glyphs_dict]. by rewrite apply_stores_length.
Qed.

(** Conversely, on a store whose glyphs dict holds only references that
    name glyph records, the call returns as soon as the font is found, the
    glyph loaded and the bitmap made. *)
Lemma _load_glyph_Ok f char s face s1 o slot bm :
  Forall (λ r, (r < length (glyph_objs s))%nat) (glyphs_dict s).*2 →
  _load_font (f_face f) (f_size f) (f_bold f) (f_italic f) s = (Ok face, s1) →
  faces s1 !! face = Some o →
  FT_Load_Char (fname o) (f_size f * 64) char freetype_flags = Some slot →
  make_bitmap (bm_buffer (slot_bitmap slot)) (bm_width (slot_bitmap slot))
              (bm_rows (slot_bitmap slot)) = Ok bm →
  _load_glyph f char s = (Ok (), loaded f char face o slot bm s1).
Proof.
  intros Hvalid Hfont Ho Hload Hbm.
  rewrite _load_glyph_run. unfold _load_glyph_steps.
  rewrite Hfont, Ho, Hload, Hbm.
  destruct (_load_font_frame _ _ _ _ _ _ _ Hfont) as [Hobjs Hdict].
  erewrite sweep_valid; cycle 1.
  - simpl. apply list_lookup_insert_eq. by eapply lookup_lt_Some.
  - simpl. rewrite length_app. simpl. lia.
  - simpl. rewrite length_app. simpl. apply Forall_forall.
    intros r [->|Hr]%dict_set_vals_elem_of; [lia|].
    rewrite Hobjs, Hdict in *. rewrite Forall_forall in Hvalid.
    specialize (Hvalid r Hr). lia.
  - done.
Qed.

(** C8.  When the rasterizer cannot load the character, [_load_glyph]
    raises what [load_char] raised, and neither the glyphs dict nor any
    glyph record has changed: no glyph was inserted. *)
Theorem failed_rasterization_commits_nothing f char s face s1 o :
  _load_font (f_face f) (f_size f) (f_bold f) (f_italic f) s = (Ok face, s1) →
  faces s1 !! face = Some o →
  FT_Load_Char (fname o) (f_size f * 64) char freetype_flags = None →
  ∃ s', _load_glyph f char s = (Raise GlyphLoadError, s')
      ∧ glyphs_dict s' = glyphs_dict s
      ∧ glyph_objs s' = glyph_objs s
      ∧ dict_get char (glyphs_dict s') = dict_get char (glyphs_dict s).
Proof.
  intros Hfont Ho Hload.
  rewrite (_load_glyph_no_glyph _ _ _ _ _ _ Hfont Ho Hload).
  destruct (_load_font_frame _ _ _ _ _ _ _ Hfont) as [Hobjs Hdict].
  eexists; split; [done|]. simpl. by rewrite Hobjs, Hdict.
Qed.

(** The kerning stores of one call: into the new glyph, one for each key
    of the dict; into the others, one for each key bound to them. *)
Lemma _load_glyph_count f char s s' r k :
  _load_glyph f char s = (Ok (), s') →
  count_stores r k (trace s')
  = (count_stores r k (trace s)
     + (if decide (length (glyph_objs s) = r)
        then length (filter (λ o, o = k) (glyphs_dict s').*1) else 0)
     + (if decide (char = k)
        then length (filter (λ o, o = r) (glyphs_dict s').*2) else 0))%nat.
Proof.
  intros Hrun. apply _load_glyph_Ok_inv in Hrun
    as (face & s1 & o & slot & bm & Hfont & Ho & Hload & Hbm & -> & _).
  destruct (_load_font_frame _ _ _ _ _ _ _ Hfont) as [Hobjs Hdict].
  unfold loaded, swept; cbn [glyph_objs glyphs_dict trace inserted].
  rewrite count_stores_app, count_stores_sweep.
  rewrite (_load_font_count _ _ _ _ _ _ _ r k Hfont), Hobjs. lia.
Qed.

Lemma filter_eq_pos {A} `{EqDecision A} (l : list A) (x : A) :
  x ∈ l → (0 < length (filter (λ y, y = x) l))%nat.
Proof.
  induction l as [|y l IH]; [by intros ?%elem_of_nil|].
  rewrite filter_cons. intros [->|Hin]%elem_of_cons.
  - rewrite decide_True by done. simpl. lia.
  - specialize (IH Hin). case_decide; simpl; lia.
Qed.

(** What a call that returns does to the dict and to the heap: it binds
    [char] to a new glyph record, the last of the heap. *)
Lemma _load_glyph_dict f char s s' :
  _load_glyph f char s = (Ok (), s') →
  glyphs_dict s' = dict_set char (length (glyph_objs s)) (glyphs_dict s)
  ∧ length (glyph_objs s') = S (length (glyph_objs s))
  ∧ Forall (λ r, (r < length (glyph_objs s'))%nat) (glyphs_dict s').*2.
Proof.
  intros Hrun. apply _load_glyph_Ok_inv in Hrun
    as (face & s1 & o & slot & bm & Hfont & Ho & Hload & Hbm & -> & Hvalid).
  destruct (_load_font_frame _ _ _ _ _ _ _ Hfont) as [Hobjs Hdict].
  split; [|split; [|done]].
  - simpl. by rewrite Hobjs, Hdict.
  - unfold loaded, swept; cbn [glyph_objs inserted].
    rewrite apply_stores_length, length_app, Hobjs. simpl. lia.
Qed.

Lemma _load_glyph_wf f char s s' :
  wf_glyphs s → _load_glyph f char s = (Ok (), s') → wf_glyphs s'.
Proof.
  intros (Hkeys & Hrefs & Hvalid) Hrun.
  destruct (_load_glyph_dict _ _ _ _ Hrun) as (Hdict & Hlen & Hvalid').
  split; [|split; [|done]]; rewrite Hdict.
  - by apply dict_set_keys_NoDup.
  - apply dict_set_vals_NoDup; [|done].
    intros Hin. rewrite Forall_forall in Hvalid. specialize (Hvalid _ Hin). lia.
Qed.

Lemma filter_eq_nil {A} `{EqDecision A} (l : list A) (x : A) :
  x ∉ l → length (filter (λ y, y = x) l) = 0%nat.
Proof.
  induction l as [|y l IH]; [done|].
  intros [Hne Hnin]%not_elem_of_cons. rewrite filter_cons.
  rewrite decide_False by done. by apply IH.
Qed.

(** Which entries a call leaves alone: those under a key that is neither
    in the dict nor the new character; those of a record not yet on the
    heap; and those of an older record under any key but the new
    character. *)
Lemma _load_glyph_count_frame f char s s' r k :
  wf_glyphs s →
  _load_glyph f char s = (Ok (), s') →
  ((k ∉ (glyphs_dict s).*1) ∧ k ≠ char)
  ∨ (length (glyph_objs s') ≤ r)%nat
  ∨ ((r < length (glyph_objs s))%nat ∧ k ≠ char) →
  count_stores r k (trace s') = count_stores r k (trace s).
Proof.
  intros Hwf Hrun Hcond.
  rewrite (_load_glyph_count _ _ _ _ r k Hrun).
  destruct (_load_glyph_dict _ _ _ _ Hrun) as (Hdict & Hlen & Hvalid').
  destruct Hcond as [[Hk Hne]|[Hr|[Hr Hne]]].
  - rewrite (decide_False (P := char = k)) by done.
    rewrite filter_eq_nil; [case_decide; lia|].
    rewrite Hdict, dict_set_keys_elem_of. by intros [?|?].
  - rewrite decide_False by lia.
    rewrite (filter_eq_nil _ r); [case_decide; lia|].
    intros Hin. rewrite Forall_forall in Hvalid'. specialize (Hvalid' _ Hin). lia.
  - rewrite decide_False by lia. rewrite decide_False by done. lia.
Qed.

(** The sweep keeps the kerning dicts closed over the keys of the dict:
    the new glyph gets an entry under every key, its own included, and
    every other glyph one under the new character. *)
Lemma _load_glyph_closed f char s s' :
  kerning_closed s → _load_glyph f char s = (Ok (), s') → kerning_closed s'.
Proof.
  intros Hclosed Hrun. apply _load_glyph_Ok_inv in Hrun
    as (face & s1 & o & slot & bm & Hfont & Ho & Hload & Hbm & -> & _).
  destruct (_load_font_frame _ _ _ _ _ _ _ Hfont) as [Hobjs Hdict].
  unfold kerning_closed in *. rewrite <- Hobjs, <- Hdict in Hclosed. clear Hobjs Hdict.
  unfold loaded, swept, inserted; cbn [glyph_objs glyphs_dict].
  set (glyph := length (glyph_objs s1)).
  set (items := dict_set char glyph (glyphs_dict s1)).
  set (K := FT_Get_Kerning (fname o) (f_size f * 64)).
  set (g0 := mk_Glyph char _ bm _ ∅).
  intros c r Hin.
  assert ((glyph_objs s1 ++ [g0]) !! glyph = Some g0) as Hg0
    by apply list_lookup_middle, eq_refl.
  assert (∀ k, (∃ v, (glyph, k, v) ∈ sweep_stores K char glyph items) ↔ k ∈ items.*1)
    as Hnew.
  { intros k. split.
    - intros [v (o' & og & Hitem & [(_ & -> & _)|(_ & -> & _)])%elem_of_sweep_stores].
      + apply list_elem_of_fmap. by exists (o', og).
      + apply dict_set_keys_elem_of. by left.
    - intros ([o' og] & -> & Hitem)%list_elem_of_fmap.
      eexists. apply elem_of_sweep_stores. exists o', og. split; [done|]. by left. }
  apply elem_of_dict_set in Hin as Hin'.
  destruct (decide (r = glyph)) as [->|Hr].
  - destruct (apply_stores_lookup (sweep_stores K char glyph items) _ _ _ Hg0)
      as (g & Hg & Hchar & _ & _ & _ & Hk).
    exists g. split; [done|]. split.
    { destruct Hin' as [[-> _]|Hold]; [done|].
      destruct (Hclosed c glyph Hold) as (g1 & Hg1%lookup_lt_Some & _).
      unfold glyph in Hg1. lia. }
    intros k.
    rewrite Hk, entry_after_is_Some, Hnew. simpl. rewrite lookup_empty.
    split; [intros [[? [=]]|?]; done|by right].
  - destruct Hin' as [[_ ?]|Hold]; [done|].
    destruct (Hclosed c r Hold) as (g1 & Hg1 & Hchar1 & Hk1).
    destruct (apply_stores_lookup (sweep_stores K char glyph items)
                (glyph_objs s1 ++ [g0]) r g1) as (g & Hg & Hchar & _ & _ & _ & Hk).
    { by apply lookup_app_l_Some. }
    exists g. split; [done|]. split; [congruence|]. intros k.
    rewrite Hk, entry_after_is_Some, Hk1.
    unfold items at 2. rewrite dict_set_keys_elem_of. split.
    + intros [?|[v (o' & og & _ & [(? & _)|(_ & -> & _)])%elem_of_sweep_stores]];
        [by right|done|by left].
    + intros [->|?]; [right|by left].
      eexists. apply elem_of_sweep_stores. exists c, r. split; [done|]. by right.
Qed.

(** *** Several characters in turn *)

Lemma load_glyphs_cons f char chars s :
  load_glyphs f (char :: chars) s
  = match _load_glyph f char s with
    | (Ok _, s1) => load_glyphs f chars s1
    | (Raise e, s1) => (Raise e, s1)
    end.
Proof. done. Qed.

Lemma load_glyphs_cons_Ok_inv f char chars s s' :
  load_glyphs f (char :: chars) s = (Ok (), s') →
  ∃ s1, _load_glyph f char s = (Ok (), s1) ∧ load_glyphs f chars s1 = (Ok (), s').
Proof.
  rewrite load_glyphs_cons.
  destruct (_load_glyph f char s) as [[[]|e] s1]; [eauto|discriminate].
Qed.

Lemma load_glyphs_nil_inv f s r s' : load_glyphs f [] s = (r, s') → s' = s.
Proof. by intros [= _ <-]. Qed.

Lemma load_glyphs_wf f chars s s' :
  wf_glyphs s → load_glyphs f chars s = (Ok (), s') →
  wf_glyphs s'
  ∧ (length (glyph_objs s) ≤ length (glyph_objs s'))%nat
  ∧ ∀ k, k ∈ (glyphs_dict s').*1 ↔ k ∈ (glyphs_dict s).*1 ∨ k ∈ chars.
Proof.
  revert s; induction chars as [|char chars IH]; intros s Hwf Hrun.
  - apply load_glyphs_nil_inv in Hrun as ->. split; [done|]. split; [done|].
    intros k. rewrite elem_of_nil. tauto.
  - apply load_glyphs_cons_Ok_inv in Hrun as (s1 & Hstep & Hrest).
    destruct (_load_glyph_dict _ _ _ _ Hstep) as (Hdict & Hlen & _).
    destruct (IH s1 (_load_glyph_wf _ _ _ _ Hwf Hstep) Hrest) as (Hwf' & Hle & Hkeys).
    split; [done|]. split; [lia|].
    intros k. rewrite Hkeys, Hdict, dict_set_keys_elem_of, elem_of_cons. tauto.
Qed.

(** A character bound in the dict stays bound to the same record while
    other characters are loaded. *)
Lemma load_glyphs_dict_get f chars s s' k :
  k ∉ chars → load_glyphs f chars s = (Ok (), s') →
  dict_get k (glyphs_dict s') = dict_get k (glyphs_dict s).
Proof.
  revert s; induction chars as [|char chars IH]; intros s Hk Hrun.
  - by apply load_glyphs_nil_inv in Hrun as ->.
  - apply not_elem_of_cons in Hk as [Hne Hk].
    apply load_glyphs_cons_Ok_inv in Hrun as (s1 & Hstep & Hrest).
    destruct (_load_glyph_dict _ _ _ _ Hstep) as (Hdict & _ & _).
    rewrite (IH s1 Hk Hrest), Hdict. by apply dict_get_set_ne.
Qed.

Lemma load_glyphs_count_frame f chars s s' r k :
  wf_glyphs s →
  load_glyphs f chars s = (Ok (), s') →
  ((k ∉ (glyphs_dict s).*1) ∧ k ∉ chars)
  ∨ (length (glyph_objs s') ≤ r)%nat
  ∨ ((r < length (glyph_objs s))%nat ∧ k ∉ chars) →
  count_stores r k (trace s') = count_stores r k (trace s).
Proof.
  revert s; induction chars as [|char chars IH]; intros s Hwf Hrun Hcond.
  - by apply load_glyphs_nil_inv in Hrun as ->.
  - apply load_glyphs_cons_Ok_inv in Hrun as (s1 & Hstep & Hrest).
    pose proof (_load_glyph_wf _ _ _ _ Hwf Hstep) as Hwf1.
    destruct (_load_glyph_dict _ _ _ _ Hstep) as (Hdict & Hlen & _).
    destruct (load_glyphs_wf _ _ _ _ Hwf1 Hrest) as (_ & Hle & _).
    rewrite (IH s1 Hwf1 Hrest).
    + apply (_load_glyph_count_frame _ _ _ _ _ _ Hwf Hstep).
      destruct Hcond as [[? [? ?]%not_elem_of_cons]|[?|[? [? ?]%not_elem_of_cons]]];
        [by left|right; left; lia|by right; right].
    + destruct Hcond as [[Hnew [? ?]%not_elem_of_cons]|[?|[? [? ?]%not_elem_of_cons]]];
        [left|right; by left|right; right; split; [lia|done]].
      split; [|done]. rewrite Hdict, dict_set_keys_elem_of. by intros [?|?].
Qed.

(** C1.  After [_load_glyph] has inserted the glyph for [char] into a dict
    of distinct glyph records, for every character the dict had: the new
    glyph's kerning dict holds, under that character, the converted
    kerning of (that character, [char]); and the glyph the dict now binds
    that character to holds, under [char], the converted kerning of
    ([char], that character).  The entry is there whatever FreeType
    answered, zero included. *)
Theorem kerning_completeness f char s s' :
  wf_glyphs s →
  _load_glyph f char s = (Ok (), s') →
  ∃ face o glyph g,
    _font_dict s' !! font_key (f_face f) (f_size f) (f_bold f) (f_italic f)
      = Some face
    ∧ faces s' !! face = Some o
    ∧ dict_get char (glyphs_dict s') = Some glyph
    ∧ glyph_objs s' !! glyph = Some g
    ∧ g_char g = char
    ∧ ∀ other_char, other_char ∈ (glyphs_dict s).*1 →
        g_kerning g !! other_char
          = Some (div64 (FT_Get_Kerning (fname o) (char_size o) other_char char))
        ∧ ∃ other_glyph og,
            dict_get other_char (glyphs_dict s') = Some other_glyph
            ∧ (other_char ≠ char →
               dict_get other_char (glyphs_dict s) = Some other_glyph)
            ∧ glyph_objs s' !! other_glyph = Some og
            ∧ g_kerning og !! char
              = Some (div64 (FT_Get_Kerning (fname o) (char_size o) char other_char)).
Proof.
  intros (Hkeys & Hrefs & Hvalid) Hrun. apply _load_glyph_Ok_inv in Hrun
    as (face & s1 & o & slot & bm & Hfont & Ho & Hload & Hbm & -> & _).
  destruct (_load_font_frame _ _ _ _ _ _ _ Hfont) as [Hobjs Hdict].
  rewrite <- Hobjs, <- Hdict in *.
  set (K := FT_Get_Kerning (fname o) (f_size f * 64)).
  set (g0 := mk_Glyph char (bitmap_left slot, bitmap_top slot) bm
                      (div64 (advance_x slot)) ∅).
  destruct (sweep_new_entry K char (glyphs_dict s1) (glyph_objs s1) g0 char Hvalid)
    as (g & Hg & Hchar & Hself).
  { apply dict_set_keys_elem_of. by left. }
  exists face, (mk_Face (fname o) (f_size f * 64) slot), (length (glyph_objs s1)), g.
  unfold loaded, swept, inserted; cbn [_font_dict faces glyphs_dict glyph_objs].
  split; [by eapply _load_font_Ok_cached|].
  split; [simpl; apply list_lookup_insert_eq; by eapply lookup_lt_Some|].
  split; [apply dict_get_set_eq|].
  split; [exact Hg|]. split; [done|].
  intros other_char Hother. cbn [fname char_size]. fold K. split.
  - destruct (sweep_new_entry K char (glyphs_dict s1) (glyph_objs s1) g0 other_char
                Hvalid) as (g' & Hg' & _ & Hentry).
    { apply dict_set_keys_elem_of. by right. }
    rewrite Hg in Hg'. by injection Hg' as <-.
  - destruct (decide (other_char = char)) as [->|Hne].
    + exists (length (glyph_objs s1)), g.
      split; [apply dict_get_set_eq|]. split; [done|]. split; [exact Hg|done].
    + destruct (dict_get_is_Some _ _ Hother) as [other_glyph Hget].
      destruct (sweep_old_entry K char (glyphs_dict s1) (glyph_objs s1) g0
                  other_char other_glyph Hrefs Hvalid) as (og & Hog & Hentry);
        [by apply dict_get_elem_of|done|].
      exists other_glyph, og.
      split; [simpl; by rewrite dict_get_set_ne|]. split; [done|].
      split; [exact Hog|done].
Qed.

Lemma load_glyphs_closed f chars s s' :
  kerning_closed s → load_glyphs f chars s = (Ok (), s') → kerning_closed s'.
Proof.
  revert s; induction chars as [|char chars IH]; intros s Hclosed Hrun.
  - by apply load_glyphs_nil_inv in Hrun as ->.
  - apply load_glyphs_cons_Ok_inv in Hrun as (s1 & Hstep & Hrest).
    eapply IH; [|done]. by eapply _load_glyph_closed.
Qed.

(** C2, as the code has it.  The sweep runs over every glyph of the dict,
    the one just inserted included: after "A", "V" and "T" have been loaded
    in that order into an empty dict, each of the three glyphs has kerning
    entries under exactly the three characters, its own among them; nine
    entries in all, six of them between two different characters. *)
Theorem sweep_covers_every_glyph f s s' :
  glyphs_dict s = [] →
  load_glyphs f ["A"; "V"; "T"] s = (Ok (), s') →
  (glyphs_dict s').*1 = ["A"; "V"; "T"]
  ∧ ∀ c, c ∈ ["A"; "V"; "T"] →
      ∃ r g, dict_get c (glyphs_dict s') = Some r
           ∧ glyph_objs s' !! r = Some g
           ∧ g_char g = c
           ∧ dom (g_kerning g) = ({["A"; "V"; "T"]} : gset string)
           ∧ size (g_kerning g) = 3%nat.
Proof.
  intros Hempty Hrun.
  assert (kerning_closed s') as Hclosed.
  { eapply load_glyphs_closed; [|done]. intros c r. rewrite Hempty.
    by intros ?%elem_of_nil. }
  apply load_glyphs_cons_Ok_inv in Hrun as (s1 & HA & Hrun).
  apply load_glyphs_cons_Ok_inv in Hrun as (s2 & HV & Hrun).
  apply load_glyphs_cons_Ok_inv in Hrun as (s3 & HT & Hrun).
  apply load_glyphs_nil_inv in Hrun as ->.
  destruct (_load_glyph_dict _ _ _ _ HA) as (HdA & _ & _).
  destruct (_load_glyph_dict _ _ _ _ HV) as (HdV & _ & _).
  destruct (_load_glyph_dict _ _ _ _ HT) as (HdT & _ & _).
  rewrite Hempty in HdA. rewrite HdA in HdV. rewrite HdV in HdT.
  assert ((glyphs_dict s3).*1 = ["A"; "V"; "T"]) as Hkeys by (by rewrite HdT).
  split; [done|]. intros c Hc.
  destruct (dict_get_is_Some c (glyphs_dict s3)) as [r Hr]; [by rewrite Hkeys|].
  destruct (Hclosed c r (dict_get_elem_of _ _ _ Hr)) as (g & Hg & Hchar & Hk).
  assert (dom (g_kerning g) = ({["A"; "V"; "T"]} : gset string)) as Hdom.
  { apply set_eq. intros k. rewrite elem_of_dom, Hk, Hkeys.
    rewrite !elem_of_cons, elem_of_nil, !elem_of_union, !elem_of_singleton. tauto. }
  exists r, g. repeat split; try done.
  rewrite <- size_dom, Hdom. reflexivity.
Qed.

(** *** The exceptions that leave [_load_glyph] *)

Lemma kern_pair_Raise face char glyph item s e s' :
  kern_pair face char glyph item s = (Raise e, s') → e = SystemError.
Proof.
  assert (∀ l r s e s', get_kerning_x face l r s = (Raise e, s') → e = SystemError)
    as Hget.
  { intros l r s0 e0 s0'. unfold get_kerning_x, deref_face, mbind, Py_bind.
    destruct (faces s0 !! face); simpl; [discriminate|]. by intros [= <- _]. }
  assert (∀ g k v s e s', kerning_setitem g k v s = (Raise e, s') → e = SystemError)
    as Hset.
  { intros g k v s0 e0 s0'. unfold kerning_setitem, deref_glyph, mbind, Py_bind.
    destruct (glyph_objs s0 !! g); simpl; [discriminate|]. by intros [= <- _]. }
  destruct item as [other_char other_glyph]. unfold kern_pair.
  intros [Hr|(k1 & s1 & _ & Hr)]%bind_Raise_inv; [by eapply Hget|].
  apply bind_Raise_inv in Hr as [Hr|([] & s2 & _ & Hr)]; [by eapply Hset|].
  apply bind_Raise_inv in Hr as [Hr|(k2 & s3 & _ & Hr)]; [by eapply Hget|].
  by eapply Hset.
Qed.

Lemma sweep_Raise face char glyph items s e s' :
  for_each (kern_pair face char glyph) items s = (Raise e, s') → e = SystemError.
Proof.
  revert s; induction items as [|item items IH]; intros s; [discriminate|].
  simpl. intros [Hr|([] & s1 & _ & Hr)]%bind_Raise_inv.
  - by eapply kern_pair_Raise.
  - by eapply IH.
Qed.

Lemma make_bitmap_Raise buffer width height e :
  make_bitmap buffer width height = Raise e →
  e = ZeroDivisionError ∨ e = ValueError.
Proof.
  unfold make_bitmap, np.floordiv, np.set_shape.
  repeat (case_decide; simpl); intros [= <-]; auto.
Qed.

Lemma _load_font_Raise_exn face size bold italic s e s' :
  _load_font face size bold italic s = (Raise e, s') →
  e = FontNotFoundError ∨ e = FT_Exception.
Proof.
  destruct (_load_font_cases face size bold italic s) as [(font & _ & ->)|[_ ->]];
    [discriminate|].
  unfold _load_font_on_miss.
  destruct (find_font face size bold italic) as [fname|];
    [destruct (FT_New_Face fname)|]; [discriminate| |]; intros [= <- _]; auto.
Qed.

(** No statement of [_load_glyph] raises [DuplicateGlyphError]. *)
Lemma _load_glyph_Raise_exn f char s e s' :
  _load_glyph f char s = (Raise e, s') → e ≠ DuplicateGlyphError.
Proof.
  rewrite _load_glyph_run. unfold _load_glyph_steps.
  destruct (_load_font (f_face f) (f_size f) (f_bold f) (f_italic f) s)
    as [[face|e1] s1] eqn:Hfont.
  - destruct (faces s1 !! face) as [o|]; [|by intros [= <- _]].
    destruct (FT_Load_Char _ _ _ _) as [slot|]; [|by intros [= <- _]].
    destruct (make_bitmap _ _ _) as [bm|e2] eqn:Hbm.
    + by intros ->%sweep_Raise.
    + intros [= <- _]. by destruct (make_bitmap_Raise _ _ _ _ Hbm) as [->| ->].
  - intros [= <- _]. by destruct (_load_font_Raise_exn _ _ _ _ _ _ _ Hfont) as [->| ->].
Qed.

(** C3, as the code has it.  A character that the dict already holds is
    not rejected.  No call raises [DuplicateGlyphError]; and when the font
    is found, the glyph loaded and the bitmap made, the call returns: it
    leaves the keys of the dict and their order as they were and binds
    [char] to a new glyph record, made from what the rasterizer has just
    produced.  The kerning of that record is then swept as for a first
    insertion: under every key of the dict, [char] among them, it holds
    the converted kerning of (that key, [char]); and, the records of the
    dict being distinct, every other glyph holds under [char] the
    converted kerning of ([char], its key), stored anew. *)
Theorem duplicate_insertion_rebinds f char s :
  char ∈ (glyphs_dict s).*1 →
  (∀ e s', _load_glyph f char s = (Raise e, s') → e ≠ DuplicateGlyphError)
  ∧ ∀ face s1 o slot bm,
      Forall (λ r, (r < length (glyph_objs s))%nat) (glyphs_dict s).*2 →
      _load_font (f_face f) (f_size f) (f_bold f) (f_italic f) s = (Ok face, s1) →
      faces s1 !! face = Some o →
      FT_Load_Char (fname o) (f_size f * 64) char freetype_flags = Some slot →
      make_bitmap (bm_buffer (slot_bitmap slot)) (bm_width (slot_bitmap slot))
                  (bm_rows (slot_bitmap slot)) = Ok bm →
      ∃ s' g,
        _load_glyph f char s = (Ok (), s')
        ∧ (glyphs_dict s').*1 = (glyphs_dict s).*1
        ∧ dict_get char (glyphs_dict s') = Some (length (glyph_objs s))
        ∧ length (glyph_objs s') = S (length (glyph_objs s))
        ∧ glyph_objs s' !! length (glyph_objs s) = Some g
        ∧ g_char g = char
        ∧ g_bitmap g = bm
        ∧ g_offset g = (bitmap_left slot, bitmap_top slot)
        ∧ g_advance g = div64 (advance_x slot)
        ∧ (∀ other_char, other_char ∈ (glyphs_dict s).*1 →
             g_kerning g !! other_char
             = Some (div64 (FT_Get_Kerning (fname o) (f_size f * 64)
                              other_char char)))
        ∧ (NoDup (glyphs_dict s).*2 →
           ∀ other_char other_glyph,
             other_char ≠ char →
             dict_get other_char (glyphs_dict s) = Some other_glyph →
             ∃ og,
               dict_get other_char (glyphs_dict s') = Some other_glyph
               ∧ glyph_objs s' !! other_glyph = Some og
               ∧ g_kerning og !! char
                 = Some (div64 (FT_Get_Kerning (fname o) (f_size f * 64)
                                  char other_char))).
Proof.
  intros Hdup. split; [intros e s'; apply _load_glyph_Raise_exn|].
  intros face s1 o slot bm Hvalid Hfont Ho Hload Hbm.
  pose proof (_load_glyph_Ok _ _ _ _ _ _ _ _ Hvalid Hfont Ho Hload Hbm) as Hrun.
  destruct (_load_glyph_dict _ _ _ _ Hrun) as (Hdict & Hlen & _).
  destruct (_load_font_frame _ _ _ _ _ _ _ Hfont) as [Hobjs Hdict1].
  set (K := FT_Get_Kerning (fname o) (f_size f * 64)).
  set (g0 := mk_Glyph char (bitmap_left slot, bitmap_top slot) bm
                      (div64 (advance_x slot)) ∅).
  assert (Forall (λ r, (r < length (glyph_objs s1))%nat) (glyphs_dict s1).*2)
    as Hvalid1 by (by rewrite Hobjs, Hdict1).
  destruct (apply_stores_lookup
              (sweep_stores K char (length (glyph_objs s1))
                 (dict_set char (length (glyph_objs s1)) (glyphs_dict s1)))
              (glyph_objs s1 ++ [g0]) (length (glyph_objs s1)) g0)
    as (g & Hg & Hchar & Hoff & Hbitmap & Hadv & _).
  { apply list_lookup_middle, eq_refl. }
  exists (loaded f char face o slot bm s1), g.
  split; [done|]. split; [rewrite Hdict; by apply dict_set_keys_old|].
  split; [rewrite Hdict; apply dict_get_set_eq|]. split; [done|].
  rewrite <- Hobjs, <- Hdict1.
  split; [exact Hg|]. split; [done|]. split; [done|]. split; [done|].
  split; [done|]. split.
  - intros other_char Hother.
    destruct (sweep_new_entry K char (glyphs_dict s1) (glyph_objs s1) g0 other_char
                Hvalid1) as (g' & Hg' & _ & Hentry).
    { apply dict_set_keys_elem_of. by right. }
    unfold loaded, swept, inserted in Hg; cbn [glyph_objs] in Hg.
    fold K g0 in Hg. rewrite Hg in Hg'. by injection Hg' as <-.
  - intros Hrefs other_char other_glyph Hne Hget.
    destruct (sweep_old_entry K char (glyphs_dict s1) (glyph_objs s1) g0
                other_char other_glyph Hrefs Hvalid1) as (og & Hog & Hentry);
      [by apply dict_get_elem_of|done|].
    exists og. split; [|split; [exact Hog|done]].
    unfold loaded, swept, inserted; cbn [glyphs_dict].
    by rewrite dict_get_set_ne.
Qed.

(** C9, for characters loaded once each.  Let [x] be loaded after [y], in a
    run of pairwise distinct characters that starts on an empty dict.  The
    entry of the pair ([y], [x]), under [y] in the glyph of [x], and the
    entry of the pair ([x], [y]), under [x] in the glyph of [y], are each
    stored exactly once while [x] is inserted; no insertion before it and
    no insertion after it stores them. *)
Theorem kerning_written_once f pre x post y s0 s1 s2 s3 :
  glyphs_dict s0 = [] →
  NoDup (pre ++ x :: post) →
  y ∈ pre →
  load_glyphs f pre s0 = (Ok (), s1) →
  _load_glyph f x s1 = (Ok (), s2) →
  load_glyphs f post s2 = (Ok (), s3) →
  ∃ rx ry,
    dict_get x (glyphs_dict s3) = Some rx
    ∧ dict_get y (glyphs_dict s3) = Some ry
    ∧ dict_get y (glyphs_dict s1) = Some ry
    ∧ (count_stores rx y (trace s1) = count_stores rx y (trace s0)
       ∧ count_stores rx y (trace s2) = S (count_stores rx y (trace s1))
       ∧ count_stores rx y (trace s3) = count_stores rx y (trace s2))
    ∧ (count_stores ry x (trace s1) = count_stores ry x (trace s0)
       ∧ count_stores ry x (trace s2) = S (count_stores ry x (trace s1))
       ∧ count_stores ry x (trace s3) = count_stores ry x (trace s2)).
Proof.
  intros Hempty Hnd Hy Hpre Hx Hpost.
  apply NoDup_app in Hnd as (_ & Hdisj & [Hxpost _]%NoDup_cons).
  assert (x ∉ pre) as Hxpre by (intros Hin; apply (Hdisj x Hin); left).
  assert (y ≠ x) as Hyx by (by intros ->).
  assert (y ∉ post) as Hypost by (intros Hin; apply (Hdisj y Hy); by right).
  assert (wf_glyphs s0) as Hwf0.
  { unfold wf_glyphs. rewrite Hempty. repeat split; constructor. }
  destruct (load_glyphs_wf _ _ _ _ Hwf0 Hpre) as (Hwf1 & _ & Hkeys1).
  pose proof (_load_glyph_wf _ _ _ _ Hwf1 Hx) as Hwf2.
  destruct (_load_glyph_dict _ _ _ _ Hx) as (Hdict2 & Hlen2 & _).
  destruct (dict_get_is_Some y (glyphs_dict s1)) as [ry Hry].
  { apply Hkeys1. by right. }
  assert (ry < length (glyph_objs s1))%nat as Hrylt.
  { destruct Hwf1 as (_ & _ & Hvalid). rewrite Forall_forall in Hvalid.
    apply Hvalid. apply list_elem_of_fmap. exists (y, ry).
    split; [done|]. by apply dict_get_elem_of. }
  assert (x ∉ (glyphs_dict s1).*1) as Hxnew.
  { rewrite Hkeys1, Hempty. intros [[]%elem_of_nil|?]. done. }
  exists (length (glyph_objs s1)), ry.
  split; [|split; [|split; [done|]]].
  - rewrite (load_glyphs_dict_get _ _ _ _ x Hxpost Hpost), Hdict2.
    apply dict_get_set_eq.
  - rewrite (load_glyphs_dict_get _ _ _ _ y Hypost Hpost), Hdict2.
    by rewrite dict_get_set_ne.
  - split; split; [| split | | split].
    + apply (load_glyphs_count_frame _ _ _ _ _ _ Hwf0 Hpre). right; by left.
    + rewrite (_load_glyph_count _ _ _ _ _ y Hx).
      rewrite decide_True by done. rewrite (decide_False (P := x = y)) by done.
      rewrite NoDup_count_eq by apply Hwf2.
      rewrite decide_True; [lia|].
      rewrite Hdict2. apply dict_set_keys_elem_of. right. apply Hkeys1. by right.
    + apply (load_glyphs_count_frame _ _ _ _ _ _ Hwf2 Hpost).
      right; right. split; [lia|done].
    + apply (load_glyphs_count_frame _ _ _ _ _ _ Hwf0 Hpre). left.
      split; [|done]. rewrite Hempty. apply not_elem_of_nil.
    + rewrite (_load_glyph_count _ _ _ _ _ x Hx).
      rewrite decide_False by lia. rewrite decide_True by done.
      rewrite NoDup_count_eq by apply Hwf2.
      rewrite decide_True; [lia|].
      apply list_elem_of_fmap. exists (y, ry). split; [done|].
      rewrite Hdict2. apply dict_set_elem_of_ne; [done|]. by apply dict_get_elem_of.
    + apply (load_glyphs_count_frame _ _ _ _ _ _ Hwf2 Hpost).
      right; right. split; [lia|done].
Qed.

(** C5.  The bitmap stored in the glyph that [_load_glyph] has inserted:
    when the native buffer that FreeType left in the glyph slot holds
    [rows] rows of [stride] samples, with [stride] at least the logical
    [width], the stored array has exactly [rows] rows of exactly [width]
    unsigned bytes, row [i] being the first [width] samples of native row
    [i]: the padding beyond them is gone. *)
Theorem bitmap_shape f char s s' :
  _load_glyph f char s = (Ok (), s') →
  ∃ face o glyph g,
    _font_dict s' !! font_key (f_face f) (f_size f) (f_bold f) (f_italic f)
      = Some face
    ∧ faces s' !! face = Some o
    ∧ dict_get char (glyphs_dict s') = Some glyph
    ∧ glyph_objs s' !! glyph = Some g
    ∧ ∀ stride,
        0 ≤ bm_width (slot_bitmap (face_glyph o)) →
        bm_width (slot_bitmap (face_glyph o)) ≤ stride →
        Z.of_nat (length (bm_buffer (slot_bitmap (face_glyph o))))
          = bm_rows (slot_bitmap (face_glyph o)) * stride →
        np.nrows (g_bitmap g) = bm_rows (slot_bitmap (face_glyph o))
        ∧ length (np.rows_of (g_bitmap g))
          = Z.to_nat (bm_rows (slot_bitmap (face_glyph o)))
        ∧ Forall (λ r, length r = Z.to_nat (bm_width (slot_bitmap (face_glyph o))))
                 (np.rows_of (g_bitmap g))
        ∧ (∀ (i : nat) r, np.rows_of (g_bitmap g) !! i = Some r →
             r = (λ v, v `mod` 256) <$>
                   take (Z.to_nat (bm_width (slot_bitmap (face_glyph o))))
                        (drop (i * Z.to_nat stride)
                              (bm_buffer (slot_bitmap (face_glyph o)))))
        ∧ np.data (g_bitmap g) = concat (np.rows_of (g_bitmap g))
        ∧ Forall (λ v, 0 ≤ v < 256) (np.data (g_bitmap g)).
Proof.
  intros Hrun. apply _load_glyph_Ok_inv in Hrun
    as (face & s1 & o & slot & bm & Hfont & Ho & Hload & Hbm & -> & _).
  set (g0 := mk_Glyph char (bitmap_left slot, bitmap_top slot) bm
                      (div64 (advance_x slot)) ∅).
  destruct (apply_stores_lookup
              (sweep_stores (FT_Get_Kerning (fname o) (f_size f * 64)) char
                 (length (glyph_objs s1))
                 (dict_set char (length (glyph_objs s1)) (glyphs_dict s1)))
              (glyph_objs s1 ++ [g0]) (length (glyph_objs s1)) g0)
    as (g & Hg & _ & _ & Hbitmap & _ & _).
  { apply list_lookup_middle, eq_refl. }
  exists face, (mk_Face (fname o) (f_size f * 64) slot), (length (glyph_objs s1)), g.
  unfold loaded, swept, inserted; cbn [_font_dict faces glyphs_dict glyph_objs].
  split; [by eapply _load_font_Ok_cached|].
  split; [apply list_lookup_insert_eq; by eapply lookup_lt_Some|].
  split; [apply dict_get_set_eq|]. split; [exact Hg|].
  cbn [face_glyph]. intros stride Hw Hws Hlen.
  pose proof (make_bitmap_Ok_rows _ _ _ _ Hbm) as Hrows.
  destruct (make_bitmap_shape _ _ _ stride Hrows Hw Hws Hlen) as (a & Ha & Hshape).
  rewrite Hbm in Ha. injection Ha as <-. by rewrite Hbitmap.
Qed.

(** C6.  A glyph whose native bitmap has no rows and an empty buffer is
    inserted like any other: the call returns, and the bitmap it stores
    has no rows.  The division of the buffer size by the height is made
    only on a non-empty buffer: [ZeroDivisionError] needs a non-empty
    buffer with a height of zero. *)
Theorem zero_height_total f char s face s1 o slot :
  Forall (λ r, (r < length (glyph_objs s))%nat) (glyphs_dict s).*2 →
  _load_font (f_face f) (f_size f) (f_bold f) (f_italic f) s = (Ok face, s1) →
  faces s1 !! face = Some o →
  FT_Load_Char (fname o) (f_size f * 64) char freetype_flags = Some slot →
  bm_rows (slot_bitmap slot) = 0 →
  bm_buffer (slot_bitmap slot) = [] →
  (∃ s' g,
     _load_glyph f char s = (Ok (), s')
     ∧ dict_get char (glyphs_dict s') = Some (length (glyph_objs s))
     ∧ glyph_objs s' !! length (glyph_objs s) = Some g
     ∧ np.nrows (g_bitmap g) = 0
     ∧ np.rows_of (g_bitmap g) = []
     ∧ np.data (g_bitmap g) = [])
  ∧ (∀ (buffer : list Z) (w h : Z),
       make_bitmap buffer w h = Raise ZeroDivisionError → buffer ≠ [] ∧ h = 0).
Proof.
  intros Hvalid Hfont Ho Hload Hrows Hbuf. split; [|apply make_bitmap_div_guard].
  destruct (make_bitmap_no_rows (bm_width (slot_bitmap slot)))
    as (bm & Hbm & Hn & Hr & Hd).
  rewrite <- Hbuf, <- Hrows in Hbm.
  pose proof (_load_glyph_Ok _ _ _ _ _ _ _ _ Hvalid Hfont Ho Hload Hbm) as Hrun.
  destruct (_load_glyph_dict _ _ _ _ Hrun) as (Hdict & _ & _).
  destruct (_load_font_frame _ _ _ _ _ _ _ Hfont) as [Hobjs _].
  set (g0 := mk_Glyph char (bitmap_left slot, bitmap_top slot) bm
                      (div64 (advance_x slot)) ∅).
  destruct (apply_stores_lookup
              (sweep_stores (FT_Get_Kerning (fname o) (f_size f * 64)) char
                 (length (glyph_objs s1))
                 (dict_set char (length (glyph_objs s1)) (glyphs_dict s1)))
              (glyph_objs s1 ++ [g0]) (length (glyph_objs s1)) g0)
    as (g & Hg & _ & _ & Hbitmap & _ & _).
  { apply list_lookup_middle, eq_refl. }
  exists (loaded f char face o slot bm s1), g.
  split; [done|]. split; [rewrite Hdict; apply dict_get_set_eq|].
  rewrite <- Hobjs. split; [exact Hg|]. by rewrite Hbitmap.
Qed.

(** C10.  After [_load_glyph] has inserted the glyph for [char], the dict
    binds [char] to that glyph record, and its kerning dict has an entry
    under [char] itself: the loop runs over the dict after the insertion,
    so one of its items is the new glyph. *)
Theorem self_kerning_entry f char s s' :
  _load_glyph f char s = (Ok (), s') →
  ∃ glyph g,
    dict_get char (glyphs_dict s') = Some glyph
    ∧ glyph = length (glyph_objs s)
    ∧ glyph_objs s' !! glyph = Some g
    ∧ g_char g = char
    ∧ is_Some (g_kerning g !! char)
    ∧ (count_stores glyph char (trace s) < count_stores glyph char (trace s'))%nat.
Proof.
  intros Hrun. apply _load_glyph_Ok_inv in Hrun
    as (face & s1 & o & slot & bm & Hfont & Ho & Hload & Hbm & -> & _).
  destruct (_load_font_frame _ _ _ _ _ _ _ Hfont) as [Hobjs Hdict].
  unfold loaded, swept; cbn [glyph_objs glyphs_dict trace inserted].
  set (glyph := length (glyph_objs s1)).
  set (items := dict_set char glyph (glyphs_dict s1)).
  set (K := FT_Get_Kerning (fname o) (f_size f * 64)).
  set (g0 := mk_Glyph char _ bm _ ∅).
  assert ((glyph, char, div64 (K char char)) ∈ sweep_stores K char glyph items)
    as Hself.
  { apply elem_of_sweep_stores. exists char, glyph.
    split; [apply dict_set_elem_of|by left]. }
  assert ((glyph_objs s1 ++ [g0]) !! glyph = Some g0) as Hg0
    by apply list_lookup_middle, eq_refl.
  destruct (apply_stores_lookup (sweep_stores K char glyph items) _ _ _ Hg0)
    as (g & Hg & Hchar & _ & _ & _ & Hk).
  exists glyph, g. repeat split; try done.
  - apply dict_get_set_eq.
  - by rewrite <- Hobjs.
  - rewrite Hk. apply entry_after_is_Some. right. eauto.
  - rewrite count_stores_app, count_stores_sweep.
    rewrite (_load_font_count _ _ _ _ _ _ _ glyph char Hfont).
    rewrite decide_True by done.
    assert (0 < length (filter (λ o, o = char) items.*1))%nat; [|lia].
    apply filter_eq_pos. apply dict_set_keys_elem_of. by left.
Qed.

End LoadGlyph.

(** ** The demo font at work *)

Section Demo.
Existing Instance demo.freetype.

Example demo_load_AVT :
  load_glyphs demo.arial12 ["A"; "V"; "T"] demo.store0
  = (Ok (), demo.after ["A"; "V"; "T"] demo.store0).
Proof. vm_compute. reflexivity. Qed.

Example demo_dict_AVT :
  glyphs_dict (demo.after ["A"; "V"; "T"] demo.store0)
  = [("A", 0%nat); ("V", 1%nat); ("T", 2%nat)].
Proof. vm_compute. reflexivity. Qed.

Example demo_bitmap_A :
  g_bitmap <$> glyph_objs (demo.after ["A"] demo.store0) !! 0%nat
  = Some (np.mk_ndarray 2 3 [0; 255; 0; 255; 0; 255]).
Proof. vm_compute. reflexivity. Qed.

Example demo_blank : fst (_load_glyph demo.arial12 " " demo.store0) = Ok ().
Proof. vm_compute. reflexivity. Qed.

Example make_bitmap_padded :
  make_bitmap [1; 2; 300; 0; 4; 5; 6; 0] 3 2
  = Ok (np.mk_ndarray 2 3 [1; 2; 44; 4; 5; 6]).
Proof. reflexivity. Qed.

Example make_bitmap_div0 : make_bitmap [1; 2] 1 0 = Raise ZeroDivisionError.
Proof. reflexivity. Qed.

Example font_key_arial : font_key "Arial" 12 false false = "Arial-12-False-False".
Proof. reflexivity. Qed.

(** *** C1 at work: "V" loaded after "A" *)

Lemma kerning_completeness_witness :
  wf_glyphs (demo.after ["A"] demo.store0)
  ∧ _load_glyph demo.arial12 "V" (demo.after ["A"] demo.store0)
    = (Ok (), demo.after ["A"; "V"] demo.store0)
  ∧ ∃ face o glyph g,
      _font_dict (demo.after ["A"; "V"] demo.store0)
        !! font_key "Arial" 12 false false = Some face
      ∧ faces (demo.after ["A"; "V"] demo.store0) !! face = Some o
      ∧ dict_get "V" (glyphs_dict (demo.after ["A"; "V"] demo.store0)) = Some glyph
      ∧ glyph_objs (demo.after ["A"; "V"] demo.store0) !! glyph = Some g
      ∧ g_char g = "V"
      ∧ ∀ other_char,
          other_char ∈ (glyphs_dict (demo.after ["A"] demo.store0)).*1 →
          g_kerning g !! other_char
            = Some (div64 (FT_Get_Kerning (fname o) (char_size o) other_char "V"))
          ∧ ∃ other_glyph og,
              dict_get other_char (glyphs_dict (demo.after ["A"; "V"] demo.store0))
                = Some other_glyph
              ∧ (other_char ≠ "V" →
                 dict_get other_char (glyphs_dict (demo.after ["A"] demo.store0))
                   = Some other_glyph)
              ∧ glyph_objs (demo.after ["A"; "V"] demo.store0) !! other_glyph = Some og
              ∧ g_kerning og !! "V"
                = Some (div64 (FT_Get_Kerning (fname o) (char_size o) "V" other_char)).
Proof.
  assert (wf_glyphs (demo.after ["A"] demo.store0)) as Hwf.
  { apply (bool_decide_unpack _). vm_compute. exact I. }
  assert (_load_glyph demo.arial12 "V" (demo.after ["A"] demo.store0)
          = (Ok (), demo.after ["A"; "V"] demo.store0)) as Hrun.
  { vm_compute. reflexivity. }
  split; [exact Hwf|]. split; [exact Hrun|].
  exact (kerning_completeness demo.arial12 "V" _ _ Hwf Hrun).
Defined.

(** *** C2: the claim fails on "A", "V", "T"; what holds instead *)

Lemma sweep_excludes_inserted_counterexample :
  load_glyphs demo.arial12 ["A"; "V"; "T"] demo.store0
  = (Ok (), demo.after ["A"; "V"; "T"] demo.store0)
  ∧ demo.kerning_entries (demo.after ["A"; "V"; "T"] demo.store0) = 9%nat
  ∧ demo.kerning_entries (demo.after ["A"; "V"; "T"] demo.store0) ≠ 6%nat
  ∧ ∃ r g,
      dict_get "A" (glyphs_dict (demo.after ["A"; "V"; "T"] demo.store0)) = Some r
      ∧ glyph_objs (demo.after ["A"; "V"; "T"] demo.store0) !! r = Some g
      ∧ g_char g = "A"
      ∧ g_kerning g !! "A" = Some (div64 0)
      ∧ dom (g_kerning g) ≠ ({["V"; "T"]} : gset string).
Proof.
  split; [vm_compute; reflexivity|].
  split; [vm_compute; reflexivity|].
  split; [vm_compute; discriminate|].
  eexists _, _. split; [vm_compute; reflexivity|].
  split; [vm_compute; reflexivity|].
  split; [reflexivity|]. split; [vm_compute; reflexivity|].
  intros Hdom.
  assert ("A" ∈ ({["V"; "T"]} : gset string)) as Hin.
  { rewrite <- Hdom. apply elem_of_dom. vm_compute. eauto. }
  apply elem_of_union in Hin as [Hin|Hin];
    apply elem_of_singleton in Hin; discriminate.
Qed.

Lemma sweep_covers_every_glyph_witness :
  glyphs_dict demo.store0 = []
  ∧ load_glyphs demo.arial12 ["A"; "V"; "T"] demo.store0
    = (Ok (), demo.after ["A"; "V"; "T"] demo.store0)
  ∧ (glyphs_dict (demo.after ["A"; "V"; "T"] demo.store0)).*1 = ["A"; "V"; "T"]
  ∧ ∀ c, c ∈ ["A"; "V"; "T"] →
      ∃ r g,
        dict_get c (glyphs_dict (demo.after ["A"; "V"; "T"] demo.store0)) = Some r
        ∧ glyph_objs (demo.after ["A"; "V"; "T"] demo.store0) !! r = Some g
        ∧ g_char g = c
        ∧ dom (g_kerning g) = ({["A"; "V"; "T"]} : gset string)
        ∧ size (g_kerning g) = 3%nat.
Proof.
  split; [reflexivity|]. split; [vm_compute; reflexivity|].
  apply (sweep_covers_every_glyph demo.arial12 demo.store0).
  - reflexivity.
  - vm_compute. reflexivity.
Defined.

(** *** C3: a second "A" is not rejected *)

Lemma duplicate_insertion_counterexample :
  "A" ∈ (glyphs_dict (demo.after ["A"] demo.store0)).*1
  ∧ _load_glyph demo.arial12 "A" (demo.after ["A"] demo.store0)
    = (Ok (), demo.after ["A"; "A"] demo.store0)
  ∧ glyphs_dict (demo.after ["A"] demo.store0) = [("A", 0%nat)]
  ∧ glyphs_dict (demo.after ["A"; "A"] demo.store0) = [("A", 1%nat)]
  ∧ ¬ ∃ s', _load_glyph demo.arial12 "A" (demo.after ["A"] demo.store0)
            = (Raise DuplicateGlyphError, s')
          ∧ glyphs_dict s' = glyphs_dict (demo.after ["A"] demo.store0).
Proof.
  split; [vm_compute; left|].
  assert (_load_glyph demo.arial12 "A" (demo.after ["A"] demo.store0)
          = (Ok (), demo.after ["A"; "A"] demo.store0)) as Hrun
    by (vm_compute; reflexivity).
  split; [exact Hrun|].
  split; [vm_compute; reflexivity|]. split; [vm_compute; reflexivity|].
  intros (s' & Hraise & _). rewrite Hrun in Hraise. discriminate.
Qed.

Lemma duplicate_insertion_rebinds_witness :
  "A" ∈ (glyphs_dict (demo.after ["A"; "V"] demo.store0)).*1
  ∧ NoDup (glyphs_dict (demo.after ["A"; "V"] demo.store0)).*2
  ∧ ∃ s' g,
      _load_glyph demo.arial12 "A" (demo.after ["A"; "V"] demo.store0) = (Ok (), s')
      ∧ (glyphs_dict s').*1 = (glyphs_dict (demo.after ["A"; "V"] demo.store0)).*1
      ∧ dict_get "A" (glyphs_dict s')
        = Some (length (glyph_objs (demo.after ["A"; "V"] demo.store0)))
      ∧ length (glyph_objs s')
        = S (length (glyph_objs (demo.after ["A"; "V"] demo.store0)))
      ∧ glyph_objs s' !! length (glyph_objs (demo.after ["A"; "V"] demo.store0))
        = Some g
      ∧ g_char g = "A"
      ∧ g_bitmap g = np.mk_ndarray 2 3 [0; 255; 0; 255; 0; 255]
      ∧ g_offset g = (1, 7)
      ∧ g_advance g = div64 640
      ∧ (∀ other_char,
           other_char ∈ (glyphs_dict (demo.after ["A"; "V"] demo.store0)).*1 →
           g_kerning g !! other_char
           = Some (div64 (FT_Get_Kerning "/usr/share/fonts/arial.ttf" (12 * 64)
                            other_char "A")))
      ∧ (NoDup (glyphs_dict (demo.after ["A"; "V"] demo.store0)).*2 →
         ∀ other_char other_glyph,
           other_char ≠ "A" →
           dict_get other_char (glyphs_dict (demo.after ["A"; "V"] demo.store0))
             = Some other_glyph →
           ∃ og,
             dict_get other_char (glyphs_dict s') = Some other_glyph
             ∧ glyph_objs s' !! other_glyph = Some og
             ∧ g_kerning og !! "A"
               = Some (div64 (FT_Get_Kerning "/usr/share/fonts/arial.ttf" (12 * 64)
                                "A" other_char))).
Proof.
  assert ("A" ∈ (glyphs_dict (demo.after ["A"; "V"] demo.store0)).*1) as Hin
    by (vm_compute; left).
  split; [exact Hin|].
  split; [apply (bool_decide_unpack _); vm_compute; exact I|].
  refine (proj2 (duplicate_insertion_rebinds demo.arial12 "A" _ Hin)
            0%nat (demo.after ["A"; "V"] demo.store0)
            (mk_Face "/usr/share/fonts/arial.ttf" 768
               (mk_FT_GlyphSlot
                  (mk_FT_Bitmap 2 3 [255; 0; 255; 9; 0; 255; 0; 9]) 0 7 600))
            (mk_FT_GlyphSlot (mk_FT_Bitmap 2 3 [0; 255; 0; 9; 255; 0; 255; 9]) 1 7 640)
            (np.mk_ndarray 2 3 [0; 255; 0; 255; 0; 255]) _ _ _ _ _).
  - apply (bool_decide_unpack _). vm_compute. exact I.
  - vm_compute. reflexivity.
  - vm_compute. reflexivity.
  - vm_compute. reflexivity.
  - vm_compute. reflexivity.
Defined.

(** *** C4 and C7: the cache *)

Lemma cache_identity_witness :
  _load_font "Arial" 12 false false demo.store0
  = (Ok 0%nat, (_load_font "Arial" 12 false false demo.store0).2)
  ∧ ∃ s2,
      _load_font "Arial" 12 false false
        (_load_font "Arial" 12 false false demo.store0).2 = (Ok 0%nat, s2)
      ∧ s2 = (_load_font "Arial" 12 false false demo.store0).2
      ∧ trace s2 = trace (_load_font "Arial" 12 false false demo.store0).2
      ∧ faces s2 = faces (_load_font "Arial" 12 false false demo.store0).2
      ∧ _font_dict s2 = _font_dict (_load_font "Arial" 12 false false demo.store0).2.
Proof.
  assert (_load_font "Arial" 12 false false demo.store0
          = (Ok 0%nat, (_load_font "Arial" 12 false false demo.store0).2)) as Hfirst
    by (vm_compute; reflexivity).
  split; [exact Hfirst|].
  exact (cache_identity "Arial" 12 false false demo.store0 0%nat _ Hfirst).
Defined.

Example demo_cache_trace :
  trace (_load_font "Arial" 12 false false
           (_load_font "Arial" 12 false false demo.store0).2).2
  = [EvFindFont "Arial" 12 false false; EvNewFace "/usr/share/fonts/arial.ttf"].
Proof. vm_compute. reflexivity. Qed.

Lemma failed_resolution_commits_nothing_witness :
  _font_dict demo.store0 !! font_key "NoSuchFont-XYZ" 12 false false = None
  ∧ find_font "NoSuchFont-XYZ" 12 false false = None
  ∧ ∃ s',
      _load_font "NoSuchFont-XYZ" 12 false false demo.store0
      = (Raise FontNotFoundError, s')
      ∧ _font_dict s' = _font_dict demo.store0
      ∧ _font_dict s' !! font_key "NoSuchFont-XYZ" 12 false false = None
      ∧ faces s' = faces demo.store0
      ∧ Forall (λ ev, ∀ fname, ev ≠ EvNewFace fname)
               (drop (length (trace demo.store0)) (trace s')).
Proof.
  split; [reflexivity|]. split; [reflexivity|].
  apply failed_resolution_commits_nothing; reflexivity.
Defined.

(** *** C5 and C6: the bitmap *)

Lemma bitmap_shape_witness :
  _load_glyph demo.arial12 "A" demo.store0 = (Ok (), demo.after ["A"] demo.store0)
  ∧ ∃ face o glyph g,
      _font_dict (demo.after ["A"] demo.store0)
        !! font_key "Arial" 12 false false = Some face
      ∧ faces (demo.after ["A"] demo.store0) !! face = Some o
      ∧ dict_get "A" (glyphs_dict (demo.after ["A"] demo.store0)) = Some glyph
      ∧ glyph_objs (demo.after ["A"] demo.store0) !! glyph = Some g
      ∧ ∀ stride,
          0 ≤ bm_width (slot_bitmap (face_glyph o)) →
          bm_width (slot_bitmap (face_glyph o)) ≤ stride →
          Z.of_nat (length (bm_buffer (slot_bitmap (face_glyph o))))
            = bm_rows (slot_bitmap (face_glyph o)) * stride →
          np.nrows (g_bitmap g) = bm_rows (slot_bitmap (face_glyph o))
          ∧ length (np.rows_of (g_bitmap g))
            = Z.to_nat (bm_rows (slot_bitmap (face_glyph o)))
          ∧ Forall (λ r, length r = Z.to_nat (bm_width (slot_bitmap (face_glyph o))))
                   (np.rows_of (g_bitmap g))
          ∧ (∀ (i : nat) r, np.rows_of (g_bitmap g) !! i = Some r →
               r = (λ v, v `mod` 256) <$>
                     take (Z.to_nat (bm_width (slot_bitmap (face_glyph o))))
                          (drop (i * Z.to_nat stride)
                                (bm_buffer (slot_bitmap (face_glyph o)))))
          ∧ np.data (g_bitmap g) = concat (np.rows_of (g_bitmap g))
          ∧ Forall (λ v, 0 ≤ v < 256) (np.data (g_bitmap g)).
Proof.
  assert (_load_glyph demo.arial12 "A" demo.store0
          = (Ok (), demo.after ["A"] demo.store0)) as Hrun
    by (vm_compute; reflexivity).
  split; [exact Hrun|].
  exact (bitmap_shape demo.arial12 "A" _ _ Hrun).
Defined.

(** The native bitmap of "A" has two rows of four samples, three of them
    logical. *)
Example demo_native_A :
  ∃ o, faces (demo.after ["A"] demo.store0) !! 0%nat = Some o
     ∧ bm_rows (slot_bitmap (face_glyph o)) = 2
     ∧ bm_width (slot_bitmap (face_glyph o)) = 3
     ∧ Z.of_nat (length (bm_buffer (slot_bitmap (face_glyph o)))) = 2 * 4.
Proof. eexists. split; [vm_compute; reflexivity|]. by vm_compute. Qed.

Lemma zero_height_total_witness :
  Forall (λ r, (r < length (glyph_objs demo.store0))%nat) (glyphs_dict demo.store0).*2
  ∧ _load_font "Arial" 12 false false demo.store0
    = (Ok 0%nat, (_load_font "Arial" 12 false false demo.store0).2)
  ∧ faces (_load_font "Arial" 12 false false demo.store0).2 !! 0%nat
    = Some (mk_Face "/usr/share/fonts/arial.ttf" 0 blank_slot)
  ∧ FT_Load_Char "/usr/share/fonts/arial.ttf" (12 * 64) " " freetype_flags
    = Some (mk_FT_GlyphSlot (mk_FT_Bitmap 0 0 []) 0 0 256)
  ∧ (∃ s' g,
       _load_glyph demo.arial12 " " demo.store0 = (Ok (), s')
       ∧ dict_get " " (glyphs_dict s') = Some (length (glyph_objs demo.store0))
       ∧ glyph_objs s' !! length (glyph_objs demo.store0) = Some g
       ∧ np.nrows (g_bitmap g) = 0
       ∧ np.rows_of (g_bitmap g) = []
       ∧ np.data (g_bitmap g) = [])
  ∧ (∀ (buffer : list Z) (w h : Z),
       make_bitmap buffer w h = Raise ZeroDivisionError → buffer ≠ [] ∧ h = 0).
Proof.
  split; [constructor|]. split; [vm_compute; reflexivity|].
  split; [vm_compute; reflexivity|]. split; [reflexivity|].
  apply (zero_height_total demo.arial12 " " demo.store0 0%nat
           (_load_font "Arial" 12 false false demo.store0).2
           (mk_Face "/usr/share/fonts/arial.ttf" 0 blank_slot)
           (mk_FT_GlyphSlot (mk_FT_Bitmap 0 0 []) 0 0 256)).
  - constructor.
  - vm_compute. reflexivity.
  - vm_compute. reflexivity.
  - reflexivity.
  - reflexivity.
  - reflexivity.
Defined.

(** *** C8: a character the font does not have *)

Lemma failed_rasterization_commits_nothing_witness :
  _load_font "Arial" 12 false false (demo.after ["A"] demo.store0)
  = (Ok 0%nat, demo.after ["A"] demo.store0)
  ∧ faces (demo.after ["A"] demo.store0) !! 0%nat
    = Some (mk_Face "/usr/share/fonts/arial.ttf" 768
              (mk_FT_GlyphSlot
                 (mk_FT_Bitmap 2 3 [0; 255; 0; 9; 255; 0; 255; 9]) 1 7 640))
  ∧ FT_Load_Char "/usr/share/fonts/arial.ttf" (12 * 64) "?" freetype_flags = None
  ∧ ∃ s',
      _load_glyph demo.arial12 "?" (demo.after ["A"] demo.store0)
      = (Raise GlyphLoadError, s')
      ∧ glyphs_dict s' = glyphs_dict (demo.after ["A"] demo.store0)
      ∧ glyph_objs s' = glyph_objs (demo.after ["A"] demo.store0)
      ∧ dict_get "?" (glyphs_dict s')
        = dict_get "?" (glyphs_dict (demo.after ["A"] demo.store0)).
Proof.
  split; [vm_compute; reflexivity|]. split; [vm_compute; reflexivity|].
  split; [reflexivity|].
  apply (failed_rasterization_commits_nothing demo.arial12 "?" _ 0%nat
           (demo.after ["A"] demo.store0)
           (mk_Face "/usr/share/fonts/arial.ttf" 768
              (mk_FT_GlyphSlot
                 (mk_FT_Bitmap 2 3 [0; 255; 0; 9; 255; 0; 255; 9]) 1 7 640))).
  - vm_compute. reflexivity.
  - vm_compute. reflexivity.
  - reflexivity.
Defined.

(** *** C9: "A" loaded twice; and "A", "V", "T" loaded once each *)

Lemma kerning_rewritten_counterexample :
  load_glyphs demo.arial12 ["A"; "V"] demo.store0
  = (Ok (), demo.after ["A"; "V"] demo.store0)
  ∧ _load_glyph demo.arial12 "A" (demo.after ["A"; "V"] demo.store0)
    = (Ok (), demo.after ["A"; "V"; "A"] demo.store0)
  ∧ dict_get "V" (glyphs_dict (demo.after ["A"; "V"] demo.store0)) = Some 1%nat
  ∧ dict_get "V" (glyphs_dict (demo.after ["A"; "V"; "A"] demo.store0)) = Some 1%nat
  ∧ count_stores 1 "A" (trace (demo.after ["A"; "V"] demo.store0)) = 1%nat
  ∧ count_stores 1 "A" (trace (demo.after ["A"; "V"; "A"] demo.store0)) = 2%nat
  ∧ dict_get "A" (glyphs_dict (demo.after ["A"] demo.store0)) = Some 0%nat
  ∧ count_stores 0 "A" (trace (demo.after ["A"] demo.store0)) = 2%nat.
Proof.
  split; [vm_compute; reflexivity|]. split; [vm_compute; reflexivity|].
  split; [vm_compute; reflexivity|]. split; [vm_compute; reflexivity|].
  split; [vm_compute; reflexivity|]. split; [vm_compute; reflexivity|].
  split; vm_compute; reflexivity.
Qed.

Lemma kerning_written_once_witness :
  glyphs_dict demo.store0 = []
  ∧ NoDup (["A"] ++ "V" :: ["T"])
  ∧ "A" ∈ ["A"]
  ∧ load_glyphs demo.arial12 ["A"] demo.store0 = (Ok (), demo.after ["A"] demo.store0)
  ∧ _load_glyph demo.arial12 "V" (demo.after ["A"] demo.store0)
    = (Ok (), demo.after ["A"; "V"] demo.store0)
  ∧ load_glyphs demo.arial12 ["T"] (demo.after ["A"; "V"] demo.store0)
    = (Ok (), demo.after ["A"; "V"; "T"] demo.store0)
  ∧ ∃ rx ry,
      dict_get "V" (glyphs_dict (demo.after ["A"; "V"; "T"] demo.store0)) = Some rx
      ∧ dict_get "A" (glyphs_dict (demo.after ["A"; "V"; "T"] demo.store0)) = Some ry
      ∧ dict_get "A" (glyphs_dict (demo.after ["A"] demo.store0)) = Some ry
      ∧ (count_stores rx "A" (trace (demo.after ["A"] demo.store0))
         = count_stores rx "A" (trace demo.store0)
         ∧ count_stores rx "A" (trace (demo.after ["A"; "V"] demo.store0))
           = S (count_stores rx "A" (trace (demo.after ["A"] demo.store0)))
         ∧ count_stores rx "A" (trace (demo.after ["A"; "V"; "T"] demo.store0))
           = count_stores rx "A" (trace (demo.after ["A"; "V"] demo.store0)))
      ∧ (count_stores ry "V" (trace (demo.after ["A"] demo.store0))
         = count_stores ry "V" (trace demo.store0)
         ∧ count_stores ry "V" (trace (demo.after ["A"; "V"] demo.store0))
           = S (count_stores ry "V" (trace (demo.after ["A"] demo.store0)))
         ∧ count_stores ry "V" (trace (demo.after ["A"; "V"; "T"] demo.store0))
           = count_stores ry "V" (trace (demo.after ["A"; "V"] demo.store0))).
Proof.
  assert (NoDup (["A"] ++ "V" :: ["T"])) as Hnd.
  { apply (bool_decide_unpack _). vm_compute. exact I. }
  assert ("A" ∈ ["A"]) as Hin by left.
  split; [reflexivity|]. split; [exact Hnd|]. split; [exact Hin|].
  split; [vm_compute; reflexivity|]. split; [vm_compute; reflexivity|].
  split; [vm_compute; reflexivity|].
  apply (kerning_written_once demo.arial12 ["A"] "V" ["T"] "A" demo.store0
           (demo.after ["A"] demo.store0) (demo.after ["A"; "V"] demo.store0)
           (demo.after ["A"; "V"; "T"] demo.store0)).
  - reflexivity.
  - exact Hnd.
  - exact Hin.
  - vm_compute. reflexivity.
  - vm_compute. reflexivity.
  - vm_compute. reflexivity.
Defined.

(** *** C10: "A" alone *)

Lemma self_kerning_entry_witness :
  _load_glyph demo.arial12 "A" demo.store0 = (Ok (), demo.after ["A"] demo.store0)
  ∧ ∃ glyph g,
      dict_get "A" (glyphs_dict (demo.after ["A"] demo.store0)) = Some glyph
      ∧ glyph = length (glyph_objs demo.store0)
      ∧ glyph_objs (demo.after ["A"] demo.store0) !! glyph = Some g
      ∧ g_char g = "A"
      ∧ is_Some (g_kerning g !! "A")
      ∧ (count_stores glyph "A" (trace demo.store0)
         < count_stores glyph "A" (trace (demo.after ["A"] demo.store0)))%nat.
Proof.
  assert (_load_glyph demo.arial12 "A" demo.store0
          = (Ok (), demo.after ["A"] demo.store0)) as Hrun
    by (vm_compute; reflexivity).
  split; [exact Hrun|].
  exact (self_kerning_entry demo.arial12 "A" _ _ Hrun).
Defined.

End Demo.

(** * Further properties *)

(** ** The reshape of lines 47-50, case by case *)

Section BitmapOutcomes.

(** The three ways of [make_bitmap], by the length of the buffer and the
    height. *)
Lemma make_bitmap_cases (buffer : list Z) (width height : Z) :
  (make_bitmap buffer width height = Raise ZeroDivisionError
   ↔ buffer ≠ [] ∧ height = 0)
  ∧ (make_bitmap buffer width height = Raise ValueError
     ↔ height < 0 ∨ (0 < height ∧ Z.of_nat (length buffer) `mod` height ≠ 0))
  ∧ ((∃ a, make_bitmap buffer width height = Ok a)
     ↔ (buffer = [] ∧ 0 ≤ height)
       ∨ (0 < height ∧ Z.of_nat (length buffer) `mod` height = 0)).
Proof.
  set (size := Z.of_nat (length buffer)).
  assert (buffer = [] ↔ size = 0) as Hnil.
  { subst size. destruct buffer; simpl; split; intros; try done; lia. }
  assert (0 ≤ size) as Hsize by (subst size; lia).
  assert (make_bitmap buffer width height = Raise ZeroDivisionError
          ∨ make_bitmap buffer width height = Raise ValueError
          ∨ ∃ a, make_bitmap buffer width height = Ok a) as Hres.
  { destruct (make_bitmap buffer width height) as [a|e] eqn:Hm; [eauto|].
    destruct (make_bitmap_Raise _ _ _ _ Hm) as [->| ->]; auto. }
  assert (make_bitmap buffer width height = Raise ZeroDivisionError
          → buffer ≠ [] ∧ height = 0) as HZ by apply make_bitmap_div_guard.
  assert (make_bitmap buffer width height = Raise ValueError
          → height < 0 ∨ (0 < height ∧ size `mod` height ≠ 0)) as HV.
  { unfold make_bitmap, np.floordiv, np.set_shape. fold size.
    destruct (decide (0 < size)) as [Hsz|Hsz]; simpl.
    - destruct (decide (height = 0)) as [->|Hh]; simpl; [discriminate|].
      case_decide as Hshape; simpl; [discriminate|]. intros _.
      destruct (decide (0 < height)) as [Hpos|Hneg]; [|left; lia].
      right. split; [done|]. intros Hmod. apply Hshape.
      pose proof (Z.div_mod size height Hh).
      pose proof (Z.div_pos size height ltac:(lia) Hpos). lia.
    - case_decide as Hshape; simpl; [discriminate|]. intros _. left. lia. }
  assert ((∃ a, make_bitmap buffer width height = Ok a)
          → (buffer = [] ∧ 0 ≤ height) ∨ (0 < height ∧ size `mod` height = 0)) as HO.
  { intros [a Ha]. pose proof (make_bitmap_Ok_rows _ _ _ _ Ha) as Hrows.
    revert Ha. unfold make_bitmap, np.floordiv, np.set_shape. fold size.
    destruct (decide (0 < size)) as [Hsz|Hsz]; simpl.
    - destruct (decide (height = 0)) as [->|Hh]; simpl; [discriminate|].
      case_decide as Hshape; simpl; [|discriminate]. intros _. right.
      split; [lia|]. pose proof (Z.div_mod size height Hh). lia.
    - intros _. left. split; [apply Hnil; lia|done]. }
  assert (∀ e a, make_bitmap buffer width height = Raise e →
                 make_bitmap buffer width height = Ok a → False) as Hexcl
    by (intros e a -> [=]).
  split; [|split]; (split; [auto|]).
  - intros [Hne ->]. destruct Hres as [?|[Hv|Ho]]; [done|..].
    + apply HV in Hv. lia.
    + apply HO in Ho as [[? _]|[? _]]; [done|lia].
  - intros Hcond. destruct Hres as [Hz|[?|Ho]]; [|done|].
    + apply HZ in Hz as [_ ->]. lia.
    + apply HO in Ho as [[Hb ?]|[? ?]]; [|lia].
      destruct Hcond as [?|[? Hm]]; [lia|]. exfalso. apply Hm.
      apply Hnil in Hb. rewrite Hb. apply Z.mod_0_l. lia.
  - intros Hcond. destruct Hres as [Hz|[Hv|?]]; [..|done].
    + apply HZ in Hz as [Hne ->].
      destruct Hcond as [[? _]|[? _]]; [done|lia].
    + apply HV in Hv. exfalso. destruct Hcond as [[Hb ?]|[? ?]]; [|lia].
      apply Hnil in Hb. destruct Hv as [?|[? Hm]]; [lia|].
      rewrite Hb in Hm. by rewrite Z.mod_0_l in Hm by lia.
Qed.

(** X1.  What the reshape does with what FreeType hands over, a buffer
    of bytes and a row count that fits a C [unsigned int]: it divides by
    zero exactly on a non-empty buffer with no rows; numpy refuses the
    shape exactly when the rows do not divide the buffer; in every other
    case a bitmap is made.  The width plays no part in it. *)
Theorem make_bitmap_outcomes (buffer : list Z) (width height : Z) :
  Forall (λ v, 0 ≤ v < 256) buffer →
  0 ≤ height < 2 ^ 32 →
  (make_bitmap buffer width height = Raise ZeroDivisionError
   ↔ buffer ≠ [] ∧ height = 0)
  ∧ (make_bitmap buffer width height = Raise ValueError
     ↔ 0 < height ∧ Z.of_nat (length buffer) `mod` height ≠ 0)
  ∧ ((∃ a, make_bitmap buffer width height = Ok a)
     ↔ buffer = [] ∨ (0 < height ∧ Z.of_nat (length buffer) `mod` height = 0)).
Proof.
  intros _ Hheight.
  destruct (make_bitmap_cases buffer width height) as (HZ & HV & HO).
  split; [exact HZ|]. split.
  - rewrite HV. split; [intros [?|?]; [lia|done]|by right].
  - rewrite HO. split.
    + intros [[? _]|?]; [by left|by right].
    + intros [?|?]; [left; split; [done|lia]|by right].
Qed.

End BitmapOutcomes.

Section BitmapClip.

(** The rows of the bitmap made from [height] rows of [stride] samples. *)
Lemma make_bitmap_rows (buffer : list Z) (width height stride : Z) :
  0 < height → 0 ≤ width →
  Z.of_nat (length buffer) = height * stride →
  ∃ a, make_bitmap buffer width height = Ok a
     ∧ np.nrows a = height
     ∧ np.ncols a = Z.min width stride
     ∧ length (np.rows_of a) = Z.to_nat height
     ∧ ∀ (i : nat), (i < Z.to_nat height)%nat →
         np.rows_of a !! i
         = Some ((λ v, v `mod` 256) <$>
                   take (Z.to_nat (Z.min width stride))
                        (drop (i * Z.to_nat stride) buffer)).
Proof.
  intros Hh Hw Hlen.
  assert (0 ≤ stride) as Hs by nia.
  unfold make_bitmap.
  assert ((if decide (0 < Z.of_nat (length buffer))
           then np.floordiv (Z.of_nat (length buffer)) height else Ok 0)
          = Ok stride) as ->.
  { case_decide.
    - unfold np.floordiv. rewrite decide_False by lia.
      f_equal. rewrite Hlen, Z.mul_comm. apply Z.div_mul. lia.
    - f_equal. nia. }
  simpl. unfold np.set_shape. rewrite decide_True by lia. simpl.
  unfold np.astype_ubyte, np.slice_cols, np.rows_of, np.slice_stop; simpl.
  rewrite decide_False by lia.
  eexists; split; [done|]. simpl.
  set (hn := Z.to_nat height). set (sn := Z.to_nat stride).
  set (wn := Z.to_nat (Z.min width stride)).
  assert (hn * sn ≤ length buffer)%nat as Hfit.
  { subst hn sn. rewrite <- Z2Nat.inj_mul by lia. rewrite <- Hlen. lia. }
  assert (wn ≤ sn)%nat as Hwn by (subst wn sn; lia).
  assert (Forall (λ r, length r = wn) (take wn <$> np.chunks hn sn buffer)) as Hrows.
  { apply Forall_fmap. eapply Forall_impl; [by apply chunks_Forall_length|].
    intros r Hr; simpl in *. rewrite length_take. lia. }
  assert (np.chunks hn wn
            ((λ v, v `mod` 256) <$> concat (take wn <$> np.chunks hn sn buffer))
          = fmap (M:=list) (λ v, v `mod` 256) <$> (take wn <$> np.chunks hn sn buffer))
    as Heq.
  { rewrite chunks_fmap. f_equal. apply chunks_concat; [|done].
    by rewrite length_fmap, chunks_length. }
  rewrite Heq. repeat split.
  - by rewrite !length_fmap, chunks_length.
  - intros i Hi. rewrite !list_lookup_fmap, chunks_lookup by done. simpl.
    f_equal. f_equal. rewrite take_take. f_equal. lia.
Qed.

(** On bytes, the conversion to [np.ubyte] changes nothing. *)
Lemma fmap_mod256_bytes (l : list Z) :
  Forall (λ v, 0 ≤ v < 256) l → (λ v, v `mod` 256) <$> l = l.
Proof.
  induction 1 as [|v l Hv _ IH]; [done|]. csimpl.
  rewrite IH. f_equal. apply Z.mod_small. lia.
Qed.

(** X2.  A logical width beyond the row stride is no error.  For a buffer
    of bytes in [height] rows of [stride] samples, each stored row is the
    native row cut at the smaller of width and stride, its samples
    unchanged: with [stride < width] the rows keep their [stride] samples
    and the stored bitmap is narrower than the width FreeType reported. *)
Theorem make_bitmap_clips (buffer : list Z) (width height stride : Z) :
  Forall (λ v, 0 ≤ v < 256) buffer →
  0 < height < 2 ^ 32 → 0 ≤ width →
  Z.of_nat (length buffer) = height * stride →
  ∃ a, make_bitmap buffer width height = Ok a
     ∧ np.nrows a = height
     ∧ np.ncols a = Z.min width stride
     ∧ length (np.rows_of a) = Z.to_nat height
     ∧ ∀ (i : nat), (i < Z.to_nat height)%nat →
         np.rows_of a !! i
         = Some (take (Z.to_nat (Z.min width stride))
                      (drop (i * Z.to_nat stride) buffer)).
Proof.
  intros Hbytes [Hh _] Hw Hlen.
  destruct (make_bitmap_rows buffer width height stride Hh Hw Hlen)
    as (a & Hrun & Hrows & Hcols & Hn & Hrow).
  exists a. split; [done|]. split; [done|]. split; [done|]. split; [done|].
  intros i Hi. rewrite (Hrow i Hi). f_equal.
  apply fmap_mod256_bytes. by apply Forall_take, Forall_drop.
Qed.

End BitmapClip.

(** ** The cache *)

Section CacheMore.
Context `{FreeType}.

Lemma count_events_app p (t1 t2 : list Event) :
  count_events p (t1 ++ t2) = (count_events p t1 + count_events p t2)%nat.
Proof. unfold count_events. by rewrite filter_app, length_app. Qed.

Lemma count_events_stores p ws :
  (∀ g k v, p (EvKernStore g k v) = false) →
  count_events p (ev_store <$> ws) = 0%nat.
Proof.
  intros Hp. induction ws as [|[[g k] v] ws IH]; [done|].
  rewrite fmap_cons. unfold count_events in *. rewrite filter_cons. simpl.
  rewrite decide_False; [done|]. by rewrite Hp.
Qed.

(** The four ways [_load_font] ends, with the store each leaves. *)
Lemma _load_font_outcomes face size bold italic s r s' :
  _load_font face size bold italic s = (r, s') →
  let key := font_key face size bold italic in
  (∃ font, _font_dict s !! key = Some font ∧ r = Ok font ∧ s' = s)
  ∨ (_font_dict s !! key = None ∧ find_font face size bold italic = None
     ∧ r = Raise FontNotFoundError
     ∧ s' = emit (EvFindFont face size bold italic) s)
  ∨ (∃ fname, _font_dict s !! key = None
       ∧ find_font face size bold italic = Some fname ∧ FT_New_Face fname = false
       ∧ r = Raise FT_Exception
       ∧ s' = emit (EvNewFace fname) (emit (EvFindFont face size bold italic) s))
  ∨ (∃ fname, _font_dict s !! key = None
       ∧ find_font face size bold italic = Some fname ∧ FT_New_Face fname = true
       ∧ r = Ok (length (faces s))
       ∧ s' = set_font_dict <[key := length (faces s)]>
                (set_faces (λ h, h ++ [mk_Face fname 0 blank_slot])
                   (emit (EvNewFace fname)
                      (emit (EvFindFont face size bold italic) s)))).
Proof.
  intros Hrun key.
  destruct (_load_font_cases face size bold italic s) as [(font & Hk & Heq)|[Hk Heq]];
    rewrite Heq in Hrun.
  - left. exists font. by injection Hrun as <- <-.
  - right. unfold _load_font_on_miss in Hrun.
    destruct (find_font face size bold italic) as [fname|] eqn:Hfind.
    + right. destruct (FT_New_Face fname) eqn:Hnew; injection Hrun as <- <-.
      * right. by exists fname.
      * left. by exists fname.
    + left. by injection Hrun as <- <-.
Qed.

Lemma _load_font_cache_sub face size bold italic s r s' :
  _load_font face size bold italic s = (r, s') →
  (∀ k font, _font_dict s !! k = Some font → _font_dict s' !! k = Some font)
  ∧ (∀ k, k ≠ font_key face size bold italic →
          _font_dict s' !! k = _font_dict s !! k).
Proof.
  intros Hrun.
  destruct (_load_font_outcomes _ _ _ _ _ _ _ Hrun)
    as [(font & Hk & -> & ->)|[(Hk & Hfind & -> & ->)
        |[(fname & Hk & Hfind & Hnew & -> & ->)|(fname & Hk & Hfind & Hnew & -> & ->)]]];
    simpl; try done.
  split.
  - intros k font Hkfont. rewrite lookup_insert_ne; [done|]. intros <-. congruence.
  - intros k Hne. by rewrite lookup_insert_ne.
Qed.

Lemma _load_font_faces_sub face size bold italic s r s' :
  _load_font face size bold italic s = (r, s') →
  faces s' = faces s
  ∨ ∃ fname, find_font face size bold italic = Some fname
           ∧ r = Ok (length (faces s))
           ∧ faces s' = faces s ++ [mk_Face fname 0 blank_slot].
Proof.
  intros Hrun.
  destruct (_load_font_outcomes _ _ _ _ _ _ _ Hrun)
    as [(font & Hk & -> & ->)|[(Hk & Hfind & -> & ->)
        |[(fname & Hk & Hfind & Hnew & -> & ->)|(fname & Hk & Hfind & Hnew & -> & ->)]]];
    simpl; try (by left).
  right. by exists fname.
Qed.

Lemma _load_font_wf_fonts face size bold italic s r s' :
  _load_font face size bold italic s = (r, s') → wf_fonts s → wf_fonts s'.
Proof.
  intros Hrun.
  destruct (_load_font_outcomes _ _ _ _ _ _ _ Hrun)
    as [(font & Hk & -> & ->)|[(Hk & Hfind & -> & ->)
        |[(fname & Hk & Hfind & Hnew & -> & ->)|(fname & Hk & Hfind & Hnew & -> & ->)]]];
    try done.
  intros [Hvalid Hinj]. split; simpl.
  - intros k r. rewrite length_app, lookup_insert. simpl.
    case_decide; [intros [= <-]; lia|]. intros Hr%Hvalid. lia.
  - intros k1 k2 r. rewrite !lookup_insert.
    repeat case_decide; subst.
    + done.
    + intros [= <-] Hr%Hvalid. lia.
    + intros Hr%Hvalid [= <-]. lia.
    + apply Hinj.
Qed.

(** The calls a lookup makes: none on a hit, one to the resolver and at
    most one to the [Face] constructor on a miss. *)
Lemma _load_font_events face size bold italic s r s' :
  _load_font face size bold italic s = (r, s') →
  (is_Some (_font_dict s !! font_key face size bold italic) → trace s' = trace s)
  ∧ (count_events is_find_font (trace s')
     ≤ count_events is_find_font (trace s) + 1)%nat
  ∧ (count_events is_new_face (trace s')
     ≤ count_events is_new_face (trace s) + 1)%nat
  ∧ (∀ font, r = Ok font →
       _font_dict s' !! font_key face size bold italic = Some font).
Proof.
  intros Hrun.
  destruct (_load_font_outcomes _ _ _ _ _ _ _ Hrun)
    as [(font & Hk & -> & ->)|[(Hk & Hfind & -> & ->)
        |[(fname & Hk & Hfind & Hnew & -> & ->)|(fname & Hk & Hfind & Hnew & -> & ->)]]];
    simpl; rewrite ?Hk, ?count_events_app;
    (split; [try done; by intros [? [=]]|]);
    (split; [unfold count_events; simpl; lia|]);
    (split; [unfold count_events; simpl; lia|]); try done.
  - by intros ? [= <-].
  - intros ? [= <-]. apply lookup_insert_eq.
Qed.

(** X3.  The cache only grows.  Whatever a call of [_load_font] does,
    returning or raising, every key that was cached stays bound to the
    same [Face] object, no key but the requested one is touched, existing
    [Face] objects are left as they were (a new one is appended at most),
    and the cache still names only faces of the heap, no two keys the
    same one. *)
Theorem _load_font_monotone face size bold italic s r s' :
  _load_font face size bold italic s = (r, s') →
  (∀ k font, _font_dict s !! k = Some font → _font_dict s' !! k = Some font)
  ∧ (∀ k, k ≠ font_key face size bold italic →
          _font_dict s' !! k = _font_dict s !! k)
  ∧ (faces s' = faces s
     ∨ ∃ fname, find_font face size bold italic = Some fname
              ∧ faces s' = faces s ++ [mk_Face fname 0 blank_slot])
  ∧ (wf_fonts s → wf_fonts s').
Proof.
  intros Hrun.
  destruct (_load_font_cache_sub _ _ _ _ _ _ _ Hrun) as [Hkeep Hother].
  split; [done|]. split; [done|]. split.
  - destruct (_load_font_faces_sub _ _ _ _ _ _ _ Hrun) as [?|(fname & ? & _ & ?)];
      [by left|right; by exists fname].
  - by eapply _load_font_wf_fonts.
Qed.

End CacheMore.

(** ** [_load_glyph], whatever its outcome *)

Section LoadGlyphMore.
Context `{FreeType}.

Lemma _load_font_Ok_valid face size bold italic s font s1 :
  wf_fonts s →
  _load_font face size bold italic s = (Ok font, s1) →
  (font < length (faces s1))%nat.
Proof.
  intros [Hvalid _] Hrun.
  destruct (_load_font_outcomes _ _ _ _ _ _ _ Hrun)
    as [(r & Hk & [= <-] & ->)|[(_ & _ & [=] & _)
        |[(fname & _ & _ & _ & [=] & _)|(fname & _ & _ & _ & [= ->] & ->)]]].
  - by eapply Hvalid.
  - simpl. rewrite length_app. simpl. lia.
Qed.

Lemma kerning_setitem_any g k v s r s' :
  kerning_setitem g k v s = (r, s') → ∃ ws, s' = swept ws s.
Proof.
  destruct (decide (g < length (glyph_objs s))%nat) as [Hg|Hg].
  - rewrite kerning_setitem_valid by done. intros [= _ <-]. eauto.
  - unfold kerning_setitem, deref_glyph, mbind, Py_bind.
    rewrite lookup_ge_None_2 by lia. simpl. intros [= _ <-].
    exists []. by rewrite swept_nil.
Qed.

Lemma kern_pair_any face char glyph item s r s' :
  kern_pair face char glyph item s = (r, s') → ∃ ws, s' = swept ws s.
Proof.
  destruct item as [other_char other_glyph]. unfold kern_pair.
  unfold mbind at 1, Py_bind at 1.
  destruct (get_kerning_x face other_char char s) as [[k1|e1] s1] eqn:Hk1;
    apply get_kerning_x_state in Hk1 as ->;
    [|intros [= _ <-]; exists []; by rewrite swept_nil].
  unfold mbind at 1, Py_bind at 1.
  destruct (kerning_setitem glyph other_char (div64 k1) s) as [[[]|e2] s2] eqn:Hs1;
    apply kerning_setitem_any in Hs1 as [ws1 ->]; [|intros [= _ <-]; eauto].
  unfold mbind at 1, Py_bind at 1.
  destruct (get_kerning_x face char other_char (swept ws1 s)) as [[k2|e3] s3] eqn:Hk2;
    apply get_kerning_x_state in Hk2 as ->; [|intros [= _ <-]; eauto].
  intros [ws2 ->]%kerning_setitem_any. exists (ws1 ++ ws2). by rewrite swept_app.
Qed.

(** Whatever the loop does, it only stores into kerning dicts. *)
Lemma sweep_any face char glyph items s r s' :
  for_each (kern_pair face char glyph) items s = (r, s') → ∃ ws, s' = swept ws s.
Proof.
  revert s; induction items as [|item items IH]; intros s.
  - intros [= _ <-]. exists []. by rewrite swept_nil.
  - cbn [for_each]. unfold mbind at 1, Py_bind at 1.
    destruct (kern_pair face char glyph item s) as [[[]|e] s1] eqn:Hpair;
      apply kern_pair_any in Hpair as [ws1 ->]; [|intros [= _ <-]; eauto].
    intros [ws2 ->]%IH. exists (ws1 ++ ws2). by rewrite swept_app.
Qed.

(** What [_load_glyph] leaves of the store [_load_font] left, in every
    case: the cache as it was, the faces with their files, and a trace
    that grew by kerning stores only. *)
Lemma _load_glyph_shape f char s r s' :
  _load_glyph f char s = (r, s') →
  ∃ r1 s1,
    _load_font (f_face f) (f_size f) (f_bold f) (f_italic f) s = (r1, s1)
    ∧ (∀ e, r1 = Raise e → r = Raise e ∧ s' = s1)
    ∧ (r = Ok () → ∃ face, r1 = Ok face)
    ∧ _font_dict s' = _font_dict s1
    ∧ length (faces s') = length (faces s1)
    ∧ (∀ i o, faces s1 !! i = Some o →
              ∃ o', faces s' !! i = Some o' ∧ fname o' = fname o)
    ∧ (∀ i, r1 ≠ Ok i → faces s' !! i = faces s1 !! i)
    ∧ ∃ ws, trace s' = trace s1 ++ (ev_store <$> ws).
Proof.
  rewrite _load_glyph_run. unfold _load_glyph_steps.
  destruct (_load_font (f_face f) (f_size f) (f_bold f) (f_italic f) s)
    as [[face|e1] s1] eqn:Hfont; intros Hrun;
    [exists (Ok face), s1|exists (Raise e1), s1]; (split; [done|]).
  - assert (∀ (o : Face) slot (i : nat) o1,
              faces s1 !! face = Some o → faces s1 !! i = Some o1 →
              ∃ o', <[face := mk_Face (fname o) (f_size f * 64) slot]> (faces s1) !! i
                    = Some o' ∧ fname o' = fname o1) as Hfaces.
    { intros o slot i o1 Ho Hi. destruct (decide (i = face)) as [->|Hne].
      - rewrite list_lookup_insert_eq by (by eapply lookup_lt_Some).
        eexists; split; [done|]. simpl. congruence.
      - rewrite list_lookup_insert_ne by done. eauto. }
    assert (∀ (x : Face) (i : nat),
              Ok face ≠ Ok i → <[face := x]> (faces s1) !! i = faces s1 !! i)
      as Hothers.
    { intros x i Hi. apply list_lookup_insert_ne. congruence. }
    split; [discriminate|]. split; [eauto|].
    destruct (faces s1 !! face) as [o|] eqn:Ho.
    + destruct (FT_Load_Char _ _ _ _) as [slot|].
      * destruct (make_bitmap _ _ _) as [bm|e2].
        -- apply sweep_any in Hrun as [ws ->]. simpl.
           rewrite length_insert. repeat split; eauto.
        -- injection Hrun as <- <-. simpl. rewrite length_insert.
           repeat split; eauto. exists []. by rewrite app_nil_r.
      * injection Hrun as <- <-. simpl. rewrite length_insert.
        repeat split; eauto. exists []. by rewrite app_nil_r.
    + injection Hrun as <- <-. repeat split; eauto.
      exists []. by rewrite app_nil_r.
  - injection Hrun as <- <-.
    split; [by intros e [= <-]|]. split; [discriminate|].
    repeat split; eauto. exists []. by rewrite app_nil_r.
Qed.

(** X4.  A reshape that fails commits nothing to the dict.  When the font
    is found and the glyph loaded but lines 47-50 raise, [_load_glyph]
    raises the same [ZeroDivisionError] or [ValueError]; the glyphs dict
    and every glyph record are as they were, [char] has no new binding;
    but the face is not put back: it stays cached, at the character size
    [64 * size] and with the slot just loaded. *)
Theorem failed_reshape_commits_nothing f char s face s1 o slot e :
  _load_font (f_face f) (f_size f) (f_bold f) (f_italic f) s = (Ok face, s1) →
  faces s1 !! face = Some o →
  FT_Load_Char (fname o) (f_size f * 64) char freetype_flags = Some slot →
  make_bitmap (bm_buffer (slot_bitmap slot)) (bm_width (slot_bitmap slot))
              (bm_rows (slot_bitmap slot)) = Raise e →
  ∃ s',
    _load_glyph f char s = (Raise e, s')
    ∧ (e = ZeroDivisionError ∨ e = ValueError)
    ∧ glyphs_dict s' = glyphs_dict s
    ∧ glyph_objs s' = glyph_objs s
    ∧ dict_get char (glyphs_dict s') = dict_get char (glyphs_dict s)
    ∧ _font_dict s' = _font_dict s1
    ∧ faces s' !! face = Some (mk_Face (fname o) (f_size f * 64) slot).
Proof.
  intros Hfont Ho Hload Hbm.
  destruct (_load_font_frame _ _ _ _ _ _ _ Hfont) as [Hobjs Hdict].
  eexists. split; [by eapply _load_glyph_bad_bitmap|].
  split; [by eapply make_bitmap_Raise|].
  cbn [set_faces glyphs_dict glyph_objs _font_dict faces].
  split; [done|]. split; [done|]. split; [by rewrite Hdict|]. split; [done|].
  apply list_lookup_insert_eq. by eapply lookup_lt_Some.
Qed.

(** X5.  What the inserted glyph is.  After a call that returns, the face
    of the descriptor is left at the character size [64 * size], its slot
    is what FreeType loads for [char] at that size with the flags
    [FT_LOAD_RENDER | FT_LOAD_NO_HINTING | FT_LOAD_NO_AUTOHINT], and the
    dict binds [char] to a new record made of that slot: its offset is
    (bitmap_left, bitmap_top), its advance the slot's advance over 64,
    its bitmap the reshape of the slot's buffer. *)
Theorem _load_glyph_metrics f char s s' :
  _load_glyph f char s = (Ok (), s') →
  ∃ face o glyph g,
    _font_dict s' !! font_key (f_face f) (f_size f) (f_bold f) (f_italic f)
      = Some face
    ∧ faces s' !! face = Some o
    ∧ char_size o = f_size f * 64
    ∧ FT_Load_Char (fname o) (f_size f * 64) char
        (Z.lor (Z.lor FT_LOAD_RENDER FT_LOAD_NO_HINTING) FT_LOAD_NO_AUTOHINT)
      = Some (face_glyph o)
    ∧ dict_get char (glyphs_dict s') = Some glyph
    ∧ glyph = length (glyph_objs s)
    ∧ glyph_objs s' !! glyph = Some g
    ∧ g_char g = char
    ∧ g_offset g = (bitmap_left (face_glyph o), bitmap_top (face_glyph o))
    ∧ g_advance g = div64 (advance_x (face_glyph o))
    ∧ make_bitmap (bm_buffer (slot_bitmap (face_glyph o)))
                  (bm_width (slot_bitmap (face_glyph o)))
                  (bm_rows (slot_bitmap (face_glyph o)))
      = Ok (g_bitmap g).
Proof.
  intros Hrun. apply _load_glyph_Ok_inv in Hrun
    as (face & s1 & o & slot & bm & Hfont & Ho & Hload & Hbm & -> & _).
  destruct (_load_font_frame _ _ _ _ _ _ _ Hfont) as [Hobjs Hdict].
  set (g0 := mk_Glyph char (bitmap_left slot, bitmap_top slot) bm
                      (div64 (advance_x slot)) ∅).
  destruct (apply_stores_lookup
              (sweep_stores (FT_Get_Kerning (fname o) (f_size f * 64)) char
                 (length (glyph_objs s1))
                 (dict_set char (length (glyph_objs s1)) (glyphs_dict s1)))
              (glyph_objs s1 ++ [g0]) (length (glyph_objs s1)) g0)
    as (g & Hg & Hchar & Hoff & Hbitmap & Hadv & _).
  { apply list_lookup_middle, eq_refl. }
  exists face, (mk_Face (fname o) (f_size f * 64) slot), (length (glyph_objs s1)), g.
  unfold loaded, swept, inserted; cbn [_font_dict faces glyphs_dict glyph_objs].
  split; [by eapply _load_font_Ok_cached|].
  split; [apply list_lookup_insert_eq; by eapply lookup_lt_Some|].
  cbn [fname char_size face_glyph].
  split; [done|]. split; [exact Hload|]. split; [apply dict_get_set_eq|].
  split; [by rewrite Hobjs|]. split; [exact Hg|].
  rewrite Hchar, Hoff, Hadv, Hbitmap. by repeat split.
Qed.

(** X6.  What a call leaves alone.  On a dict of live references, a call
    that returns keeps every other character bound to the record it had,
    with the bitmap, offset and advance it had and with every kerning
    entry it had under a key other than [char]: the only change to an
    older glyph is its entry under the new character. *)
Theorem _load_glyph_frame f char s s' other_char other_glyph g :
  Forall (λ r, (r < length (glyph_objs s))%nat) (glyphs_dict s).*2 →
  _load_glyph f char s = (Ok (), s') →
  other_char ≠ char →
  dict_get other_char (glyphs_dict s) = Some other_glyph →
  glyph_objs s !! other_glyph = Some g →
  ∃ g',
    dict_get other_char (glyphs_dict s') = Some other_glyph
    ∧ glyph_objs s' !! other_glyph = Some g'
    ∧ g_char g' = g_char g
    ∧ g_bitmap g' = g_bitmap g
    ∧ g_offset g' = g_offset g
    ∧ g_advance g' = g_advance g
    ∧ ∀ k, k ≠ char → g_kerning g' !! k = g_kerning g !! k.
Proof.
  intros Hvalid Hrun Hne Hget Hg. apply _load_glyph_Ok_inv in Hrun
    as (face & s1 & o & slot & bm & Hfont & Ho & Hload & Hbm & -> & _).
  destruct (_load_font_frame _ _ _ _ _ _ _ Hfont) as [Hobjs Hdict].
  rewrite <- Hobjs, <- Hdict in *.
  set (g0 := mk_Glyph char (bitmap_left slot, bitmap_top slot) bm
                      (div64 (advance_x slot)) ∅).
  pose proof (lookup_lt_Some _ _ _ Hg) as Hlt.
  destruct (apply_stores_lookup
              (sweep_stores (FT_Get_Kerning (fname o) (f_size f * 64)) char
                 (length (glyph_objs s1))
                 (dict_set char (length (glyph_objs s1)) (glyphs_dict s1)))
              (glyph_objs s1 ++ [g0]) other_glyph g)
    as (g' & Hg' & Hchar & Hoff & Hbitmap & Hadv & Hk).
  { by apply lookup_app_l_Some. }
  exists g'. unfold loaded, swept, inserted; cbn [glyphs_dict glyph_objs].
  split; [by rewrite dict_get_set_ne|]. split; [exact Hg'|].
  repeat (split; [done|]).
  intros k Hkne. rewrite Hk. apply entry_after_untouched.
  intros v (o' & og & _ & [(? & _)|(_ & ? & _)])%elem_of_sweep_stores; [lia|done].
Qed.

End LoadGlyphMore.

(** ** The faces and the resolver over many calls *)

Section FacesMore.
Context `{FreeType}.

Lemma _load_font_Ok_cases face size bold italic s font s1 :
  _load_font face size bold italic s = (Ok font, s1) →
  _font_dict s !! font_key face size bold italic = Some font
  ∨ font = length (faces s).
Proof.
  intros Hrun.
  destruct (_load_font_outcomes _ _ _ _ _ _ _ Hrun)
    as [(r & Hk & [= <-] & ->)|[(_ & _ & [=] & _)
        |[(fname & _ & _ & _ & [=] & _)|(fname & _ & _ & _ & [= ->] & ->)]]]; auto.
Qed.

Lemma _load_font_faces_lookup face size bold italic s r s' (i : nat) o :
  _load_font face size bold italic s = (r, s') →
  faces s !! i = Some o → faces s' !! i = Some o.
Proof.
  intros Hrun Hi.
  destruct (_load_font_faces_sub _ _ _ _ _ _ _ Hrun) as [->|(fname & _ & _ & ->)];
    [done|by apply lookup_app_l_Some].
Qed.

(** X7.  What a call does to the faces.  Whatever its outcome,
    [_load_glyph] keeps every cached key bound to the [Face] it had and
    touches no key but the descriptor's; every [Face] object stays open on
    its file; only the face of the descriptor is changed at all (its
    character size and glyph slot); and the cache still names only faces
    of the heap, no two keys the same one. *)
Theorem _load_glyph_keeps_faces f char s r s' :
  _load_glyph f char s = (r, s') →
  (∀ k font, _font_dict s !! k = Some font → _font_dict s' !! k = Some font)
  ∧ (∀ k, k ≠ font_key (f_face f) (f_size f) (f_bold f) (f_italic f) →
          _font_dict s' !! k = _font_dict s !! k)
  ∧ (∀ (i : nat) o, faces s !! i = Some o →
        ∃ o', faces s' !! i = Some o' ∧ fname o' = fname o)
  ∧ (∀ (i : nat) o, faces s !! i = Some o →
        _font_dict s !! font_key (f_face f) (f_size f) (f_bold f) (f_italic f)
          ≠ Some i →
        faces s' !! i = Some o)
  ∧ (wf_fonts s → wf_fonts s').
Proof.
  intros Hrun.
  destruct (_load_glyph_shape _ _ _ _ _ Hrun)
    as (r1 & s1 & Hfont & _ & _ & Hcache & Hlen & Hfiles & Hothers & _).
  destruct (_load_font_cache_sub _ _ _ _ _ _ _ Hfont) as [Hkeep Hother].
  rewrite Hcache. split; [done|]. split; [done|]. split; [|split].
  - intros i o Hi. apply Hfiles. by eapply _load_font_faces_lookup.
  - intros i o Hi Hnot. rewrite Hothers; [by eapply _load_font_faces_lookup|].
    intros ->. apply _load_font_Ok_cases in Hfont as [?| ->]; [done|].
    apply lookup_lt_Some in Hi. lia.
  - intros Hwf. pose proof (_load_font_wf_fonts _ _ _ _ _ _ _ Hfont Hwf) as [Hv Hi].
    split.
    + intros k font. rewrite Hcache, Hlen. apply Hv.
    + intros k1 k2 font. rewrite Hcache. apply Hi.
Qed.

Lemma _load_glyph_events f char s r s' :
  _load_glyph f char s = (r, s') →
  (is_Some (_font_dict s !! font_key (f_face f) (f_size f) (f_bold f) (f_italic f)) →
     count_events is_find_font (trace s') = count_events is_find_font (trace s)
     ∧ count_events is_new_face (trace s') = count_events is_new_face (trace s)
     ∧ length (faces s') = length (faces s))
  ∧ (count_events is_find_font (trace s')
      ≤ count_events is_find_font (trace s) + 1)%nat
  ∧ (count_events is_new_face (trace s')
      ≤ count_events is_new_face (trace s) + 1)%nat
  ∧ (length (faces s') ≤ length (faces s) + 1)%nat
  ∧ (is_Some (_font_dict s !! font_key (f_face f) (f_size f) (f_bold f) (f_italic f))
     ∨ r = Ok () →
     is_Some (_font_dict s' !! font_key (f_face f) (f_size f) (f_bold f) (f_italic f))).
Proof.
  intros Hrun.
  destruct (_load_glyph_shape _ _ _ _ _ Hrun)
    as (r1 & s1 & Hfont & _ & Hok & Hcache & Hlen & _ & _ & ws & Htrace).
  destruct (_load_font_events _ _ _ _ _ _ _ Hfont) as (Hhit & Hff & Hnf & Hcached).
  destruct (_load_font_cache_sub _ _ _ _ _ _ _ Hfont) as [Hkeep _].
  rewrite Htrace, !count_events_app, !count_events_stores, Hlen, Hcache by done.
  rewrite !Nat.add_0_r.
  assert (length (faces s1) ≤ length (faces s) + 1)%nat as Hfaces.
  { destruct (_load_font_faces_sub _ _ _ _ _ _ _ Hfont) as [->|(fname & _ & _ & ->)];
      [lia|]. rewrite length_app. simpl. lia. }
  split; [|split; [done|split; [done|split; [done|]]]].
  - intros Hk. rewrite (Hhit Hk). split; [done|]. split; [done|].
    destruct Hk as [font Hk]. rewrite (_load_font_hit _ _ _ _ _ _ Hk) in Hfont.
    by injection Hfont as _ <-.
  - intros [[font Hk]|Hr]; [eauto|].
    destruct (Hok Hr) as [face ->]. eauto.
Qed.

Lemma load_glyphs_events_cached f chars s r s' :
  is_Some (_font_dict s !! font_key (f_face f) (f_size f) (f_bold f) (f_italic f)) →
  load_glyphs f chars s = (r, s') →
  count_events is_find_font (trace s') = count_events is_find_font (trace s)
  ∧ count_events is_new_face (trace s') = count_events is_new_face (trace s)
  ∧ length (faces s') = length (faces s).
Proof.
  revert s; induction chars as [|char chars IH]; intros s Hk.
  - by intros [= _ <-].
  - rewrite load_glyphs_cons.
    destruct (_load_glyph f char s) as [[[]|e] s1] eqn:Hstep;
      destruct (_load_glyph_events _ _ _ _ _ Hstep) as (Hhit & _ & _ & _ & Hnext);
      destruct (Hhit Hk) as (Hff & Hnf & Hlen).
    + intros Hrest. destruct (IH s1 (Hnext (or_introl Hk)) Hrest) as (? & ? & ?).
      repeat split; congruence.
    + by intros [= _ <-].
Qed.

(** X8.  One resolution for a whole run.  However many characters are
    loaded with one descriptor, and however the run ends, the resolver is
    asked at most once and at most one [Face] is constructed; when the
    descriptor is already cached, neither happens at all. *)
Theorem load_glyphs_resolves_once f chars s r s' :
  load_glyphs f chars s = (r, s') →
  (count_events is_find_font (trace s')
    ≤ count_events is_find_font (trace s) + 1)%nat
  ∧ (count_events is_new_face (trace s')
      ≤ count_events is_new_face (trace s) + 1)%nat
  ∧ (length (faces s') ≤ length (faces s) + 1)%nat
  ∧ (is_Some (_font_dict s !! font_key (f_face f) (f_size f) (f_bold f) (f_italic f)) →
       count_events is_find_font (trace s') = count_events is_find_font (trace s)
       ∧ count_events is_new_face (trace s') = count_events is_new_face (trace s)
       ∧ length (faces s') = length (faces s)).
Proof.
  intros Hrun.
  split; [|split; [|split]]; [..|intros Hk; by eapply load_glyphs_events_cached].
  all: destruct chars as [|char chars]; [by injection Hrun as _ <-; lia|].
  all: rewrite load_glyphs_cons in Hrun.
  all: destruct (_load_glyph f char s) as [[[]|e] s1] eqn:Hstep;
    destruct (_load_glyph_events _ _ _ _ _ Hstep) as (_ & Hff & Hnf & Hlen & Hnext);
    [|by injection Hrun as _ <-].
  all: destruct (load_glyphs_events_cached f chars s1 r s'
                   (Hnext (or_intror eq_refl)) Hrun) as (Hff' & Hnf' & Hlen').
  all: lia.
Qed.

End FacesMore.

(** ** The glyphs dict and the kerning table after any run *)

Section TableMore.
Context `{FreeType}.

Lemma load_glyphs_length f chars s s' :
  load_glyphs f chars s = (Ok (), s') →
  length (glyph_objs s') = (length (glyph_objs s) + length chars)%nat.
Proof.
  revert s; induction chars as [|char chars IH]; intros s Hrun.
  - apply load_glyphs_nil_inv in Hrun as ->. simpl. lia.
  - apply load_glyphs_cons_Ok_inv in Hrun as (s1 & Hstep & Hrest).
    destruct (_load_glyph_dict _ _ _ _ Hstep) as (_ & Hlen & _).
    rewrite (IH s1 Hrest), Hlen. simpl. lia.
Qed.

(** X9.  The glyphs dict after any run.  After any characters, repeated
    or not, have been loaded into an empty dict: its keys are the
    characters loaded, each once; every key is bound to a glyph record of
    its own, which is the glyph of that character; and every glyph has a
    kerning entry under each key of the dict and under nothing else.  One
    record was allocated per call. *)
Theorem load_glyphs_dict_invariant f chars s s' :
  glyphs_dict s = [] →
  load_glyphs f chars s = (Ok (), s') →
  NoDup (glyphs_dict s').*1
  ∧ NoDup (glyphs_dict s').*2
  ∧ (∀ k, k ∈ (glyphs_dict s').*1 ↔ k ∈ chars)
  ∧ (∀ c r, (c, r) ∈ glyphs_dict s' →
       ∃ g, glyph_objs s' !! r = Some g
          ∧ g_char g = c
          ∧ ∀ k, is_Some (g_kerning g !! k) ↔ k ∈ chars)
  ∧ length (glyph_objs s') = (length (glyph_objs s) + length chars)%nat.
Proof.
  intros Hempty Hrun.
  assert (wf_glyphs s) as Hwf.
  { unfold wf_glyphs. rewrite Hempty. repeat split; constructor. }
  assert (kerning_closed s) as Hclosed.
  { intros c r. rewrite Hempty. by intros ?%elem_of_nil. }
  destruct (load_glyphs_wf _ _ _ _ Hwf Hrun) as ((Hkeys & Hrefs & _) & _ & Hdom).
  pose proof (load_glyphs_closed _ _ _ _ Hclosed Hrun) as Hclosed'.
  assert (∀ k, k ∈ (glyphs_dict s').*1 ↔ k ∈ chars) as Hdom'.
  { intros k. rewrite Hdom, Hempty. simpl. rewrite elem_of_nil. tauto. }
  split; [done|]. split; [done|]. split; [done|]. split.
  - intros c r Hin. destruct (Hclosed' c r Hin) as (g & Hg & Hchar & Hk).
    exists g. split; [done|]. split; [done|]. intros k. by rewrite Hk.
  - by eapply load_glyphs_length.
Qed.

Lemma entry_after_Some_inv r k init ws v :
  entry_after r k init ws = Some v → init = Some v ∨ (r, k, v) ∈ ws.
Proof.
  revert init; induction ws as [|[[g k1] v1] ws IH]; intros init; [by left|].
  rewrite entry_after_cons; simpl. intros [Hinit|Hin]%IH; [|right; by right].
  case_decide as Hhit; [|by left].
  destruct Hhit as [-> ->]. injection Hinit as ->. right. left.
Qed.

Lemma font_file_Some f s fn :
  font_file f s = Some fn ↔
  ∃ face o, _font_dict s !! font_key (f_face f) (f_size f) (f_bold f) (f_italic f)
              = Some face
          ∧ faces s !! face = Some o ∧ fname o = fn.
Proof.
  unfold font_file. split.
  - destruct (_font_dict s !! _) as [face|] eqn:Hk; simpl; [|done].
    destruct (faces s !! face) as [o|] eqn:Ho; simpl; [|done].
    intros [= <-]. by exists face, o.
  - intros (face & o & -> & Ho & <-). simpl. by rewrite Ho.
Qed.

(** One call keeps the table correct for the file of the descriptor. *)
Lemma _load_glyph_correct f char s s' :
  kerning_closed s →
  glyphs_dict s = []
  ∨ (∃ fn, font_file f s = Some fn
         ∧ kerning_correct (FT_Get_Kerning fn (f_size f * 64)) s) →
  _load_glyph f char s = (Ok (), s') →
  ∃ fn, font_file f s' = Some fn
      ∧ kerning_correct (FT_Get_Kerning fn (f_size f * 64)) s'.
Proof.
  intros Hclosed Hbefore Hrun. apply _load_glyph_Ok_inv in Hrun
    as (face & s1 & o & slot & bm & Hfont & Ho & Hload & Hbm & -> & _).
  destruct (_load_font_frame _ _ _ _ _ _ _ Hfont) as [Hobjs Hdict].
  exists (fname o). split.
  { apply font_file_Some. exists face, (mk_Face (fname o) (f_size f * 64) slot).
    unfold loaded, swept, inserted; cbn [_font_dict faces].
    split; [by eapply _load_font_Ok_cached|].
    split; [apply list_lookup_insert_eq; by eapply lookup_lt_Some|done]. }
  assert (glyphs_dict s = []
          ∨ kerning_correct (FT_Get_Kerning (fname o) (f_size f * 64)) s) as Hold.
  { destruct Hbefore as [?|(fn & Hfile & Hcorrect)]; [by left|right].
    apply font_file_Some in Hfile as (face0 & o0 & Hk & Ho0 & <-).
    rewrite (_load_font_hit _ _ _ _ _ _ Hk) in Hfont. injection Hfont as <- <-.
    rewrite Ho0 in Ho. by injection Ho as <-. }
  clear Hbefore. unfold kerning_closed, kerning_correct in *.
  rewrite <- Hobjs, <- Hdict in Hclosed, Hold. clear Hobjs Hdict.
  unfold loaded, swept, inserted; cbn [glyph_objs glyphs_dict].
  set (glyph := length (glyph_objs s1)).
  set (items := dict_set char glyph (glyphs_dict s1)).
  set (K := FT_Get_Kerning (fname o) (f_size f * 64)) in *.
  set (g0 := mk_Glyph char _ bm _ ∅).
  assert (∀ c, (c, glyph) ∈ items → c = char) as Hnew.
  { intros c [[-> _]|Hin]%elem_of_dict_set; [done|].
    destruct (Hclosed c glyph Hin) as (g1 & Hg1%lookup_lt_Some & _).
    unfold glyph in Hg1. lia. }
  assert (∀ c r, (c, r) ∈ items → r ≠ glyph →
            (c, r) ∈ glyphs_dict s1
            ∧ ∃ g1, glyph_objs s1 !! r = Some g1 ∧ g_char g1 = c) as Hother.
  { intros c r [[_ ->]|Hin]%elem_of_dict_set Hr; [done|].
    split; [done|]. destruct (Hclosed c r Hin) as (g1 & Hg1 & Hc & _). eauto. }
  intros c r g a v Hin Hg Ha.
  destruct (decide (r = glyph)) as [->|Hr].
  - apply Hnew in Hin as ->.
    destruct (apply_stores_lookup (sweep_stores K char glyph items)
                (glyph_objs s1 ++ [g0]) glyph g0) as (g' & Hg' & _ & _ & _ & _ & Hk).
    { apply list_lookup_middle, eq_refl. }
    rewrite Hg in Hg'. injection Hg' as <-. rewrite Hk in Ha.
    apply entry_after_Some_inv in Ha as [Ha|Ha];
      [unfold g0 in Ha; simpl in Ha; by rewrite lookup_empty in Ha|].
    apply elem_of_sweep_stores in Ha
      as (o' & og & Hitem & [(_ & -> & ->)|(<- & -> & ->)]); [done|].
    by rewrite (Hnew o' Hitem).
  - destruct (Hother c r Hin Hr) as (Hin1 & g1 & Hg1 & Hc1).
    destruct (apply_stores_lookup (sweep_stores K char glyph items)
                (glyph_objs s1 ++ [g0]) r g1) as (g' & Hg' & _ & _ & _ & _ & Hk).
    { by apply lookup_app_l_Some. }
    rewrite Hg in Hg'. injection Hg' as <-. rewrite Hk in Ha.
    apply entry_after_Some_inv in Ha as [Ha|Ha].
    + destruct Hold as [Hnil|Hold]; [rewrite Hnil in Hin1; by apply elem_of_nil in Hin1|].
      by eapply Hold.
    + apply elem_of_sweep_stores in Ha
        as (o' & og & Hitem & [(? & _)|(-> & -> & ->)]); [done|].
      destruct (Hother o' og Hitem Hr) as (_ & g2 & Hg2 & Hc2).
      rewrite Hg1 in Hg2. injection Hg2 as <-. congruence.
Qed.

Lemma load_glyphs_correct f chars s s' :
  kerning_closed s →
  (∃ fn, font_file f s = Some fn
       ∧ kerning_correct (FT_Get_Kerning fn (f_size f * 64)) s) →
  load_glyphs f chars s = (Ok (), s') →
  ∃ fn, font_file f s' = Some fn
      ∧ kerning_correct (FT_Get_Kerning fn (f_size f * 64)) s'.
Proof.
  revert s; induction chars as [|char chars IH]; intros s Hclosed Hbefore Hrun.
  - by apply load_glyphs_nil_inv in Hrun as ->.
  - apply load_glyphs_cons_Ok_inv in Hrun as (s1 & Hstep & Hrest).
    apply (IH s1); [by apply (_load_glyph_closed f char s)| |done].
    apply (_load_glyph_correct f char s); [done| |done]. by right.
Qed.

(** X10.  The whole kerning table.  After any characters, repeated or
    not, have been loaded with one descriptor into an empty dict, for
    every two of them [a] and [b], equal or not, the glyph of [b] holds
    under [a] the kerning FreeType gives for [a] followed by [b], in
    pixels, on the file of the cached face at the character size
    [64 * size]. *)
Theorem load_glyphs_kerning_table f chars s s' :
  glyphs_dict s = [] →
  chars ≠ [] →
  load_glyphs f chars s = (Ok (), s') →
  ∃ face o,
    _font_dict s' !! font_key (f_face f) (f_size f) (f_bold f) (f_italic f)
      = Some face
    ∧ faces s' !! face = Some o
    ∧ ∀ a b, a ∈ chars → b ∈ chars →
        ∃ r g, dict_get b (glyphs_dict s') = Some r
             ∧ glyph_objs s' !! r = Some g
             ∧ g_char g = b
             ∧ g_kerning g !! a
               = Some (div64 (FT_Get_Kerning (fname o) (f_size f * 64) a b)).
Proof.
  intros Hempty Hne Hrun.
  assert (wf_glyphs s) as Hwf.
  { unfold wf_glyphs. rewrite Hempty. repeat split; constructor. }
  assert (kerning_closed s) as Hclosed.
  { intros c r. rewrite Hempty. by intros ?%elem_of_nil. }
  destruct (load_glyphs_wf _ _ _ _ Hwf Hrun) as (_ & _ & Hdom).
  pose proof (load_glyphs_closed _ _ _ _ Hclosed Hrun) as Hclosed'.
  assert (∃ fn, font_file f s' = Some fn
              ∧ kerning_correct (FT_Get_Kerning fn (f_size f * 64)) s')
    as (fn & Hfile & Hcorrect).
  { destruct chars as [|char chars]; [done|].
    apply load_glyphs_cons_Ok_inv in Hrun as (s1 & Hstep & Hrest).
    apply (load_glyphs_correct f chars s1);
      [by apply (_load_glyph_closed f char s)| |done].
    apply (_load_glyph_correct f char s); [done| |done]. by left. }
  apply font_file_Some in Hfile as (face & o & Hk & Ho & <-).
  exists face, o. split; [done|]. split; [done|].
  intros a b Ha Hb.
  destruct (dict_get_is_Some b (glyphs_dict s')) as [r Hr]; [apply Hdom; by right|].
  pose proof (dict_get_elem_of _ _ _ Hr) as Hin.
  destruct (Hclosed' b r Hin) as (g & Hg & Hchar & Hkeys).
  exists r, g. split; [done|]. split; [done|]. split; [done|].
  destruct (proj2 (Hkeys a)) as [v Hv]; [apply Hdom; by right|].
  rewrite Hv. f_equal. by eapply Hcorrect.
Qed.

End TableMore.

(** ** The cache key *)

Section KeyMore.

Lemma string_app_nil_l (t : string) : "" +:+ t = t.
Proof. reflexivity. Qed.

Lemma string_app_cons (c : Ascii.ascii) (a t : string) :
  String c a +:+ t = String c (a +:+ t).
Proof. reflexivity. Qed.

Lemma count_dash_cons (c : Ascii.ascii) (a : string) :
  count_dash (String c a) =
  ((if decide (String c "" = "-") then 1 else 0) + count_dash a)%nat.
Proof. reflexivity. Qed.

Lemma count_dash_app (a b : string) :
  count_dash (a +:+ b) = (count_dash a + count_dash b)%nat.
Proof.
  induction a as [|c a IH]; [done|].
  rewrite string_app_cons, !count_dash_cons, IH. lia.
Qed.

Lemma string_app_nil_r (a : string) : a +:+ "" = a.
Proof.
  induction a as [|c a IH]; [done|]. by rewrite string_app_cons, IH.
Qed.

Lemma string_app_eq_app (a1 a2 t1 t2 : string) :
  a1 +:+ t1 = a2 +:+ t2 →
  ∃ x, (a2 = a1 +:+ x ∧ t1 = x +:+ t2) ∨ (a1 = a2 +:+ x ∧ t2 = x +:+ t1).
Proof.
  revert a2; induction a1 as [|c a1 IH]; intros a2.
  - rewrite string_app_nil_l. intros ->. exists a2. by left.
  - destruct a2 as [|c2 a2].
    + rewrite string_app_nil_l. intros <-. exists (String c a1). by right.
    + rewrite !string_app_cons. intros [= <- Heq].
      destruct (IH a2 Heq) as [x [[-> ->]|[-> ->]]];
        exists x; [by left|by right].
Qed.

Lemma string_app_inv_head (a x y : string) : a +:+ x = a +:+ y → x = y.
Proof.
  induction a as [|c a IH]; [done|].
  rewrite !string_app_cons. intros [= Heq]. by apply IH.
Qed.

(** A string without dashes is no proper extension across a dash. *)
Lemma dash_prefix_nil (x t rest : string) :
  count_dash x = 0%nat → "-" +:+ rest = x +:+ t → x = "".
Proof.
  destruct x as [|c x]; [done|].
  rewrite !string_app_cons, count_dash_cons. intros Hcount [= <- _].
  by rewrite decide_True in Hcount.
Qed.

Lemma count_dash_pretty_N_go (x : N) (s : string) :
  count_dash (pretty_N_go x s) = count_dash s.
Proof.
  revert s. induction (N.lt_wf_0 x) as [x _ IH]; intros s.
  assert (x = 0 ∨ 0 < x)%N as [->|Hx] by lia.
  - by rewrite pretty_N_go_0.
  - rewrite pretty_N_go_step by done. rewrite IH by (by apply N.div_lt).
    simpl. unfold pretty_N_char. by repeat case_match.
Qed.

Lemma count_dash_pretty_Z (z : Z) : 0 ≤ z → count_dash (pretty z) = 0%nat.
Proof.
  destruct z as [|p|p]; [done| |lia]. intros _.
  unfold pretty, pretty_Z, pretty, pretty_positive, pretty, pretty_N.
  rewrite decide_False by done. apply count_dash_pretty_N_go.
Qed.

(** Two strings split at a dash agree part by part when what follows the
    dash has as many dashes on either side. *)
Lemma string_app_dash_inj (a1 a2 t1 t2 : string) :
  count_dash t1 = count_dash t2 →
  a1 +:+ "-" +:+ t1 = a2 +:+ "-" +:+ t2 → a1 = a2 ∧ t1 = t2.
Proof.
  intros Hcount Heq.
  destruct (string_app_eq_app _ _ _ _ Heq) as [x [[Hx Ht]|[Hx Ht]]].
  - assert (x = "") as ->.
    { eapply dash_prefix_nil; [|exact Ht].
      apply (f_equal count_dash) in Ht.
      rewrite !count_dash_app in Ht. lia. }
    rewrite string_app_nil_r in Hx. rewrite string_app_nil_l in Ht.
    split; [done|]. by injection Ht.
  - assert (x = "") as ->.
    { eapply dash_prefix_nil; [|exact Ht].
      apply (f_equal count_dash) in Ht.
      rewrite !count_dash_app in Ht. lia. }
    rewrite string_app_nil_r in Hx. rewrite string_app_nil_l in Ht.
    split; [done|]. by injection Ht.
Qed.

(** For sizes that are not negative, the key tells the descriptor. *)
Lemma font_key_inj face1 size1 bold1 italic1 face2 size2 bold2 italic2 :
  0 ≤ size1 → 0 ≤ size2 →
  font_key face1 size1 bold1 italic1 = font_key face2 size2 bold2 italic2 →
  face1 = face2 ∧ size1 = size2 ∧ bold1 = bold2 ∧ italic1 = italic2.
Proof.
  intros Hs1 Hs2. unfold font_key.
  set (u1 := str_bool bold1 +:+ "-" +:+ str_bool italic1).
  set (u2 := str_bool bold2 +:+ "-" +:+ str_bool italic2).
  assert (count_dash u1 = 1%nat) as Hu1 by (by destruct bold1, italic1).
  assert (count_dash u2 = 1%nat) as Hu2 by (by destruct bold2, italic2).
  intros Heq.
  apply string_app_dash_inj in Heq as [-> Heq].
  - split; [done|].
    apply string_app_dash_inj in Heq as [Hp Hu]; [|by rewrite Hu1, Hu2].
    split; [by apply (inj pretty)|].
    revert Hu. unfold u1, u2. by destruct bold1, italic1, bold2, italic2.
  - rewrite !count_dash_app, !count_dash_pretty_Z by done.
    by rewrite Hu1, Hu2.
Qed.

End KeyMore.

Section KeyCache.
Context `{FreeType}.

(** X11.  The cache tells descriptors apart.  On a cache whose keys name
    distinct live faces, two lookups with sizes that are not negative
    return the same [Face] object only for the same family, size, bold
    and italic: what one descriptor does to its face (character size,
    glyph slot) is never seen through another. *)
Theorem _load_font_separates face1 size1 bold1 italic1 face2 size2 bold2 italic2
    s font s1 s2 :
  wf_fonts s →
  0 ≤ size1 → 0 ≤ size2 →
  _load_font face1 size1 bold1 italic1 s = (Ok font, s1) →
  _load_font face2 size2 bold2 italic2 s1 = (Ok font, s2) →
  face1 = face2 ∧ size1 = size2 ∧ bold1 = bold2 ∧ italic1 = italic2.
Proof.
  intros Hwf Hs1 Hs2 Hfirst Hsecond.
  pose proof (_load_font_wf_fonts _ _ _ _ _ _ _ Hfirst Hwf) as Hwf1.
  pose proof (_load_font_Ok_valid _ _ _ _ _ _ _ Hwf Hfirst) as Hvalid.
  pose proof (_load_font_Ok_cached _ _ _ _ _ _ _ Hfirst) as Hk1.
  apply _load_font_Ok_cases in Hsecond as [Hk2| ->]; [|lia].
  apply font_key_inj; [done|done|]. destruct Hwf1 as [_ Hinj]. by eapply Hinj.
Qed.

End KeyCache.

(** ** The further properties on the demo font *)

Section DemoMore.
Existing Instance demo.freetype.

Lemma wf_fonts_empty (s : Store) : _font_dict s = ∅ → wf_fonts s.
Proof.
  intros Hempty. split.
  - intros k r. by rewrite Hempty, lookup_empty.
  - intros k1 k2 r. by rewrite Hempty, lookup_empty.
Qed.

(** *** X1 and X2: a padded two-row bitmap *)

Lemma make_bitmap_outcomes_witness :
  Forall (λ v, 0 ≤ v < 256) [0; 255; 0; 9; 255; 0; 255; 9]
  ∧ 0 ≤ 2 < 2 ^ 32
  ∧ (make_bitmap [0; 255; 0; 9; 255; 0; 255; 9] 3 2 = Raise ZeroDivisionError
     ↔ [0; 255; 0; 9; 255; 0; 255; 9] ≠ [] ∧ 2 = 0)
  ∧ (make_bitmap [0; 255; 0; 9; 255; 0; 255; 9] 3 2 = Raise ValueError
     ↔ 0 < 2 ∧ Z.of_nat (length [0; 255; 0; 9; 255; 0; 255; 9]) `mod` 2 ≠ 0)
  ∧ ((∃ a, make_bitmap [0; 255; 0; 9; 255; 0; 255; 9] 3 2 = Ok a)
     ↔ [0; 255; 0; 9; 255; 0; 255; 9] = []
       ∨ (0 < 2 ∧ Z.of_nat (length [0; 255; 0; 9; 255; 0; 255; 9]) `mod` 2 = 0)).
Proof.
  assert (Forall (λ v, 0 ≤ v < 256) [0; 255; 0; 9; 255; 0; 255; 9]) as Hbytes
    by (repeat (apply Forall_cons_2; [lia|]); apply Forall_nil_2).
  assert (0 ≤ 2 < 2 ^ 32) as Hheight by lia.
  split; [exact Hbytes|]. split; [exact Hheight|].
  exact (make_bitmap_outcomes [0; 255; 0; 9; 255; 0; 255; 9] 3 2 Hbytes Hheight).
Defined.

(** The width FreeType reports, 5, is beyond the stride, 4. *)
Lemma make_bitmap_clips_witness :
  Forall (λ v, 0 ≤ v < 256) [0; 255; 0; 9; 255; 0; 255; 9]
  ∧ 0 < 2 < 2 ^ 32 ∧ 0 ≤ 5
  ∧ Z.of_nat (length [0; 255; 0; 9; 255; 0; 255; 9]) = 2 * 4
  ∧ ∃ a, make_bitmap [0; 255; 0; 9; 255; 0; 255; 9] 5 2 = Ok a
       ∧ np.nrows a = 2
       ∧ np.ncols a = Z.min 5 4
       ∧ length (np.rows_of a) = Z.to_nat 2
       ∧ ∀ (i : nat), (i < Z.to_nat 2)%nat →
           np.rows_of a !! i
           = Some (take (Z.to_nat (Z.min 5 4))
                        (drop (i * Z.to_nat 4) [0; 255; 0; 9; 255; 0; 255; 9])).
Proof.
  assert (Forall (λ v, 0 ≤ v < 256) [0; 255; 0; 9; 255; 0; 255; 9]) as Hbytes
    by (repeat (apply Forall_cons_2; [lia|]); apply Forall_nil_2).
  split; [exact Hbytes|]. split; [lia|]. split; [lia|]. split; [reflexivity|].
  apply (make_bitmap_clips [0; 255; 0; 9; 255; 0; 255; 9] 5 2 4);
    [exact Hbytes|lia|lia|reflexivity].
Defined.

(** *** X3: the first lookup of "Arial" *)

Lemma _load_font_monotone_witness :
  _load_font "Arial" 12 false false demo.store0
  = (Ok 0%nat, (_load_font "Arial" 12 false false demo.store0).2)
  ∧ (∀ k font, _font_dict demo.store0 !! k = Some font →
       _font_dict (_load_font "Arial" 12 false false demo.store0).2 !! k
       = Some font)
  ∧ (∀ k, k ≠ font_key "Arial" 12 false false →
       _font_dict (_load_font "Arial" 12 false false demo.store0).2 !! k
       = _font_dict demo.store0 !! k)
  ∧ (faces (_load_font "Arial" 12 false false demo.store0).2
     = faces demo.store0
     ∨ ∃ fname, find_font "Arial" 12 false false = Some fname
              ∧ faces (_load_font "Arial" 12 false false demo.store0).2
                = faces demo.store0 ++ [mk_Face fname 0 blank_slot])
  ∧ (wf_fonts demo.store0 →
     wf_fonts (_load_font "Arial" 12 false false demo.store0).2).
Proof.
  assert (_load_font "Arial" 12 false false demo.store0
          = (Ok 0%nat, (_load_font "Arial" 12 false false demo.store0).2)) as Hrun
    by (vm_compute; reflexivity).
  split; [exact Hrun|].
  exact (_load_font_monotone "Arial" 12 false false demo.store0 _ _ Hrun).
Defined.

(** *** X5: "A" alone *)

Lemma _load_glyph_metrics_witness :
  _load_glyph demo.arial12 "A" demo.store0 = (Ok (), demo.after ["A"] demo.store0)
  ∧ ∃ face o glyph g,
      _font_dict (demo.after ["A"] demo.store0)
        !! font_key (f_face demo.arial12) (f_size demo.arial12)
                    (f_bold demo.arial12) (f_italic demo.arial12)
        = Some face
      ∧ faces (demo.after ["A"] demo.store0) !! face = Some o
      ∧ char_size o = f_size demo.arial12 * 64
      ∧ FT_Load_Char (fname o) (f_size demo.arial12 * 64) "A"
          (Z.lor (Z.lor FT_LOAD_RENDER FT_LOAD_NO_HINTING) FT_LOAD_NO_AUTOHINT)
        = Some (face_glyph o)
      ∧ dict_get "A" (glyphs_dict (demo.after ["A"] demo.store0)) = Some glyph
      ∧ glyph = length (glyph_objs demo.store0)
      ∧ glyph_objs (demo.after ["A"] demo.store0) !! glyph = Some g
      ∧ g_char g = "A"
      ∧ g_offset g = (bitmap_left (face_glyph o), bitmap_top (face_glyph o))
      ∧ g_advance g = div64 (advance_x (face_glyph o))
      ∧ make_bitmap (bm_buffer (slot_bitmap (face_glyph o)))
                    (bm_width (slot_bitmap (face_glyph o)))
                    (bm_rows (slot_bitmap (face_glyph o)))
        = Ok (g_bitmap g).
Proof.
  assert (_load_glyph demo.arial12 "A" demo.store0
          = (Ok (), demo.after ["A"] demo.store0)) as Hrun
    by (vm_compute; reflexivity).
  split; [exact Hrun|].
  exact (_load_glyph_metrics demo.arial12 "A" _ _ Hrun).
Defined.

(** *** X6: what loading "V" leaves of the glyph of "A" *)

Lemma _load_glyph_frame_witness :
  Forall (λ r, (r < length (glyph_objs (demo.after ["A"] demo.store0)))%nat)
         (glyphs_dict (demo.after ["A"] demo.store0)).*2
  ∧ _load_glyph demo.arial12 "V" (demo.after ["A"] demo.store0)
    = (Ok (), demo.after ["A"; "V"] demo.store0)
  ∧ "A" ≠ "V"
  ∧ dict_get "A" (glyphs_dict (demo.after ["A"] demo.store0)) = Some 0%nat
  ∧ ∃ g,
      glyph_objs (demo.after ["A"] demo.store0) !! 0%nat = Some g
      ∧ ∃ g',
          dict_get "A" (glyphs_dict (demo.after ["A"; "V"] demo.store0))
            = Some 0%nat
          ∧ glyph_objs (demo.after ["A"; "V"] demo.store0) !! 0%nat = Some g'
          ∧ g_char g' = g_char g
          ∧ g_bitmap g' = g_bitmap g
          ∧ g_offset g' = g_offset g
          ∧ g_advance g' = g_advance g
          ∧ ∀ k, k ≠ "V" → g_kerning g' !! k = g_kerning g !! k.
Proof.
  assert (Forall (λ r, (r < length (glyph_objs (demo.after ["A"] demo.store0)))%nat)
                 (glyphs_dict (demo.after ["A"] demo.store0)).*2) as Hrefs.
  { apply (bool_decide_unpack _). vm_compute. exact I. }
  assert (_load_glyph demo.arial12 "V" (demo.after ["A"] demo.store0)
          = (Ok (), demo.after ["A"; "V"] demo.store0)) as Hrun
    by (vm_compute; reflexivity).
  assert ("A" ≠ "V") as Hne by discriminate.
  assert (dict_get "A" (glyphs_dict (demo.after ["A"] demo.store0)) = Some 0%nat)
    as Hget by (vm_compute; reflexivity).
  destruct (glyph_objs (demo.after ["A"] demo.store0) !! 0%nat) as [g|] eqn:Hg;
    [|vm_compute in Hg; discriminate].
  split; [exact Hrefs|]. split; [exact Hrun|]. split; [exact Hne|].
  split; [exact Hget|]. exists g. split; [reflexivity|].
  exact (_load_glyph_frame demo.arial12 "V" _ _ "A" 0%nat g Hrefs Hrun Hne Hget Hg).
Defined.

(** *** X7: "V" after "A": the face of "Arial" is kept *)

Lemma _load_glyph_keeps_faces_witness :
  _load_glyph demo.arial12 "V" (demo.after ["A"] demo.store0)
  = (Ok (), demo.after ["A"; "V"] demo.store0)
  ∧ (∀ k font, _font_dict (demo.after ["A"] demo.store0) !! k = Some font →
       _font_dict (demo.after ["A"; "V"] demo.store0) !! k = Some font)
  ∧ (∀ k, k ≠ font_key (f_face demo.arial12) (f_size demo.arial12)
                       (f_bold demo.arial12) (f_italic demo.arial12) →
       _font_dict (demo.after ["A"; "V"] demo.store0) !! k
       = _font_dict (demo.after ["A"] demo.store0) !! k)
  ∧ (∀ (i : nat) o, faces (demo.after ["A"] demo.store0) !! i = Some o →
       ∃ o', faces (demo.after ["A"; "V"] demo.store0) !! i = Some o'
           ∧ fname o' = fname o)
  ∧ (∀ (i : nat) o, faces (demo.after ["A"] demo.store0) !! i = Some o →
       _font_dict (demo.after ["A"] demo.store0)
         !! font_key (f_face demo.arial12) (f_size demo.arial12)
                     (f_bold demo.arial12) (f_italic demo.arial12)
         ≠ Some i →
       faces (demo.after ["A"; "V"] demo.store0) !! i = Some o)
  ∧ (wf_fonts (demo.after ["A"] demo.store0) →
     wf_fonts (demo.after ["A"; "V"] demo.store0)).
Proof.
  assert (_load_glyph demo.arial12 "V" (demo.after ["A"] demo.store0)
          = (Ok (), demo.after ["A"; "V"] demo.store0)) as Hrun
    by (vm_compute; reflexivity).
  split; [exact Hrun|].
  exact (_load_glyph_keeps_faces demo.arial12 "V" _ _ _ Hrun).
Defined.

(** *** X8: "A", "V", "T": one resolution, one face *)

Lemma load_glyphs_resolves_once_witness :
  load_glyphs demo.arial12 ["A"; "V"; "T"] demo.store0
  = (Ok (), demo.after ["A"; "V"; "T"] demo.store0)
  ∧ (count_events is_find_font (trace (demo.after ["A"; "V"; "T"] demo.store0))
      ≤ count_events is_find_font (trace demo.store0) + 1)%nat
  ∧ (count_events is_new_face (trace (demo.after ["A"; "V"; "T"] demo.store0))
      ≤ count_events is_new_face (trace demo.store0) + 1)%nat
  ∧ (length (faces (demo.after ["A"; "V"; "T"] demo.store0))
      ≤ length (faces demo.store0) + 1)%nat
  ∧ (is_Some (_font_dict demo.store0
               !! font_key (f_face demo.arial12) (f_size demo.arial12)
                           (f_bold demo.arial12) (f_italic demo.arial12)) →
       count_events is_find_font (trace (demo.after ["A"; "V"; "T"] demo.store0))
       = count_events is_find_font (trace demo.store0)
       ∧ count_events is_new_face (trace (demo.after ["A"; "V"; "T"] demo.store0))
         = count_events is_new_face (trace demo.store0)
       ∧ length (faces (demo.after ["A"; "V"; "T"] demo.store0))
         = length (faces demo.store0)).
Proof.
  assert (load_glyphs demo.arial12 ["A"; "V"; "T"] demo.store0
          = (Ok (), demo.after ["A"; "V"; "T"] demo.store0)) as Hrun
    by (vm_compute; reflexivity).
  split; [exact Hrun|].
  exact (load_glyphs_resolves_once demo.arial12 ["A"; "V"; "T"] _ _ _ Hrun).
Defined.

(** *** X9 and X10: the table of "A", "V", "T" *)

Lemma load_glyphs_dict_invariant_witness :
  glyphs_dict demo.store0 = []
  ∧ load_glyphs demo.arial12 ["A"; "V"; "T"] demo.store0
    = (Ok (), demo.after ["A"; "V"; "T"] demo.store0)
  ∧ NoDup (glyphs_dict (demo.after ["A"; "V"; "T"] demo.store0)).*1
  ∧ NoDup (glyphs_dict (demo.after ["A"; "V"; "T"] demo.store0)).*2
  ∧ (∀ k, k ∈ (glyphs_dict (demo.after ["A"; "V"; "T"] demo.store0)).*1
          ↔ k ∈ ["A"; "V"; "T"])
  ∧ (∀ c r, (c, r) ∈ glyphs_dict (demo.after ["A"; "V"; "T"] demo.store0) →
       ∃ g, glyph_objs (demo.after ["A"; "V"; "T"] demo.store0) !! r = Some g
          ∧ g_char g = c
          ∧ ∀ k, is_Some (g_kerning g !! k) ↔ k ∈ ["A"; "V"; "T"])
  ∧ length (glyph_objs (demo.after ["A"; "V"; "T"] demo.store0))
    = (length (glyph_objs demo.store0) + length ["A"; "V"; "T"])%nat.
Proof.
  assert (load_glyphs demo.arial12 ["A"; "V"; "T"] demo.store0
          = (Ok (), demo.after ["A"; "V"; "T"] demo.store0)) as Hrun
    by (vm_compute; reflexivity).
  split; [reflexivity|]. split; [exact Hrun|].
  exact (load_glyphs_dict_invariant demo.arial12 ["A"; "V"; "T"] demo.store0 _
           eq_refl Hrun).
Defined.

Lemma load_glyphs_kerning_table_witness :
  glyphs_dict demo.store0 = []
  ∧ ["A"; "V"; "T"] ≠ []
  ∧ load_glyphs demo.arial12 ["A"; "V"; "T"] demo.store0
    = (Ok (), demo.after ["A"; "V"; "T"] demo.store0)
  ∧ ∃ face o,
      _font_dict (demo.after ["A"; "V"; "T"] demo.store0)
        !! font_key (f_face demo.arial12) (f_size demo.arial12)
                    (f_bold demo.arial12) (f_italic demo.arial12)
        = Some face
      ∧ faces (demo.after ["A"; "V"; "T"] demo.store0) !! face = Some o
      ∧ ∀ a b, a ∈ ["A"; "V"; "T"] → b ∈ ["A"; "V"; "T"] →
          ∃ r g,
            dict_get b (glyphs_dict (demo.after ["A"; "V"; "T"] demo.store0))
              = Some r
            ∧ glyph_objs (demo.after ["A"; "V"; "T"] demo.store0) !! r = Some g
            ∧ g_char g = b
            ∧ g_kerning g !! a
              = Some (div64 (FT_Get_Kerning (fname o)
                               (f_size demo.arial12 * 64) a b)).
Proof.
  assert (["A"; "V"; "T"] ≠ ([] : list character)) as Hne by discriminate.
  assert (load_glyphs demo.arial12 ["A"; "V"; "T"] demo.store0
          = (Ok (), demo.after ["A"; "V"; "T"] demo.store0)) as Hrun
    by (vm_compute; reflexivity).
  split; [reflexivity|]. split; [exact Hne|]. split; [exact Hrun|].
  exact (load_glyphs_kerning_table demo.arial12 ["A"; "V"; "T"] demo.store0 _
           eq_refl Hne Hrun).
Defined.

(** *** X11: "Arial" asked for twice *)

Lemma _load_font_separates_witness :
  wf_fonts demo.store0
  ∧ 0 ≤ 12
  ∧ _load_font "Arial" 12 false false demo.store0
    = (Ok 0%nat, (_load_font "Arial" 12 false false demo.store0).2)
  ∧ _load_font "Arial" 12 false false
      (_load_font "Arial" 12 false false demo.store0).2
    = (Ok 0%nat, (_load_font "Arial" 12 false false demo.store0).2)
  ∧ "Arial" = "Arial" ∧ 12 = 12 ∧ false = false ∧ false = false.
Proof.
  assert (wf_fonts demo.store0) as Hwf by (by apply wf_fonts_empty).
  assert (0 ≤ 12) as Hsize by lia.
  assert (_load_font "Arial" 12 false false demo.store0
          = (Ok 0%nat, (_load_font "Arial" 12 false false demo.store0).2))
    as Hfirst by (vm_compute; reflexivity).
  assert (_load_font "Arial" 12 false false
            (_load_font "Arial" 12 false false demo.store0).2
          = (Ok 0%nat, (_load_font "Arial" 12 false false demo.store0).2))
    as Hsecond by (vm_compute; reflexivity).
  split; [exact Hwf|]. split; [exact Hsize|]. split; [exact Hfirst|].
  split; [exact Hsecond|].
  exact (_load_font_separates "Arial" 12 false false "Arial" 12 false false
           demo.store0 0%nat _ _ Hwf Hsize Hsize Hfirst Hsecond).
Defined.

End DemoMore.

(** ** A reshape that fails *)

Section DemoRagged.
Existing Instance ragged.freetype.

Lemma failed_reshape_commits_nothing_witness :
  _load_font "Arial" 12 false false demo.store0
  = (Ok 0%nat, (_load_font "Arial" 12 false false demo.store0).2)
  ∧ faces (_load_font "Arial" 12 false false demo.store0).2 !! 0%nat
    = Some (mk_Face "/usr/share/fonts/ragged.ttf" 0 blank_slot)
  ∧ FT_Load_Char "/usr/share/fonts/ragged.ttf" (12 * 64) "A" freetype_flags
    = Some (mk_FT_GlyphSlot (mk_FT_Bitmap 2 1 [255; 255; 255]) 0 0 64)
  ∧ make_bitmap [255; 255; 255] 1 2 = Raise ValueError
  ∧ ∃ s',
      _load_glyph demo.arial12 "A" demo.store0 = (Raise ValueError, s')
      ∧ (ValueError = ZeroDivisionError ∨ ValueError = ValueError)
      ∧ glyphs_dict s' = glyphs_dict demo.store0
      ∧ glyph_objs s' = glyph_objs demo.store0
      ∧ dict_get "A" (glyphs_dict s') = dict_get "A" (glyphs_dict demo.store0)
      ∧ _font_dict s' = _font_dict (_load_font "Arial" 12 false false demo.store0).2
      ∧ faces s' !! 0%nat
        = Some (mk_Face "/usr/share/fonts/ragged.ttf" (12 * 64)
                  (mk_FT_GlyphSlot (mk_FT_Bitmap 2 1 [255; 255; 255]) 0 0 64)).
Proof.
  split; [vm_compute; reflexivity|]. split; [vm_compute; reflexivity|].
  split; [reflexivity|]. split; [reflexivity|].
  apply (failed_reshape_commits_nothing demo.arial12 "A" demo.store0 0%nat
           (_load_font "Arial" 12 false false demo.store0).2
           (mk_Face "/usr/share/fonts/ragged.ttf" 0 blank_slot)
           (mk_FT_GlyphSlot (mk_FT_Bitmap 2 1 [255; 255; 255]) 0 0 64)
           ValueError).
  - vm_compute. reflexivity.
  - vm_compute. reflexivity.
  - reflexivity.
  - reflexivity.
Defined.

End DemoRagged.
